(* ===== verification/_CoqProject ===== *)
-Q . S2P
Prelude.v
Repr.v
Checksum.v
World.v
Transport.v
Scan.v
Serial.v
Tcp.v
Framing.v
Messages.v
Safety.v
Termination.v
Machine.v
Decode.v
Explain.v
Timeouts.v
Writes.v
SimpleRead.v
Bounds.v
Congruence.v
Chunks.v
Session.v
Base.v
