(* ===== verification/Prelude.v ===== *)
(** * Verification of the IEC 62056-21 transport layer (src/iec62056_21/transports.py)

    ** The program

    [transports.py] is the transport and link-framing layer of an IEC 62056-21
    meter-readout client.  Its parts:

    - the _checksum unit_ ([utils.bcc_valid], [utils.add_bcc]) and the protocol
      constants ([constants.ACK], [NACK], [LINE_END], [ENCODING]).  Their code is
      outside [src/]; they are modelled from the specification's words.
    - the _transport capability_: class [BaseTransport] with the abstract methods
      [connect], [disconnect], [_send], [_recv], [switch_baudrate], and its two
      subclasses [SerialTransport] (a pyserial port) and [TcpTransport] (a socket).
    - the _delimiter reader_ [BaseTransport.simple_read].
    - the _block framing engine_ [BaseTransport.read]: the loop that finds a start
      byte, collects bytes up to an end byte, reads the checksum byte, validates
      the block, answers ACK or NACK, and reassembles a message from its blocks.
    - the log calls of the methods and [__repr__] of the two subclasses.

    A caller sends a request with [send] and then calls [read] or [simple_read],
    which pull single bytes through [recv] from the subclass's [_recv]; [read]
    answers through [send].

    ** The files of the development, in dependency order

    - [Prelude] (this file): bytes as [Z], Python slices, exceptions, the result
      type, the state-and-exception monad [M], fuel, the tactics and the hint
      databases every other file uses.
    - [Repr]: the built-in [repr] on the values the transports format ([str],
      [bytes], [int], pairs), modelled from the language reference, and the
      proof that the text of a quoted string can be read back.
    - [Checksum]: the interfaces [Checksum] and [Constants] (what the engine
      needs of [utils] and [constants]), the exclusive-or block check of the
      specification (module [utils]) and the ASCII constants (module
      [constants]), which implement them.
    - [World]: everything outside the Python objects: the wall clock
      ([time.time()]), the line (the events that will arrive, each with its
      delay; the bytes written), the count of operating-system handles, and the
      log.  Modules [serial] and [socket] give the behaviour of the two library
      objects the transports own, as far as the transports call them.  [level]
      and [message] give the level and the text of a log record.
    - [Transport]: the interface [Transport] (the abstract methods, the timeout
      and the class name), module [BaseTransport] with the inherited methods
      [send] and [recv] and the abstract methods as the base class defines them,
      and the laws [TransportLaws]: what [_recv] and [_send] do to the line for a
      transport whose link is [Closed], [Timed] or [Blocking].
    - [Scan]: the loop that [read] and [simple_read] share (receive one byte,
      compare the elapsed time with [self.timeout], decide), as the function
      [scan] of a decision [on_byte], with the lemmas about receiving that
      hold whatever the decision.
    - [Serial]: module [SerialTransport], one definition per method of the class
      (lines 218-311), its [Transport] instance, the proof of [TransportLaws],
      and the life of a transport object as the step relation
      [serial_reachable] with its invariant [serial_ok].
    - [Tcp]: module [TcpTransport] (lines 314-393), likewise, with
      [tcp_reachable] and [tcp_ok].
    - [Framing]: [read] (lines 32-131) as the code has it.  [read_block] is the
      inner loop (lines 55-78), [handle_block] the rest of one iteration of the
      outer loop (lines 80-129), [read_loop] the outer loop and [read] the
      method; the locals that survive an iteration are the record [ReadVars].
      [verdict] is the decision table of lines 88-129 as a pure function;
      [handle_block_verdict] proves that [handle_block] decides as [verdict]
      says, and [read_loop_step] gives one iteration of the outer loop on a
      block that arrives in time.  [read_block_scan] shows that [read_block]
      is [scan] around the decision [block_byte].
    - [Messages]: the reference definitions of a message on the wire ([frame],
      [wire], [command]) and of what [read] is to return ([reassemble], [acks],
      [finished]; [nacks], [rejected] for blocks that fail their checksum),
      and the theorems that relate [read] to them.
    - [Safety]: the relation [extends] between the world before and after, and
      the proof that [read] only ever writes replies.
    - [Termination]: the measure [weight] of a script and the bound [slack] on
      the timeouts left, the fuel [enough], and the proof that [read]
      terminates.
    - [Machine]: the two loops of [read] as a transition system without
      fuel: [phase] is the control point with the locals ([Receiving]: the
      inner loop, awaiting the start or the end character; [BlockComplete]:
      the checksum byte pending; [MessageComplete]; [Failed]), [step] has one
      rule for every path through the body of the inner loop (lines 56-78)
      and one for every way the rest of the iteration (lines 80-129) ends.
      [phase_ok] is the invariant of the reachable configurations.
    - [Decode]: [read] as a function of the bytes received: [decode], by
      recursion on the bytes and without fuel, with the states [Collecting]
      (the inner loop) and [Checking] (the check byte is next), returns the
      message, the blocks it judged with the reply each is due, and the bytes
      it left; [decoded] is the world [read] leaves for them.
    - [Explain]: [read] as a function of the results of its receives:
      [dstep] is what [read] does with one result (a byte, or the empty bytes
      object of a receive that timed out), [drun] runs it over the results
      up to the message; [explains] relates a configuration of the machine
      to the results received so far.
    - [Timeouts]: [read] on a line where nothing arrives and on a block whose
      checksum byte is late; [polls] and [patience] say how long [read] waits.
    - [Writes]: [read] on a line that does not take the replies.
    - [SimpleRead]: [simple_read] (lines 133-173): [simple_read_loop] is its
      loop, which is [scan] around the decision [delim_byte]
      ([simple_read_loop_scan]); [delimited] is the reference function it
      implements.
    - [Bounds]: the kind of bytes [read] and [simple_read] return:
      [line_within] says what the line carries, [returns] what a result is
      when it is a value; the width [fits] of a line.
    - [Congruence]: the interface [WorldCongruence] of an equivalence of worlds
      that the clock, a read of one byte, a write and a log record respect,
      and the proof, as [Proper] instances, that [read] and [simple_read]
      respect every such equivalence.
    - [Chunks]: two congruences: [same bytewise] (the same bytes, cut into
      events differently; [unchunk] cuts a script into events of one byte) and
      [same clear_log] (the same world with another log).
    - [Session]: the order of calls of a caller, [session]: connect, send a
      request, read, disconnect; the interface [Lifecycle] of a transport that
      can be connected and released, and its two instances.
    - [Base]: the methods on an object of the base class itself.

    ** How state and effects are modelled

    A method that only reads [self] is a function of [self] into the monad
    [M World A = World -> result A * World]; a method that assigns to a field of
    [self] runs in [M (T * World)].  An exception is a value [Raise e]: the state
    that comes with it is the state at the moment of the [raise], as in Python.

    Time is kept in milliseconds as [Z]; a timeout of [t] seconds is
    [seconds t = 1000 * t], so that [self.timeout / 2] is exact.  The clock moves
    only in a read of the line.  The line is a script of events; a read with
    timeout [tmo] returns the head event when it is due within [tmo] and times
    out after [tmo] otherwise, leaving the event that much closer.  An event
    carries bytes, an error of the resource, or the close of the connection by
    the peer ([RxHangup]): from then on every read returns no bytes without
    blocking, and the delay of the event is the time the program takes from
    one receive to the next, the only place where that time is counted.
    A write appends to the bytes written when the line is up ([line_up]) and
    raises the error of the library when it is down.

    ** Fuel

    The [while True] loops are [Fixpoint]s on a fuel argument and return [None]
    when the fuel runs out.  One unit of fuel is one receive in the inner loops
    and one block in the outer loop of [read].  Every theorem that says the code
    returns or raises is stated for all fuel above an explicit bound: the
    number of events consumed (plus one for the outer loop), or the number of
    receives that fit in the timeout.  [read_mono] shows that more fuel never
    changes a result, and [read_terminates] and [simple_read_terminates] that
    the fuel [enough] (one unit for every event and every byte of the script,
    and for every receive that fits in the timeout, plus two) suffices on
    every well-formed script that is [paced]: the read timeout is positive,
    and so is the time of a receive on a closed connection.  Running out of
    fuel is not a behaviour of the program on such a script; the machine of
    [Machine] and the functions [decode] of [Decode] and [drun] of [Explain]
    describe the same loops without fuel.  (With a
    receive that takes no time at all on a closed connection the model, like
    a machine of infinite speed, would loop for ever.)

    ** What the theorems show

    - [Checksum]: the check byte of bytes of [n] bits has [n] bits
      ([calculate_bcc_fits]), [add_bcc] and [bcc_valid] are a round trip, a
      change of the check byte or of one data byte is detected.
    - [World], [Transport]: a receive keeps the world well formed, never moves
      the clock backwards, never makes the script heavier, neither loses nor
      invents a byte ([line_read_taken], [recv_taken], [recv_within]), hands
      over no more bytes than were asked for and none of its own making
      ([recv_ok_read], [recv_ok_length]), and touches neither the bytes
      written nor the handles nor the log.
    - [Scan]: the loop on bytes that arrive in time, on a byte that is late,
      on a quiet and on a closed line; [scan_keeps]: invariants of the world
      and of the locals are carried through the loop, whatever arrives;
      [scan_explained]: a loop that is left with a result has made its
      decisions on the results of its receives, which are the bytes it took
      from the line.
    - [Serial], [Tcp]: the result of every method on every branch, errors
      included ([serial_closed_raises], [tcp_closed_raises],
      [tcp_send_unwrapped], [serial_switch_timeout]; [tcp_reconnect]); the
      invariant of every reachable state, by induction on the step relation
      ([serial_reachable_ok], [tcp_reachable_ok]); the handle that
      [switch_baudrate] leaves open ([serial_switch_leaks]); the text of
      [__repr__]: it determines the fields of a serial transport
      ([serial_repr_inj]) and is never closed for a TCP transport
      ([tcp_repr_unclosed]).
    - [Framing]: [read_closed] (no link) and [read_mono] (fuel).
    - [Messages]: [read_message]: on noise and then a message of blocks that
      arrives in time, [read] returns [reassemble], acknowledges every partial
      block and consumes exactly the message; [read_message_validates]: the
      result carries a valid checksum; [read_command]: a message that begins
      with SOH is returned as it came; [read_retry] and [read_retry_differs]:
      one NACK for every rejected block, and what the rejected blocks do to
      the message that follows; [read_loop_between]: bytes between blocks.
    - [Safety]: [read_replies]: whatever arrives, [read] writes nothing but
      ACK and NACK, leaves the handles alone and takes the bytes of the line
      from the front, in order.
    - [Termination]: [read_terminates].
    - [Machine]: [read_machine]: the machine reaches a final configuration
      exactly when [read] has that outcome with some fuel, so the fuel is a
      device of the model and not a behaviour; [machine_typed]: the invariant
      [phase_ok] of every reachable configuration, by induction on the runs
      (in particular a completed block ends with ETX or EOT, so the decision
      of lines 88-129 never falls through); [read_checked]: whatever
      arrives, a message that [read] returns is not empty and is a command
      message or carries a valid checksum; [step_deterministic]: the rules
      exclude one another; [machine_ends]: on a well-formed, paced script
      every run can be completed, and ends in one configuration only;
      [block_answered]: after a
      completed block [read] returns, fails, or has written one ACK or one
      NACK.
    - [Decode]: [read_decodes]: on every stream of bytes that arrive in
      time, on a line that takes the replies, [read] returns the message
      [decode] finds, consumes what [decode] consumes, and sends and logs what
      the judged blocks say; [decode_unread]: [decode] takes the bytes from
      the front; [decode_wire]: on a message of blocks [decode] returns
      [reassemble], the reference of [Messages].
    - [Explain]: [read_explained], the converse of [read_decodes] for every
      run, in time or not: a message [read] returns is the message of [drun]
      on the results of the receives, which are the bytes [read] took from
      the line; what it sent and logged are the replies and the blocks
      [drun] judged, and every reply is [honest]; [machine_explained] is
      the invariant behind it, by induction on the runs of the machine;
      [decode_drun] and [drun_decode]: [drun] on results of one byte each is
      [decode].
    - [Timeouts]: [read_silence], [read_silence_serial], [read_silence_tcp]:
      when and with which exception [read] gives up on a silent line;
      [read_hangup]: on a connection the peer has closed [read] receives
      until its deadline and raises [TimeoutError]; [read_overdue]: the
      deadline is that of the block, so a sender that is slow is cut off in
      the middle of a block; [read_late_check].
    - [Writes]: [read_reply_fails]: when the line does not take the reply
      to a block, [read] raises the error of the library as it is, and the
      block is lost.
    - [SimpleRead]: [simple_read_delimited] (refinement of [delimited]);
      [simple_read_explained], its converse for every run, in time or not:
      what [simple_read] returns is the message of [delimited] on the bytes
      that were to come, and what it leaves are the bytes after it;
      [simple_read_between]: whatever arrives,
      what [simple_read] returns lies between the delimiters, and nothing
      was written; [simple_read_silence], [simple_read_hangup] and
      [simple_read_overdue]: when it gives up; [simple_read_terminates].
    - [Bounds]: [read_width]: on a line of [n] bits [read] returns bytes of
      [n] bits, the line ends and the check byte it makes included, whatever
      arrives; [simple_read_within]: [simple_read] returns bytes of the kind
      the line carries.
    - [Chunks]: [read_chunking]: [read] and [simple_read] cannot tell how the
      line cut the bytes into events; [read_message_chunked]: the theorem
      [read_message] for chunks of any size, and [read_decodes_chunked]
      the refinement of [Decode]; [read_ignores_log]: the log has no effect
      on the protocol.
    - [Session]: [session_message]: a whole session returns the message,
      closes the handle it opened and leaves the transport without a link;
      [session_outcome]: whatever the meter answers, a session writes the
      request and replies only, returns a checked message with the
      transport released, or raises out of [read] with the transport still
      connected and the handle open.
    - [Base]: [base_raises_type_error].

    The theorems about [read] and [simple_read] are proved once, for every
    transport that satisfies [TransportLaws] and every [Checksum] and
    [Constants]; the witnesses run the engine on a [SerialTransport] or a
    [TcpTransport] with the exclusive-or check.  The theorems of [Messages]
    are stated for bytes that arrive as events of their own ([delivers]);
    [Chunks] carries them over to every cutting of the same bytes.  The
    theorems of [Safety], [Termination], [Machine], [Explain], [Bounds]
    and [Congruence] hold for every script.

    ** What is not modelled

    The handlers and the configuration of the logging module; the operating
    system behind pyserial and the socket beyond the behaviour stated in
    [World], in particular writes that block, a line that goes down in the
    middle of a call, and the time the program spends between receives on a
    connection that is open.  Strings are
    strings of code points below 256.  The caller of the transports is not in
    the sources; [session] is the order of calls the specification gives.  *)

From Stdlib Require Import ZArith Lia.
From stdpp Require Import base tactics option list numbers strings.

#[local] Open Scope Z_scope.

(** ** Bytes *)

(** A byte is an integer; [is_byte] is its range.  A Python [bytes] object is
    a list of bytes, the empty bytes object being the empty list. *)
Definition byte := Z.
Definition bytes := list byte.

Definition is_byte (b : byte) : Prop := 0 ≤ b < 256.
Definition wf_bytes (bs : bytes) : Prop := Forall is_byte bs.

#[export] Instance is_byte_dec b : Decision (is_byte b).
Proof. unfold is_byte. apply _. Defined.

(** What a receive of one byte returns: a bytes object of one byte, or the
    empty one. *)
Definition one_or_none (b : bytes) : Prop := (length b ≤ 1)%nat.

#[export] Instance one_or_none_dec b : Decision (one_or_none b).
Proof. unfold one_or_none. apply _. Defined.

Lemma one_or_none_inv b : one_or_none b → b = [] ∨ ∃ x, b = [x].
Proof. destruct b as [| x [| y b]]; unfold one_or_none; simpl; [eauto .. | lia]. Qed.

(** A byte of [n] bits: a serial port opened with seven data bits hands over
    bytes of seven bits, a socket bytes of eight. *)
Definition fits (n : Z) (b : byte) : Prop := 0 ≤ b < 2 ^ n.

#[export] Instance fits_dec n b : Decision (fits n b).
Proof. unfold fits. apply _. Defined.

(** ** Python slices *)

Section Slices.
Context {A : Type}.
Implicit Types l k : list A.

(** [l[:-n]] for a literal [n > 0]: all but the last [n] elements, and the
    empty list when [l] is shorter. *)
Definition slice_to_neg (n : nat) l : list A := take (length l - n) l.

(** [l[n:]]. *)
Definition slice_from (n : nat) l : list A := drop n l.

(** [l[-1:]]: the last element as a list, empty for the empty list. *)
Definition slice_last l : list A := drop (length l - 1) l.

Lemma slice_to_neg_app l k : slice_to_neg (length k) (l ++ k) = l.
Proof.
  unfold slice_to_neg. rewrite length_app.
  replace (length l + length k - length k)%nat with (length l) by lia.
  apply take_app_length.
Qed.

Lemma slice_to_neg_snoc l x : slice_to_neg 1 (l ++ [x]) = l.
Proof. apply (slice_to_neg_app l [x]). Qed.

Lemma slice_to_neg_short n l : (length l ≤ n)%nat → slice_to_neg n l = [].
Proof.
  intros Hn. unfold slice_to_neg.
  replace (length l - n)%nat with 0%nat by lia. done.
Qed.

(** A slice holds elements of the list. *)
Lemma Forall_slice_to_neg (P : A → Prop) n l :
  Forall P l → Forall P (slice_to_neg n l).
Proof. apply Forall_take. Qed.

Lemma Forall_slice_from (P : A → Prop) n l :
  Forall P l → Forall P (slice_from n l).
Proof. apply Forall_drop. Qed.

Lemma slice_last_app l x : slice_last (l ++ [x]) = [x].
Proof.
  unfold slice_last. rewrite length_app. simpl.
  replace (length l + 1 - 1)%nat with (length l) by lia.
  apply drop_app_length.
Qed.

End Slices.

(** [x or y] on an optional integer: [y] when [x] is [None] or [0]. *)
Definition py_or (x : option Z) (y : Z) : Z :=
  match x with
  | Some v => if decide (v = 0) then y else v
  | None => y
  end.

(** ** Time *)

(** The clock counts milliseconds; the timeouts of the program are integers
    of seconds. *)
Definition seconds (t : Z) : Z := 1000 * t.

(** ** Exceptions and results *)

Inductive exn : Type :=
| TransportError (msg : string)   (* transports.TransportError *)
| TimeoutError (msg : string)     (* the builtin raised by read and simple_read *)
| TypeError (msg : string)        (* calling the constant NotImplemented *)
| SerialException                 (* pyserial's error, never caught by the program *)
| OSError.                        (* a socket error, socket.timeout included *)

#[export] Instance exn_eq_dec : EqDecision exn.
Proof. solve_decision. Defined.

Inductive result (A : Type) : Type :=
| Ok (a : A)
| Raise (e : exn).
Arguments Ok {A} a.
Arguments Raise {A} e.

#[export] Instance result_eq_dec `{EqDecision A} : EqDecision (result A).
Proof. solve_decision. Defined.

Definition is_ok {A} (r : result A) : bool :=
  match r with Ok _ => true | Raise _ => false end.

(** What holds of a result when it is a value. *)
Definition returns {A} (Q : A → Prop) (r : result A) : Prop :=
  match r with Ok a => Q a | Raise _ => True end.

(** ** The state-and-exception monad *)

(** A computation on a state [S]: it returns a value or raises, and in both
    cases leaves a state. *)
Definition M (S A : Type) : Type := S → result A * S.

#[export] Instance M_ret {S} : MRet (M S) := λ A a s, (Ok a, s).

#[export] Instance M_bind {S} : MBind (M S) := λ A B f m s,
  match m s with
  | (Ok a, s') => f a s'
  | (Raise e, s') => (Raise e, s')
  end.

Definition raise {S A} (e : exn) : M S A := λ s, (Raise e, s).
Definition gets {S A} (f : S → A) : M S A := λ s, (Ok (f s), s).
Definition modify {S} (f : S → S) : M S unit := λ s, (Ok tt, f s).

(** [try: m except h]: run [m]; when it raises [e], continue with [h e] in the
    state the raise left. *)
Definition try_except {S A} (m : M S A) (h : exn → M S A) : M S A := λ s,
  match m s with
  | (Ok a, s') => (Ok a, s')
  | (Raise e, s') => h e s'
  end.

(** Run a computation on the second component of a pair state: a method that
    reads [self] called from one that assigns to it. *)
Definition on_world {T W A} (m : T → M W A) : M (T * W) A := λ s,
  let '(r, w') := m s.1 s.2 in (r, (s.1, w')).

(** [self] and the assignment to a field of [self], for a method that runs on
    the pair of the object and the world. *)
Definition this {T W} : M (T * W) T := gets fst.
Definition assign {T W} (f : T → T) : M (T * W) unit :=
  modify (λ s, (f s.1, s.2)).

(** A computation on the world called from such a method. *)
Definition lift {T W A} (m : M W A) : M (T * W) A := on_world (λ _, m).

Declare Scope prog_scope.
Delimit Scope prog_scope with prog.
Notation "m1 ;;; m2" := (mbind (λ _, m2) m1)
  (at level 100, m2 at level 200, right associativity) : prog_scope.
#[global] Open Scope prog_scope.

Section MonadLemmas.
Context {S A B : Type}.
Implicit Types (m : M S A) (f : A → M S B) (s : S).

Lemma bind_ok m f s a s' : m s = (Ok a, s') → (m ≫= f) s = f a s'.
Proof. unfold mbind, M_bind. by intros ->. Qed.

Lemma bind_raise m f s e s' :
  m s = (Raise e, s') → (m ≫= f) s = (Raise e, s').
Proof. unfold mbind, M_bind. by intros ->. Qed.

End MonadLemmas.

Lemma on_world_run {T W A} (m : T → M W A) (self : T) (w : W) :
  on_world m (self, w) = ((m self w).1, (self, (m self w).2)).
Proof. unfold on_world. simpl. by destruct (m self w). Qed.

(** ** Fuel *)

(** The result of a loop run with fuel: [None] when the fuel ran out. *)
Definition run (S A : Type) : Type := option (result A * S).

Lemma run_eq {S A} (a a' : A) (s s' : S) :
  a = a' → s = s' → Some (Ok a, s) = Some (Ok a', s').
Proof. by intros -> ->. Qed.

(** ** Tactics and hint databases *)

(** Unfold the monad's operations in the goal and in the hypotheses. *)
Ltac unfold_monad :=
  unfold mbind, mret, M_bind, M_ret, this, assign, lift, raise, gets,
    modify, try_except, on_world in *.

Create HintDb iec discriminated.
Create Rewrite HintDb iec_rw.
#[export] Hint Rewrite @slice_to_neg_app @slice_to_neg_snoc @slice_last_app
  @length_app @app_nil_r : iec_rw.
#[export] Hint Unfold is_byte wf_bytes seconds : iec.

(** ** Shared lemmas on lists and integers *)

Lemma py_or_some v y : v ≠ 0 → py_or (Some v) y = v.
Proof. intros Hv. unfold py_or. by case_decide. Qed.

(** Half of a timeout is a whole number of milliseconds. *)
Lemma seconds_half t : seconds t / 2 = 500 * t.
Proof.
  unfold seconds. replace (1000 * t) with (500 * t * 2) by lia.
  apply Z.div_mul. lia.
Qed.

