(* ===== verification/Repr.v ===== *)
(** * Python's [repr] and [str]

    [__repr__] of the transports and the messages of the log are f-strings
    with [!r] conversions.  This file gives the built-in [repr] on the values
    that occur there: [str], [int], [bytes] and pairs.  It is modelled from
    the language reference: the text of a string is put in single quotes, in
    double quotes when it contains a single quote and no double quote; the
    quote and the backslash are escaped with a backslash; tab, newline and
    carriage return are written with their letters; every other character
    that is not printable is written as a hexadecimal escape.  Strings are
    strings of code points below 256. *)

From Stdlib Require Import ZArith Lia Ascii String.
From stdpp Require Import base tactics option list numbers strings pretty.
From S2P Require Import Prelude.

(** [repr(x)], by the type of [x]. *)
Class Repr (A : Type) : Type := repr : A → string.
#[global] Hint Mode Repr ! : typeclass_instances.

Module builtins.

Definition squote : ascii := ascii_of_N 39.
Definition dquote : ascii := ascii_of_N 34.
Definition backslash : ascii := ascii_of_N 92.

Fixpoint contains (c : ascii) (s : string) : bool :=
  match s with
  | EmptyString => false
  | String d s => bool_decide (c = d) || contains c s
  end.

(** The quote around the text: double only when that saves escapes. *)
Definition quote_for (s : string) : ascii :=
  if contains squote s && negb (contains dquote s) then dquote else squote.

(** A hexadecimal digit, in lower case. *)
Definition hex_digit (n : N) : ascii :=
  ascii_of_N (if (n <? 10)%N then 48 + n else 87 + n).

(** The escape of a code point below 256: a backslash, x and two digits. *)
Definition hex_escape (n : N) : string :=
  String backslash
    (String "x" (String (hex_digit (n / 16)) (String (hex_digit (n mod 16)) EmptyString))).

(** Printable code points of a [str]: the printable ASCII characters and,
    above them, all but the controls, the no-break space and the soft
    hyphen. *)
Definition printable_str (n : N) : bool :=
  ((32 <=? n) && (n <? 127) || (161 <=? n) && negb (n =? 173))%N.

(** Printable bytes: the printable ASCII characters. *)
Definition printable_bytes (n : N) : bool := ((32 <=? n) && (n <? 127))%N.

(** One character of the text between the quotes [q]. *)
Definition escape (printable : N → bool) (q c : ascii) : string :=
  let n := N_of_ascii c in
  if bool_decide (c = q) || bool_decide (c = backslash)
  then String backslash (String c EmptyString)
  else if (n =? 9)%N then String backslash "t"
  else if (n =? 10)%N then String backslash "n"
  else if (n =? 13)%N then String backslash "r"
  else if printable n then String c EmptyString
  else hex_escape n.

Fixpoint escape_all (printable : N → bool) (q : ascii) (s : string) : string :=
  match s with
  | EmptyString => EmptyString
  | String c s => escape printable q c +:+ escape_all printable q s
  end.

Definition quoted (printable : N → bool) (s : string) : string :=
  let q := quote_for s in
  String q (escape_all printable q s +:+ String q EmptyString).

(** [repr] of a [str]. *)
Definition repr_str (s : string) : string := quoted printable_str s.

(** The bytes of a [bytes] object as characters. *)
Definition chars (b : bytes) : string :=
  string_of_list_ascii (map (λ x, ascii_of_N (Z.to_N x)) b).

(** [repr] of a [bytes] object. *)
Definition repr_bytes (b : bytes) : string :=
  String "b" (quoted printable_bytes (chars b)).

(** [repr] of an [int]: its decimal digits, after a minus sign when it is
    negative. *)
Definition repr_int (x : Z) : string := pretty x.

(** [repr] of a pair. *)
Definition repr_tuple {A B} `{Repr A, Repr B} (p : A * B) : string :=
  "(" +:+ repr p.1 +:+ ", " +:+ repr p.2 +:+ ")".

(** [str(x)] of an [int], as an f-string formats it without a conversion. *)
Definition str_int (x : Z) : string := repr_int x.

End builtins.

#[export] Instance string_repr : Repr string := builtins.repr_str.
#[export] Instance Z_repr : Repr Z := builtins.repr_int.
#[export] Instance bytes_repr : Repr bytes := builtins.repr_bytes.
#[export] Instance tuple_repr {A B} `{Repr A, Repr B} : Repr (A * B) :=
  builtins.repr_tuple.

(** ** The last character of a string *)

Fixpoint last_char (s : string) : option ascii :=
  match s with
  | EmptyString => None
  | String c EmptyString => Some c
  | String _ s => last_char s
  end.

Definition is_digit (c : ascii) : bool :=
  ((48 <=? N_of_ascii c) && (N_of_ascii c <=? 57))%N.

Lemma last_char_cons c s x : last_char s = Some x → last_char (String c s) = Some x.
Proof. by destruct s. Qed.

Lemma last_char_app s t x : last_char t = Some x → last_char (s +:+ t) = Some x.
Proof. intros Ht. induction s as [| c s IH]; [done |]. by apply last_char_cons. Qed.

Lemma pretty_N_char_digit n : is_digit (pretty_N_char n) = true.
Proof. unfold pretty_N_char. by repeat case_match. Qed.

(** The digits of a number are put in front of what was printed. *)
Lemma pretty_N_go_last (n : N) : ∀ s x,
  last_char s = Some x → last_char (pretty_N_go n s) = Some x.
Proof.
  induction (N.lt_wf_0 n) as [n _ IH]. intros s x Hs.
  destruct (decide (n = 0)%N) as [-> | Hn]; [done |].
  rewrite pretty_N_go_step by lia.
  apply IH; [apply N.div_lt; lia | by apply last_char_cons].
Qed.

Lemma pretty_N_last (n : N) :
  ∃ c, last_char (pretty n) = Some c ∧ is_digit c = true.
Proof.
  unfold pretty, pretty_N. case_decide as Hn; [by exists "0"%char |].
  exists (pretty_N_char (n `mod` 10)). split; [| apply pretty_N_char_digit].
  rewrite pretty_N_go_step by lia. by apply pretty_N_go_last.
Qed.

(** The [repr] of an [int] ends with a digit. *)
Lemma repr_int_last (x : Z) :
  ∃ c, last_char (repr x) = Some c ∧ is_digit c = true.
Proof.
  unfold repr, Z_repr, builtins.repr_int, pretty, pretty_Z.
  destruct x as [| p | p]; [by exists "0"%char | apply pretty_N_last |].
  destruct (pretty_N_last (N.pos p)) as (c & Hc & Hd). exists c.
  split; [by apply last_char_app | done].
Qed.

(** Different integers have different texts. *)
#[export] Instance repr_int_inj : Inj (=) (=) (repr : Z → string).
Proof. unfold repr, Z_repr, builtins.repr_int. apply _. Qed.

(** ** Strings *)

Lemma string_app_cons c (s t : string) : String c s +:+ t = String c (s +:+ t).
Proof. done. Qed.

Lemma string_app_nil_l (t : string) : EmptyString +:+ t = t.
Proof. done. Qed.

Lemma string_app_assoc (s t u : string) : (s +:+ t) +:+ u = s +:+ t +:+ u.
Proof. induction s as [| c s IH]; [done |]. rewrite !string_app_cons. by f_equal. Qed.

Lemma string_app_length (s t : string) :
  String.length (s +:+ t) = (String.length s + String.length t)%nat.
Proof.
  induction s as [| c s IH]; [done |]. rewrite string_app_cons. simpl. by f_equal.
Qed.

(** What is put in front of a string can be recovered. *)
Lemma string_app_inj_r (s1 s2 t : string) : s1 +:+ t = s2 +:+ t → s1 = s2.
Proof.
  revert s2. induction s1 as [| c s1 IH]; intros [| d s2];
    rewrite ?string_app_cons, ?string_app_nil_l; intros Heq; try done.
  - apply (f_equal String.length) in Heq. simpl in Heq.
    rewrite string_app_length in Heq. lia.
  - apply (f_equal String.length) in Heq. simpl in Heq.
    rewrite string_app_length in Heq. lia.
  - injection Heq as -> Heq. f_equal. by apply IH.
Qed.

(** Compute the concatenations of string literals in the goal and the
    hypotheses. *)
Ltac string_simpl :=
  repeat progress rewrite ?string_app_cons, ?string_app_nil_l in *.

#[export] Instance N_of_ascii_inj : Inj (=) (=) N_of_ascii.
Proof.
  intros c d Heq. by rewrite <- (ascii_N_embedding c), <- (ascii_N_embedding d), Heq.
Qed.

(** ** [repr] of a string can be read back *)

Section Quoted.
Variable printable : N → bool.
Variable q : ascii.
Hypothesis Hq : q = builtins.squote ∨ q = builtins.dquote.

Lemma hex_digit_inj a b :
  (a < 16)%N → (b < 16)%N → builtins.hex_digit a = builtins.hex_digit b → a = b.
Proof.
  unfold builtins.hex_digit. intros Ha Hb Heq.
  apply (f_equal N_of_ascii) in Heq.
  destruct (a <? 10)%N eqn:Ea, (b <? 10)%N eqn:Eb;
    rewrite !N_ascii_embedding in Heq by lia;
    rewrite ?N.ltb_lt, ?N.ltb_ge in *; lia.
Qed.

Lemma hex_escape_inj c d :
  builtins.hex_escape (N_of_ascii c) = builtins.hex_escape (N_of_ascii d) → c = d.
Proof.
  unfold builtins.hex_escape. intros [= H1 H2].
  pose proof (N_ascii_bounded c). pose proof (N_ascii_bounded d).
  apply hex_digit_inj in H1; [| apply N.Div0.div_lt_upper_bound; lia ..].
  apply hex_digit_inj in H2; [| apply N.mod_lt; lia ..].
  apply (inj N_of_ascii).
  rewrite (N.div_mod (N_of_ascii c) 16), (N.div_mod (N_of_ascii d) 16) by lia.
  by rewrite H1, H2.
Qed.

(** An escape never begins with the quote. *)
Lemma escape_head c : ∃ h t, builtins.escape printable q c = String h t ∧ h ≠ q.
Proof.
  unfold builtins.escape, builtins.hex_escape.
  destruct (bool_decide (c = q)) eqn:Hc; simpl;
    [| apply bool_decide_eq_false in Hc];
    repeat case_match; eexists _, _; (split; [done |]);
    destruct Hq as [-> | ->]; try done; congruence.
Qed.

(** The escapes are a prefix code: the character can be read off the
    beginning of the text, and the rest of the text is what follows. *)
Lemma escape_inj c d r1 r2 :
  builtins.escape printable q c +:+ r1 = builtins.escape printable q d +:+ r2 →
  c = d ∧ r1 = r2.
Proof.
  unfold builtins.escape, builtins.hex_escape. intros Heq.
  repeat case_match; string_simpl; simplify_eq/=;
    repeat match goal with
    | H : _ || _ = true |- _ => apply orb_true_iff in H as [H | H]
    | H : _ || _ = false |- _ => apply orb_false_iff in H as [? ?]
    | H : bool_decide _ = true |- _ => apply bool_decide_eq_true in H
    | H : bool_decide _ = false |- _ => apply bool_decide_eq_false in H
    | H : (_ =? _)%N = true |- _ => apply N.eqb_eq in H
    end;
    destruct Hq as [-> | ->]; simplify_eq/=; try done.
  all: first [ split; [apply (inj N_of_ascii); congruence | done]
             | split; [apply hex_escape_inj; unfold builtins.hex_escape; congruence
                      | done] ].
Qed.

Lemma escape_all_inj s1 : ∀ s2 r1 r2,
  builtins.escape_all printable q s1 +:+ String q r1 =
    builtins.escape_all printable q s2 +:+ String q r2 →
  s1 = s2 ∧ r1 = r2.
Proof.
  induction s1 as [| c s1 IH]; intros [| d s2] r1 r2;
    cbn [builtins.escape_all]; string_simpl.
  - by intros [= ->].
  - destruct (escape_head d) as (h & t & -> & Hh). string_simpl. by intros [= <-].
  - destruct (escape_head c) as (h & t & -> & Hh). string_simpl. by intros [= ->].
  - rewrite !string_app_assoc. intros [-> Heq]%escape_inj.
    by apply IH in Heq as [-> ->].
Qed.

End Quoted.

Lemma quote_for_cases s :
  builtins.quote_for s = builtins.squote ∨ builtins.quote_for s = builtins.dquote.
Proof. unfold builtins.quote_for. case_match; auto. Qed.

(** The text of a quoted string ends at its closing quote: from a text that
    begins with the [repr] of a string, the string and the rest of the text
    can be recovered. *)
Lemma quoted_inj printable s1 s2 r1 r2 :
  builtins.quoted printable s1 +:+ r1 = builtins.quoted printable s2 +:+ r2 →
  s1 = s2 ∧ r1 = r2.
Proof.
  unfold builtins.quoted. string_simpl. intros [= Hq Heq]. rewrite Hq in Heq.
  rewrite !string_app_assoc in Heq. string_simpl.
  by apply (escape_all_inj _ _ (quote_for_cases s2)) in Heq.
Qed.
