(* ===== verification/Checksum.v ===== *)
(** * The checksum unit and the protocol constants

    The transports call [utils.bcc_valid], [utils.add_bcc] and the constants
    [constants.ACK], [NACK], [LINE_END], [ENCODING].  None of that code is in
    the repository's sources, so this file states what the framing engine
    needs of them as two interfaces, [Checksum] and [Constants], and gives the
    implementations the specification describes: the block check character as
    the exclusive-or of the bytes (module [utils]) and the ASCII control
    characters (module [constants]).  The engine's theorems are proved against
    the interfaces. *)

From Stdlib Require Import ZArith Lia Ascii String.
From stdpp Require Import base tactics option list numbers strings.
From S2P Require Import Prelude.

#[local] Open Scope Z_scope.

(** ** The interfaces *)

(** What the engine relies on: [add_bcc] appends the check byte [bcc] of its
    argument, and [bcc_valid] accepts exactly the messages whose last byte is
    the check byte of the bytes before it. *)
Class Checksum := {
  bcc : bytes → byte;
  bcc_valid : bytes → bool;
  add_bcc : bytes → bytes;
  add_bcc_snoc : ∀ m, add_bcc m = m ++ [bcc m];
  bcc_valid_snoc : ∀ d c, bcc_valid (d ++ [c]) = true ↔ c = bcc d;
  bcc_valid_nil : bcc_valid [] = false;
}.

(** The constants the engine sends and inserts, as Python [str] values, and
    the encoding that turns them into bytes. *)
Class Constants := {
  ACK : string;
  NACK : string;
  LINE_END : string;
  ENCODING : string → bytes;
}.

(** [s.encode(constants.ENCODING)]. *)
Definition encode `{Constants} (s : string) : bytes := ENCODING s.

(** An argument that is a [str] or a [bytes] object. *)
Inductive str_or_bytes : Type :=
| Str (s : string)
| Bytes (b : bytes).

(** [utils.ensure_bytes]: a [str] is encoded, a [bytes] object is left as it
    is. *)
Definition ensure_bytes `{Constants} (data : str_or_bytes) : bytes :=
  match data with
  | Str s => encode s
  | Bytes b => b
  end.

(** ** The block check of the specification *)

Module utils.

(** The exclusive running accumulation of the input bytes. *)
Definition calculate_bcc (data : bytes) : byte := fold_left Z.lxor data 0.

(** The message with its check byte appended. *)
Definition add_bcc (message : bytes) : bytes :=
  message ++ [calculate_bcc message].

(** Recompute over all bytes except the last and compare to the last. *)
Definition bcc_valid (message : bytes) : bool :=
  bool_decide (slice_last message = [calculate_bcc (slice_to_neg 1 message)]).

End utils.

(** ** The ASCII constants *)

Module constants.

Definition SOH : byte := 1.
Definition STX : byte := 2.
Definition ETX : byte := 3.
Definition EOT : byte := 4.

Definition chr (n : N) : string := String (ascii_of_N n) EmptyString.

Definition ACK : string := chr 6.
Definition NACK : string := chr 21.
Definition LINE_END : string := String (ascii_of_N 13) (chr 10).

(** A single-byte encoding: each character becomes its code. *)
Definition ENCODING (s : string) : bytes :=
  map (λ c, Z.of_N (N_of_ascii c)) (list_ascii_of_string s).

End constants.

#[export] Instance ascii_constants : Constants := {|
  ACK := constants.ACK;
  NACK := constants.NACK;
  LINE_END := constants.LINE_END;
  ENCODING := constants.ENCODING;
|}.

(** ** Properties of the exclusive-or check *)

Section XorBounds.
Variable n : Z.
Hypothesis n_pos : 0 < n.

Lemma lxor_bound a b :
  0 ≤ a < 2 ^ n → 0 ≤ b < 2 ^ n → 0 ≤ Z.lxor a b < 2 ^ n.
Proof.
  intros [Ha0 Ha] [Hb0 Hb].
  assert (0 ≤ Z.lxor a b) as H0 by (apply Z.lxor_nonneg; lia).
  split; [done |].
  destruct (decide (Z.lxor a b = 0)) as [-> | Hne]; [lia |].
  apply Z.log2_lt_pow2; [lia |].
  pose proof (Z.log2_lxor a b Ha0 Hb0) as Hl.
  assert (Z.log2 a < n) by
    (destruct (decide (a = 0)) as [-> | ?]; [done | apply Z.log2_lt_pow2; lia]).
  assert (Z.log2 b < n) by
    (destruct (decide (b = 0)) as [-> | ?]; [done | apply Z.log2_lt_pow2; lia]).
  lia.
Qed.

Lemma fold_lxor_bound (data : bytes) acc :
  0 ≤ acc < 2 ^ n → Forall (λ b, 0 ≤ b < 2 ^ n) data →
  0 ≤ fold_left Z.lxor data acc < 2 ^ n.
Proof.
  intros Hacc Hdata. revert acc Hacc.
  induction Hdata as [| b data Hb _ IH]; intros acc Hacc; simpl; [done |].
  apply IH, lxor_bound; done.
Qed.

End XorBounds.

Lemma fold_lxor_acc (data : bytes) acc :
  fold_left Z.lxor data acc = Z.lxor acc (fold_left Z.lxor data 0).
Proof.
  revert acc. induction data as [| b data IH]; intros acc; simpl.
  - by rewrite Z.lxor_0_r.
  - rewrite IH, (IH (Z.lxor 0 b)), Z.lxor_0_l, Z.lxor_assoc. done.
Qed.

(** The check byte of bytes of [n] bits has [n] bits: seven on a serial port
    opened with seven data bits. *)
Lemma calculate_bcc_fits n data :
  0 < n → Forall (fits n) data → fits n (utils.calculate_bcc data).
Proof.
  intros Hn Hd. apply fold_lxor_bound; [done | | done].
  pose proof (Z.pow_pos_nonneg 2 n). lia.
Qed.

(** The check byte of bytes is a byte. *)
Lemma calculate_bcc_byte data : wf_bytes data → is_byte (utils.calculate_bcc data).
Proof. by apply (calculate_bcc_fits 8). Qed.

(** The check of a concatenation is the exclusive-or of the checks. *)
Lemma calculate_bcc_app d1 d2 :
  utils.calculate_bcc (d1 ++ d2) =
  Z.lxor (utils.calculate_bcc d1) (utils.calculate_bcc d2).
Proof.
  unfold utils.calculate_bcc. rewrite fold_left_app. apply fold_lxor_acc.
Qed.

Lemma utils_bcc_valid_snoc d c :
  utils.bcc_valid (d ++ [c]) = true ↔ c = utils.calculate_bcc d.
Proof.
  unfold utils.bcc_valid. rewrite bool_decide_eq_true.
  rewrite slice_last_app, slice_to_neg_snoc. naive_solver.
Qed.

Lemma utils_bcc_valid_nil : utils.bcc_valid [] = false.
Proof. done. Qed.

(** Round trip: a message with its check byte appended validates. *)
Lemma utils_add_bcc_valid m : utils.bcc_valid (utils.add_bcc m) = true.
Proof. unfold utils.add_bcc. by apply utils_bcc_valid_snoc. Qed.

(** Changing the check byte of a valid message makes it invalid. *)
Lemma utils_bcc_detects_check d c c' :
  utils.bcc_valid (d ++ [c]) = true → c' ≠ c →
  utils.bcc_valid (d ++ [c']) = false.
Proof.
  intros Hv%utils_bcc_valid_snoc Hne. apply not_true_is_false.
  intros Hv'%utils_bcc_valid_snoc. congruence.
Qed.

Lemma lxor_inj_l a x y : Z.lxor a x = Z.lxor a y → x = y.
Proof.
  intros Heq. apply (f_equal (Z.lxor a)) in Heq.
  by rewrite <- !Z.lxor_assoc, Z.lxor_nilpotent, !Z.lxor_0_l in Heq.
Qed.

Lemma lxor_inj_r b x y : Z.lxor x b = Z.lxor y b → x = y.
Proof. rewrite !(Z.lxor_comm _ b). apply lxor_inj_l. Qed.

Lemma calculate_bcc_cons x d :
  utils.calculate_bcc (x :: d) = Z.lxor x (utils.calculate_bcc d).
Proof. apply (calculate_bcc_app [x] d). Qed.

(** Changing one data byte of a valid message makes it invalid. *)
Lemma utils_bcc_detects_data d1 x x' d2 c :
  utils.bcc_valid (d1 ++ x :: d2 ++ [c]) = true → x' ≠ x →
  utils.bcc_valid (d1 ++ x' :: d2 ++ [c]) = false.
Proof.
  intros Hv Hne. apply not_true_is_false. intros Hv'.
  replace (d1 ++ x :: d2 ++ [c]) with ((d1 ++ x :: d2) ++ [c]) in Hv
    by (by rewrite <- app_assoc).
  replace (d1 ++ x' :: d2 ++ [c]) with ((d1 ++ x' :: d2) ++ [c]) in Hv'
    by (by rewrite <- app_assoc).
  apply utils_bcc_valid_snoc in Hv, Hv'. rewrite Hv in Hv'.
  rewrite !calculate_bcc_app, !calculate_bcc_cons in Hv'.
  by apply lxor_inj_l, lxor_inj_r in Hv'.
Qed.

#[export] Instance xor_checksum : Checksum := {|
  bcc := utils.calculate_bcc;
  bcc_valid := utils.bcc_valid;
  add_bcc := utils.add_bcc;
  add_bcc_snoc := λ m, eq_refl;
  bcc_valid_snoc := utils_bcc_valid_snoc;
  bcc_valid_nil := utils_bcc_valid_nil;
|}.

(** ** Consequences of the interface *)

Section ChecksumFacts.
Context `{Checksum}.

Lemma bcc_valid_add_bcc m : bcc_valid (add_bcc m) = true.
Proof. rewrite add_bcc_snoc. by apply bcc_valid_snoc. Qed.

Lemma bcc_valid_inv m :
  bcc_valid m = true → ∃ d, m = add_bcc d.
Proof.
  intros Hv. destruct (decide (m = [])) as [-> | Hne].
  - by rewrite bcc_valid_nil in Hv.
  - destruct (exists_last Hne) as (d & c & ->). exists d.
    apply bcc_valid_snoc in Hv. by rewrite add_bcc_snoc, Hv.
Qed.

Lemma add_bcc_length m : length (add_bcc m) = S (length m).
Proof. rewrite add_bcc_snoc, length_app. simpl. lia. Qed.

Lemma add_bcc_slice m : slice_to_neg 1 (add_bcc m) = m.
Proof. rewrite add_bcc_snoc. apply slice_to_neg_snoc. Qed.

End ChecksumFacts.

#[export] Hint Rewrite @bcc_valid_add_bcc @add_bcc_slice : iec_rw.
#[export] Hint Resolve calculate_bcc_byte : iec.
