(* ===== verification/World.v ===== *)
(** * The world outside the transport objects

    The transports act on things that are not fields of [self]: the wall
    clock read by [time.time()], the line to the meter, the operating-system
    handles behind a pyserial port or a socket, and the log fed by [logger].
    [World] is that state.  The line is a script: the events that successive
    reads will meet, each with the time it takes to arrive.  A log call
    appends a record to the log; [level] and [message] give the level and the
    text that the call site formats.

    Modules [serial] and [socket] give the behaviour of [serial.Serial] and
    [socket.socket] as far as the transports call them.  That code is not in the
    repository's sources; it is modelled from the documented behaviour of the
    two libraries: a read with a timeout returns what has arrived when the
    timeout expires (pyserial: an empty bytes object; socket: the exception
    [socket.timeout]), a read of a connection that the peer has closed
    returns an empty bytes object at once, and a write raises when the line
    is down ([line_up] is false: the device has gone, the pipe is broken). *)

From Stdlib Require Import ZArith Lia.
From stdpp Require Import base tactics option list numbers strings.
From S2P Require Import Prelude Repr.

#[local] Open Scope Z_scope.

(** ** The line and the log *)

(** What a read of the line meets: bytes (possibly none), an input/output
    error, or a line that the peer has closed.  A closed line stays closed:
    every read of it returns no bytes at once, and the delay of the event is
    the time the program takes from one such read to the next. *)
Inductive RxData : Type :=
| RxBytes (bs : bytes)
| RxFail
| RxHangup.

(** An event of the script: [rx_data] is there [rx_delay] milliseconds after
    the event before it was consumed. *)
Record RxEvent : Type := mkRx { rx_delay : Z; rx_data : RxData }.

(** The records of the module's logger, one constructor per call site. *)
Inductive LogRecord : Type :=
| LogReceived (data : bytes) (cls : string)  (* debug: Received ... over transport *)
| LogSent (data : bytes) (cls : string)      (* debug: Sent ... over transport *)
| LogSwitching (baud : Z)                    (* info: Switching baudrate to *)
| LogConnecting (host : string) (port : Z).  (* debug: Connecting to *)

Record World : Type := mkWorld {
  now : Z;                 (* time.time(), in milliseconds *)
  line_up : bool;          (* the device is there, the peer accepts and takes
                              what is written *)
  rx : list RxEvent;       (* what will arrive *)
  tx : bytes;              (* everything written so far *)
  handles : nat;           (* operating-system handles open *)
  log : list LogRecord;
}.

#[export] Instance RxData_eq_dec : EqDecision RxData.
Proof. solve_decision. Defined.
#[export] Instance RxEvent_eq_dec : EqDecision RxEvent.
Proof. solve_decision. Defined.
#[export] Instance LogRecord_eq_dec : EqDecision LogRecord.
Proof. solve_decision. Defined.
#[export] Instance World_eq_dec : EqDecision World.
Proof. solve_decision. Defined.

(** Field updates. *)
Definition tick (d : Z) (w : World) : World :=
  mkWorld (now w + d) (line_up w) (rx w) (tx w) (handles w) (log w).
Definition with_rx (r : list RxEvent) (w : World) : World :=
  mkWorld (now w) (line_up w) r (tx w) (handles w) (log w).
Definition line_write (d : bytes) (w : World) : World :=
  mkWorld (now w) (line_up w) (rx w) (tx w ++ d) (handles w) (log w).
Definition open_handle (w : World) : World :=
  mkWorld (now w) (line_up w) (rx w) (tx w) (S (handles w)) (log w).
Definition close_handle (w : World) : World :=
  mkWorld (now w) (line_up w) (rx w) (tx w) (pred (handles w)) (log w).
Definition log_record (r : LogRecord) (w : World) : World :=
  mkWorld (now w) (line_up w) (rx w) (tx w) (handles w) (log w ++ [r]).

(** The level a record is logged at: [logger.info] for the change of the
    baud rate (line 292), [logger.debug] for the others. *)
Inductive LogLevel : Type := DEBUG | INFO.

Definition level (r : LogRecord) : LogLevel :=
  match r with
  | LogSwitching _ => INFO
  | _ => DEBUG
  end.

(** The text of a record: the f-strings of lines 84-86 and 172, of line
    182, of line 292 and of line 333.  The address is formatted without a
    conversion, and [str] of a pair is its [repr]. *)
Definition message (r : LogRecord) : string :=
  match r with
  | LogReceived data cls =>
    "Received " +:+ repr data +:+ " over transport: " +:+ cls
  | LogSent data cls => "Sent " +:+ repr data +:+ " over transport: " +:+ cls
  | LogSwitching baud => "Switching baudrate to: " +:+ builtins.str_int baud
  | LogConnecting host port => "Connecting to " +:+ repr (host, port)
  end.

(** [logger.debug(...)] and [logger.info(...)]. *)
Definition logger (r : LogRecord) : M World unit := modify (log_record r).

(** ** Reading the line *)

Inductive ReadOutcome : Type :=
| ReadData (bs : bytes)
| ReadTimeout
| ReadError.

(** Bytes of an event that a read did not take stay at the head of the
    script, available at once. *)
Definition push_back (bs : bytes) (rest : list RxEvent) : list RxEvent :=
  match bs with
  | [] => rest
  | _ => mkRx 0 (RxBytes bs) :: rest
  end.

(** A read that times out: the next event is that much closer. *)
Definition later (tmo : Z) (ev : RxEvent) (rest : list RxEvent) (w : World)
    : ReadOutcome * World :=
  (ReadTimeout,
   with_rx (mkRx (rx_delay ev - tmo) (rx_data ev) :: rest) (tick tmo w)).

(** A read of at most [n] bytes that waits at most [tmo] milliseconds.  With
    nothing due within [tmo] the read times out at [tmo] and the next event is
    that much closer.  A closed line never makes a read wait: the read
    returns no bytes, and the line stays closed. *)
Definition line_read (n : nat) (tmo : Z) (w : World) : ReadOutcome * World :=
  match rx w with
  | [] => (ReadTimeout, tick tmo w)
  | ev :: rest =>
    match rx_data ev with
    | RxHangup => (ReadData [], tick (rx_delay ev) w)
    | RxFail =>
      if decide (tmo < rx_delay ev) then later tmo ev rest w
      else (ReadError, with_rx rest (tick (rx_delay ev) w))
    | RxBytes bs =>
      if decide (tmo < rx_delay ev) then later tmo ev rest w
      else (ReadData (take n bs),
            with_rx (push_back (drop n bs) rest) (tick (rx_delay ev) w))
    end
  end.

(** A read with no timeout waits for the next event however late it is.  On
    an exhausted script such a read would never return; the transports give
    every socket a timeout, and the model reports an error there. *)
Definition line_read_blocking (n : nat) (w : World) : ReadOutcome * World :=
  match rx w with
  | [] => (ReadError, w)
  | ev :: _ => line_read n (rx_delay ev) w
  end.

(** ** pyserial *)

Module serial.

Inductive Parity : Type := PARITY_NONE | PARITY_EVEN | PARITY_ODD.

(** A [serial.Serial] object: the arguments it was created with. *)
Record Serial : Type := mkSerial {
  port : string;
  baudrate : Z;
  parity : Parity;
  stopbits : Z;
  bytesize : Z;
  writeTimeout : Z;
  timeout : Z;          (* milliseconds *)
  rtscts : bool;
  dsrdtr : bool;
  xonxoff : bool;
}.

Definition STOPBITS_ONE : Z := 1.
Definition SEVENBITS : Z := 7.

(** [serial.Serial(port, ...)]: opens the device, or raises. *)
Definition open (cfg : Serial) : M World Serial := λ w,
  if line_up w then (Ok cfg, open_handle w) else (Raise SerialException, w).

(** [port.read(size)]: what arrived within the port's timeout. *)
Definition read (p : Serial) (size : nat) : M World bytes := λ w,
  match line_read size (timeout p) w with
  | (ReadData bs, w') => (Ok bs, w')
  | (ReadTimeout, w') => (Ok [], w')
  | (ReadError, w') => (Raise SerialException, w')
  end.

(** [port.write(data)]: with [writeTimeout=0] the write does not wait, and
    raises when the line does not take the bytes. *)
Definition write (p : Serial) (data : bytes) : M World unit := λ w,
  if line_up w then (Ok tt, line_write data w) else (Raise SerialException, w).

Definition flush (p : Serial) : M World unit := mret tt.

Definition close (p : Serial) : M World unit := modify close_handle.

End serial.

(** ** Sockets *)

Module socket.

(** A socket object: its timeout ([None]: blocking) and whether it is
    connected. *)
Record socket : Type := mkSocket {
  timeout : option Z;   (* milliseconds *)
  connected : bool;
}.

(** [socket.socket(AF_INET, SOCK_STREAM)]. *)
Definition create : M World socket := λ w,
  (Ok (mkSocket None false), open_handle w).

(** [s.settimeout(t)], [t] in milliseconds. *)
Definition settimeout (t : Z) (s : socket) : socket :=
  mkSocket (Some t) (connected s).

(** [s.connect(address)]: the socket is connected afterwards, or the call
    raises (already connected, or nobody accepts). *)
Definition connect (s : socket) : M World socket := λ w,
  if connected s then (Raise OSError, w)
  else if line_up w then (Ok (mkSocket (timeout s) true), w)
  else (Raise OSError, w).

(** [s.sendall(data)]: raises on a socket that is not connected and when
    the peer does not take the bytes (a broken pipe, a reset). *)
Definition sendall (s : socket) (data : bytes) : M World unit := λ w,
  if connected s && line_up w then (Ok tt, line_write data w)
  else (Raise OSError, w).

(** [s.recv(bufsize)]: bytes, or [socket.timeout] when nothing arrived in
    time, or another socket error. *)
Definition recv (s : socket) (bufsize : nat) : M World bytes := λ w,
  if connected s then
    match
      match timeout s with
      | Some t => line_read bufsize t w
      | None => line_read_blocking bufsize w
      end
    with
    | (ReadData bs, w') => (Ok bs, w')
    | (ReadTimeout, w') => (Raise OSError, w')
    | (ReadError, w') => (Raise OSError, w')
    end
  else (Raise OSError, w).

Definition close (s : socket) : M World unit := modify close_handle.

End socket.

#[export] Instance Parity_eq_dec : EqDecision serial.Parity.
Proof. solve_decision. Defined.
#[export] Instance Serial_eq_dec : EqDecision serial.Serial.
Proof. solve_decision. Defined.
#[export] Instance socket_eq_dec : EqDecision socket.socket.
Proof. solve_decision. Defined.

(** ** Well-formed worlds *)

(** Delays are durations. *)
Definition wf_world (w : World) : Prop := Forall (λ ev, 0 ≤ rx_delay ev) (rx w).

(** The bytes still to come, in order. *)
Definition carried (ev : RxEvent) : bytes :=
  match rx_data ev with RxBytes bs => bs | _ => [] end.

Definition pending (r : list RxEvent) : bytes := concat (map carried r).

(** The bytes a read hands over. *)
Definition taken (o : ReadOutcome) : bytes :=
  match o with ReadData bs => bs | _ => [] end.

(** Every byte still to come is of the kind [P]. *)
Definition line_within (P : byte → Prop) (w : World) : Prop :=
  Forall P (pending (rx w)).

(** The time the whole script takes. *)
Definition script_time (r : list RxEvent) : Z :=
  foldr (λ ev acc, rx_delay ev + acc) 0 r.

(** The events [evs] deliver the bytes [bs] one per read, each within the
    read timeout [tmo]. *)
Definition delivers (tmo : Z) (evs : list RxEvent) (bs : bytes) : Prop :=
  Forall2 (λ ev b, rx_data ev = RxBytes [b] ∧ 0 ≤ rx_delay ev ≤ tmo) evs bs.

#[export] Instance delivers_dec tmo evs bs : Decision (delivers tmo evs bs).
Proof. unfold delivers. apply _. Defined.

(** The script that delivers [bs], every byte [d] milliseconds after the one
    before. *)
Definition bytes_every (d : Z) (bs : bytes) : list RxEvent :=
  map (λ b, mkRx d (RxBytes [b])) bs.

(** What is left of a script: its events and the bytes they carry.  Every
    read that does not time out makes it smaller. *)
Definition weight (r : list RxEvent) : nat := (length r + length (pending r))%nat.

(** Nothing is due within [d]: the script is over, or its head is later and
    the line is not closed. *)
Definition quiet (d : Z) (r : list RxEvent) : Prop :=
  match r with
  | [] => True
  | ev :: _ => d < rx_delay ev ∧ rx_data ev ≠ RxHangup
  end.

#[export] Instance quiet_dec d r : Decision (quiet d r).
Proof. destruct r; simpl; apply _. Defined.

(** The line is closed: every read returns no bytes after [s]
    milliseconds. *)
Definition hung_up (s : Z) (r : list RxEvent) : Prop :=
  ∃ rest, r = mkRx s RxHangup :: rest.

(** The least time a read that takes nothing from the script lasts: the read
    timeout, or the delay of a closed line. *)
Definition pace (tmo : Z) (r : list RxEvent) : Z :=
  foldr (λ ev q, if decide (rx_data ev = RxHangup) then rx_delay ev `min` q else q)
    tmo r.

(** The world after [d] milliseconds in which nothing was due. *)
Definition wait (d : Z) (w : World) : World :=
  with_rx
    match rx w with
    | [] => []
    | ev :: rest => mkRx (rx_delay ev - d) (rx_data ev) :: rest
    end
    (tick d w).

(** Prove two worlds equal field by field. *)
Ltac world_eq :=
  repeat match goal with w : World |- _ => destruct w end;
  unfold tick, with_rx, line_write, log_record, open_handle, close_handle;
  simpl;
  match goal with |- mkWorld _ _ _ _ _ _ = mkWorld _ _ _ _ _ _ => f_equal end;
  rewrite <- ?app_assoc; autorewrite with iec_rw; try done; try lia.

Section WorldFacts.
Implicit Types (w : World) (n : nat) (tmo d : Z).

Lemma push_back_wf bs rest :
  Forall (λ ev, 0 ≤ rx_delay ev) rest →
  Forall (λ ev, 0 ≤ rx_delay ev) (push_back bs rest).
Proof. destruct bs; simpl; [done |]. by constructor. Qed.

Lemma pending_push_back bs rest : pending (push_back bs rest) = bs ++ pending rest.
Proof. by destruct bs. Qed.

Lemma script_time_push_back bs rest :
  script_time (push_back bs rest) = script_time rest.
Proof. destruct bs; simpl; [done | lia]. Qed.

Lemma script_time_nonneg r :
  Forall (λ ev, 0 ≤ rx_delay ev) r → 0 ≤ script_time r.
Proof. induction 1; simpl; lia. Qed.

(** A read keeps the world well formed. *)
Lemma line_read_wf n tmo w o w' :
  wf_world w → line_read n tmo w = (o, w') → wf_world w'.
Proof.
  unfold wf_world, line_read. intros Hwf Hr.
  destruct (rx w) as [| ev rest] eqn:Hrx; simplify_eq/=; [by rewrite Hrx |].
  pose proof Hwf as [Hev Hrest]%Forall_cons. unfold later in Hr.
  destruct (rx_data ev); try case_decide; simplify_eq/=;
    first [ by rewrite Hrx | by apply push_back_wf | done
          | constructor; [simpl; lia | done] ].
Qed.

(** A read never moves the clock backwards. *)
Lemma line_read_clock n tmo w o w' :
  wf_world w → 0 ≤ tmo → line_read n tmo w = (o, w') → now w ≤ now w'.
Proof.
  unfold wf_world, line_read, later. intros Hwf Htmo Hr.
  destruct (rx w) as [| ev rest] eqn:Hrx; simplify_eq/=; [lia |].
  apply Forall_cons in Hwf as [Hev Hrest].
  destruct (rx_data ev); try case_decide; simplify_eq/=; lia.
Qed.

(** A read touches neither what was written nor the handles nor the log. *)
Lemma line_read_frame n tmo w o w' :
  line_read n tmo w = (o, w') →
  tx w' = tx w ∧ handles w' = handles w ∧ log w' = log w ∧ line_up w' = line_up w.
Proof.
  unfold line_read, later. intros Hr.
  destruct (rx w) as [| ev rest]; simplify_eq/=; [done |].
  destruct (rx_data ev); try case_decide; by simplify_eq/=.
Qed.

(** A read neither loses nor invents a byte: what was to come is what the
    read hands over, followed by what is still to come. *)
Lemma line_read_taken n tmo w o w' :
  line_read n tmo w = (o, w') → pending (rx w) = taken o ++ pending (rx w').
Proof.
  unfold line_read, later. intros Hr.
  destruct (rx w) as [| ev rest] eqn:Hrx; simplify_eq/=; [by rewrite Hrx |].
  unfold pending, carried. simpl.
  destruct (rx_data ev) as [bs | |] eqn:Hd; try case_decide; simplify_eq/=;
    rewrite ?Hrx; simpl; rewrite ?Hd; try done.
  fold carried. fold (pending rest) (pending (push_back (drop n bs) rest)).
  by rewrite pending_push_back, app_assoc, take_drop.
Qed.

(** A read hands over no more bytes than were asked for. *)
Lemma line_read_length n tmo w o w' :
  line_read n tmo w = (o, w') → (length (taken o) ≤ n)%nat.
Proof.
  unfold line_read, later. intros Hr.
  destruct (rx w) as [| ev rest]; simplify_eq/=; [lia |].
  destruct (rx_data ev) as [bs | |]; try case_decide; simplify_eq/=; try lia.
  rewrite length_take. lia.
Qed.

(** A read of a line that carries bytes of a kind hands over bytes of that
    kind and leaves such a line. *)
Lemma line_read_within (P : byte → Prop) n tmo w o w' :
  line_within P w → line_read n tmo w = (o, w') →
  Forall P (taken o) ∧ line_within P w'.
Proof.
  unfold line_within. intros Hw Hr%line_read_taken.
  rewrite Hr in Hw. by apply Forall_app in Hw.
Qed.

(** A timed-out read of a well-formed world with a positive timeout consumes
    time: the script gets no longer while the clock advances by the timeout. *)
Lemma line_read_timeout n tmo w w' :
  line_read n tmo w = (ReadTimeout, w') →
  now w' = now w + tmo ∧ pending (rx w') = pending (rx w).
Proof.
  unfold line_read, later. intros Hr.
  destruct (rx w) as [| ev rest] eqn:Hrx; simplify_eq/=; [by rewrite Hrx |].
  unfold pending, carried. simpl.
  destruct (rx_data ev); try case_decide; by simplify_eq/=.
Qed.

(** The head event in time: the read returns its first [n] bytes. *)
Lemma line_read_data n tmo w d bs rest :
  rx w = mkRx d (RxBytes bs) :: rest → d ≤ tmo →
  line_read n tmo w =
    (ReadData (take n bs), with_rx (push_back (drop n bs) rest) (tick d w)).
Proof. unfold line_read. intros -> Hd. simpl. by case_decide; [lia |]. Qed.

Lemma script_time_app r1 r2 :
  script_time (r1 ++ r2) = script_time r1 + script_time r2.
Proof. induction r1; simpl; lia. Qed.

Lemma delivers_nonneg tmo evs bs : delivers tmo evs bs → 0 ≤ script_time evs.
Proof. induction 1; simpl; lia. Qed.

Lemma delivers_length tmo evs bs : delivers tmo evs bs → length evs = length bs.
Proof. apply Forall2_length. Qed.

Lemma delivers_app_inv tmo evs bs1 bs2 :
  delivers tmo evs (bs1 ++ bs2) →
  ∃ evs1 evs2, evs = evs1 ++ evs2 ∧ delivers tmo evs1 bs1 ∧ delivers tmo evs2 bs2.
Proof. intros (e1 & e2 & ? & ? & ->)%Forall2_app_inv_r. eauto. Qed.

Lemma delivers_cons_inv tmo evs b bs :
  delivers tmo evs (b :: bs) →
  ∃ d evs', evs = mkRx d (RxBytes [b]) :: evs' ∧ 0 ≤ d ≤ tmo ∧ delivers tmo evs' bs.
Proof.
  intros ([d x] & evs' & [Hx Hd] & Hrest & ->)%Forall2_cons_inv_r.
  simpl in *. subst. eauto 10.
Qed.

Lemma delivers_nil_inv tmo evs : delivers tmo evs [] → evs = [].
Proof. apply Forall2_nil_inv_r. Qed.

Lemma delivers_wf tmo evs bs :
  delivers tmo evs bs → Forall (λ ev, 0 ≤ rx_delay ev) evs.
Proof. induction 1 as [| ev b evs bs [_ Hd] _ IH]; constructor; [lia | done]. Qed.

Lemma bytes_every_delivers tmo d bs :
  0 ≤ d ≤ tmo → delivers tmo (bytes_every d bs) bs.
Proof. intros Hd. induction bs; constructor; done. Qed.

Lemma bytes_every_time d bs :
  script_time (bytes_every d bs) = d * Z.of_nat (length bs).
Proof. induction bs; simpl; lia. Qed.

Lemma weight_cons ev rest :
  weight (ev :: rest) = (1 + length (carried ev) + weight rest)%nat.
Proof. unfold weight, pending. simpl. rewrite length_app. lia. Qed.

Lemma weight_push_back bs rest :
  (weight (push_back bs rest) ≤ 1 + length bs + weight rest)%nat.
Proof. destruct bs as [| b bs]; simpl; [lia |]. rewrite weight_cons. simpl. lia. Qed.

Lemma pace_le tmo r : pace tmo r ≤ tmo.
Proof. induction r as [| ev r IH]; simpl; [lia |]. case_decide; lia. Qed.

Lemma pace_push_back tmo bs rest : pace tmo (push_back bs rest) = pace tmo rest.
Proof. by destruct bs. Qed.

(** A script on which no line is closed has the pace of the read timeout. *)
Lemma pace_open tmo r :
  Forall (λ ev, rx_data ev ≠ RxHangup) r → pace tmo r = tmo.
Proof. induction 1 as [| ev r Hev _ IH]; simpl; [done |]. by rewrite decide_False. Qed.

(** A read does not change the pace of the script. *)
Lemma line_read_pace n tmo w o w' :
  line_read n tmo w = (o, w') → pace tmo (rx w') = pace tmo (rx w).
Proof.
  unfold line_read, later. intros Hr.
  destruct (rx w) as [| ev rest] eqn:Hrx; simplify_eq/=; [by rewrite Hrx |].
  destruct (rx_data ev) eqn:Hd; try case_decide; simplify_eq/=;
    rewrite ?Hrx, ?pace_push_back; simpl; by rewrite ?Hd.
Qed.

(** A read either takes nothing from the script (it times out, or the line
    is closed and it returns no bytes), and then the script weighs what it
    did and the clock has moved by the pace of the script at least; or it
    makes the script no heavier and, when it asked for a byte, lighter. *)
Lemma line_read_progress n tmo w o w' :
  line_read n tmo w = (o, w') →
  ((o = ReadTimeout ∨ o = ReadData []) ∧ weight (rx w') = weight (rx w) ∧
   now w + pace tmo (rx w) ≤ now w') ∨
  (o ≠ ReadTimeout ∧ (weight (rx w') ≤ weight (rx w))%nat ∧
   ((0 < n)%nat → (weight (rx w') < weight (rx w))%nat) ∧
   (wf_world w → now w ≤ now w')).
Proof.
  unfold line_read, later, wf_world. intros Hr.
  destruct (rx w) as [| ev rest] eqn:Hrx; simplify_eq/=;
    [left; rewrite Hrx; simpl; split_and!; auto; lia |].
  pose proof (pace_le tmo rest).
  rewrite weight_cons. unfold carried.
  destruct (rx_data ev) as [bs | |] eqn:Hd; try case_decide; simplify_eq/=;
    try (left; rewrite ?Hrx, ?weight_cons; unfold carried; simpl; rewrite ?Hd;
         split_and!; auto; lia).
  - right. pose proof (weight_push_back (drop n bs) rest) as Hle.
    rewrite length_drop in Hle.
    split_and!; [done | | | intros [? _]%Forall_cons; lia].
    + destruct bs as [| b bs]; [rewrite drop_nil; simpl; lia |].
      destruct n as [| n]; simpl in *; lia.
    + intros Hn. destruct bs as [| b bs]; [rewrite drop_nil; simpl; lia |].
      destruct n as [| n]; [lia |]. simpl in *. lia.
  - right. split_and!; [done | lia | lia | intros [? _]%Forall_cons; lia].
Qed.

(** A read of a closed line returns no bytes after the delay of the closed
    line, and the line stays closed. *)
Lemma line_read_hangup n tmo s w :
  hung_up s (rx w) → line_read n tmo w = (ReadData [], tick s w).
Proof. intros [rest Hrx]. unfold line_read. by rewrite Hrx. Qed.

(** A blocking read is a read with the delay of the next event for its
    timeout. *)
Lemma line_read_blocking_cases n w :
  line_read_blocking n w = (ReadError, w) ∨
  ∃ ev rest, rx w = ev :: rest ∧
    line_read_blocking n w = line_read n (rx_delay ev) w.
Proof. unfold line_read_blocking. destruct (rx w); eauto. Qed.

(** A read of a quiet line times out, and the next event is closer. *)
Lemma line_read_quiet n tmo w :
  quiet tmo (rx w) → line_read n tmo w = (ReadTimeout, wait tmo w).
Proof.
  unfold line_read, later, wait, quiet. destruct w as [? ? [| ev r] ? ? ?]; simpl;
    [done |]. intros [Hd Hup]. destruct (rx_data ev); by rewrite ?decide_True.
Qed.

Lemma wait_wait d1 d2 w : wait d2 (wait d1 w) = wait (d1 + d2) w.
Proof.
  unfold wait. destruct w as [? ? [| ev r] ? ? ?]; simpl; world_eq.
  do 2 f_equal. lia.
Qed.

Lemma quiet_wait d1 d2 w : quiet (d1 + d2) (rx w) → quiet d2 (rx (wait d1 w)).
Proof.
  unfold wait, quiet. destruct (rx w); simpl; [done |]. intros [? ?]. split; [lia | done].
Qed.

Lemma quiet_mono d d' r : d' ≤ d → quiet d r → quiet d' r.
Proof. unfold quiet. destruct r; [done |]. intros ? [? ?]. split; [lia | done]. Qed.

End WorldFacts.

Lemma tick_tick d1 d2 w : tick d2 (tick d1 w) = tick (d1 + d2) w.
Proof. unfold tick. simpl. f_equal. lia. Qed.

Lemma tick_0 w : tick 0 w = w.
Proof. destruct w. unfold tick. simpl. f_equal. lia. Qed.

Lemma with_rx_with_rx r1 r2 w : with_rx r2 (with_rx r1 w) = with_rx r2 w.
Proof. done. Qed.

Lemma with_rx_id w : with_rx (rx w) w = w.
Proof. by destruct w. Qed.

#[export] Hint Rewrite tick_tick tick_0 with_rx_with_rx with_rx_id : iec_rw.
#[export] Hint Resolve line_read_wf push_back_wf script_time_nonneg : iec.

(** ** Concrete runs *)

(** A world at time zero in which the events [r] are about to happen. *)
Definition world_of (r : list RxEvent) : World := mkWorld 0 true r [] 1 [].

(** Discharge a side condition of a theorem applied to a concrete run. *)
Ltac concrete :=
  first [ reflexivity
        | by apply (bool_decide_unpack _)
        | by apply bytes_every_delivers
        | by vm_compute
        | vm_compute; lia ].
