(* ===== verification/Transport.v ===== *)
(** * The transport capability: class [BaseTransport]

    [Transport] is the interface the methods of [BaseTransport] are written
    against: the attributes and abstract methods that a subclass provides.
    Methods that assign to [self] run on the pair of the object and the world;
    [_send] and [_recv], which only read [self], take it as an argument.

    Module [BaseTransport] holds the base class itself: its constructor, the
    concrete methods [send] and [recv] that every subclass inherits, and the
    abstract methods as the base class defines them (each raises).

    [TransportLaws] states what [_recv] and [_send] do in terms of the line, for
    a transport that has a link (an open port, a connected socket) and for one
    that has none.  The framing engine is verified against these laws; the
    files [Serial] and [Tcp] prove them for the two subclasses. *)

From Stdlib Require Import ZArith Lia.
From stdpp Require Import base tactics option list numbers strings.
From S2P Require Import Prelude World.

#[local] Open Scope Z_scope.

(** ** The interface *)

Class Transport (T : Type) : Type := {
  class_name : T → string;                  (* self.__class__.__name__ *)
  timeout : T → Z;                          (* self.timeout, in seconds *)
  TRANSPORT_REQUIRES_ADDRESS : T → bool;
  connect : M (T * World) unit;
  disconnect : M (T * World) unit;
  _send : bytes → T → M World unit;
  _recv : nat → T → M World bytes;
  switch_baudrate : Z → M (T * World) unit;
}.

(** ** The base class *)

Module BaseTransport.

Section Inherited.
Context `{Transport T}.

(** [send]: the transport's [_send], then a debug record (lines 175-182). *)
Definition send (data : bytes) (self : T) : M World unit :=
  _send data self ;;;
  logger (LogSent data (class_name self)).

(** [recv] (lines 192-198). *)
Definition recv (chars : nat) (self : T) : M World bytes :=
  _recv chars self.

End Inherited.

(** An instance of the base class has one field. *)
Record t : Type := mk { timeout : Z }.

Definition default_timeout : Z := 30.

(** [__init__] (lines 23-24). *)
Definition __init__ (timeout : Z) : t := mk timeout.

(** [raise NotImplemented(...)]: [NotImplemented] is a constant, not an
    exception class, so evaluating the call raises [TypeError] before any
    [raise] happens. *)
Definition not_implemented {S A} : M S A :=
  raise (TypeError "'NotImplementedType' object is not callable").

(** The abstract methods (lines 26-30, 184-190, 200-215). *)
Definition connect : M (t * World) unit := not_implemented.
Definition disconnect : M (t * World) unit := not_implemented.
Definition _send (data : bytes) (self : t) : M World unit := not_implemented.
Definition _recv (chars : nat) (self : t) : M World bytes := not_implemented.
Definition switch_baudrate (baud : Z) : M (t * World) unit := not_implemented.

End BaseTransport.

#[export] Instance BaseTransport_Transport : Transport BaseTransport.t := {|
  class_name := λ _, "BaseTransport"%string;
  timeout := BaseTransport.timeout;
  TRANSPORT_REQUIRES_ADDRESS := λ _, true;
  connect := BaseTransport.connect;
  disconnect := BaseTransport.disconnect;
  _send := BaseTransport._send;
  _recv := BaseTransport._recv;
  switch_baudrate := BaseTransport.switch_baudrate;
|}.

(** ** The laws of a transport *)

(** What a read of the line becomes in the hands of a transport: data are
    returned; a timeout and an error become [on_timeout] and [on_error]. *)
Definition deliver (on_timeout on_error : result bytes) (o : ReadOutcome)
    : result bytes :=
  match o with
  | ReadData bs => Ok bs
  | ReadTimeout => on_timeout
  | ReadError => on_error
  end.

(** The link of a transport to the line: none; one whose reads wait at most
    [tmo] milliseconds; one whose reads wait for as long as it takes. *)
Inductive Link : Type :=
| Closed
| Timed (tmo : Z)
| Blocking.

#[export] Instance Link_eq_dec : EqDecision Link.
Proof. solve_decision. Defined.

Class TransportLaws (T : Type) `{Transport T} : Type := {
  link : T → Link;
  on_timeout : result bytes;
  on_error : result bytes;
  (** The exception of a write that the line does not take. *)
  on_down : exn;
  (** With a link, [_recv] is one read of the line. *)
  recv_link : ∀ self tmo n w,
    link self = Timed tmo →
    _recv n self w =
      (deliver on_timeout on_error (line_read n tmo w).1, (line_read n tmo w).2);
  recv_blocking : ∀ self n w,
    link self = Blocking →
    _recv n self w =
      (deliver on_timeout on_error (line_read_blocking n w).1,
       (line_read_blocking n w).2);
  (** With a link, [_send] writes to the line when the line is up, and
      raises when it is down. *)
  send_link : ∀ self data w,
    link self ≠ Closed →
    _send data self w =
      if line_up w then (Ok tt, line_write data w) else (Raise on_down, w);
  (** Without a link both raise, whatever the world, and nothing changes. *)
  recv_nolink : ∀ self n,
    link self = Closed → ∃ e, ∀ w, _recv n self w = (Raise e, w);
  send_nolink : ∀ self data,
    link self = Closed → ∃ e, ∀ w, _send data self w = (Raise e, w);
}.
Arguments TransportLaws T {_}.

(** ** Consequences of the laws *)

Section LawFacts.
Context `{TransportLaws T}.
Implicit Types (self : T) (w : World) (n : nat).

(** The head event in time: [recv] returns its first bytes. *)
Lemma recv_data self tmo n w d bs rest :
  link self = Timed tmo → rx w = mkRx d (RxBytes bs) :: rest → d ≤ tmo →
  BaseTransport.recv n self w =
    (Ok (take n bs), with_rx (push_back (drop n bs) rest) (tick d w)).
Proof.
  intros Hl Hrx Hd. unfold BaseTransport.recv.
  rewrite (recv_link _ _ _ _ Hl), (line_read_data _ _ _ d bs rest); done.
Qed.

(** One byte due in time, one byte asked for. *)
Lemma recv_byte self tmo w d b rest :
  link self = Timed tmo → rx w = mkRx d (RxBytes [b]) :: rest → d ≤ tmo →
  BaseTransport.recv 1 self w = (Ok [b], with_rx rest (tick d w)).
Proof. intros Hl Hrx Hd. by rewrite (recv_data _ _ _ _ _ _ _ Hl Hrx Hd). Qed.

(** Nothing due within the read timeout: [recv] returns what the transport
    makes of a timeout, after the whole of it. *)
Lemma recv_quiet self tmo n w :
  link self = Timed tmo → quiet tmo (rx w) →
  BaseTransport.recv n self w = (on_timeout, wait tmo w).
Proof.
  intros Hl Hq. unfold BaseTransport.recv.
  by rewrite (recv_link _ _ _ _ Hl), line_read_quiet.
Qed.

(** The line is closed: [recv] returns no bytes, after the time the program
    takes for a receive that does not wait. *)
Lemma recv_hangup self tmo n w s :
  link self = Timed tmo → hung_up s (rx w) →
  BaseTransport.recv n self w = (Ok [], tick s w).
Proof.
  intros Hl Hup. unfold BaseTransport.recv.
  by rewrite (recv_link _ _ _ _ Hl), (line_read_hangup _ _ s).
Qed.

(** The world after [recv]: as it was, or after one read of the line. *)
Lemma recv_world self n w r w' :
  BaseTransport.recv n self w = (r, w') →
  w' = w ∨
  ∃ tmo, w' = (line_read n tmo w).2 ∧
    (link self = Timed tmo ∨ ∃ ev rest, rx w = ev :: rest ∧ tmo = rx_delay ev).
Proof.
  unfold BaseTransport.recv. intros Hr.
  destruct (link self) as [| tmo |] eqn:Hl.
  - destruct (recv_nolink self n Hl) as [e He]. rewrite He in Hr.
    left. by simplify_eq.
  - rewrite (recv_link _ _ _ _ Hl) in Hr. simplify_eq. eauto.
  - rewrite (recv_blocking _ _ _ Hl) in Hr. simplify_eq.
    destruct (line_read_blocking_cases n w) as [-> | (ev & rest & Hrx & ->)];
      [by left | right; eauto 10].
Qed.

(** [recv] leaves alone what was written, the handles and the log. *)
Lemma recv_frame self n w r w' :
  BaseTransport.recv n self w = (r, w') →
  tx w' = tx w ∧ handles w' = handles w ∧ log w' = log w ∧ line_up w' = line_up w.
Proof.
  intros [-> | (tmo & -> & _)]%recv_world; [done |].
  eapply line_read_frame, surjective_pairing.
Qed.

(** [recv] keeps the world well formed and the clock monotone. *)
Lemma recv_wf self n w r w' :
  wf_world w → BaseTransport.recv n self w = (r, w') → wf_world w'.
Proof.
  intros Hwf [-> | (tmo & -> & _)]%recv_world; [done |].
  eapply line_read_wf; [done | apply surjective_pairing].
Qed.

Lemma recv_clock self n w r w' :
  wf_world w → (∀ tmo, link self = Timed tmo → 0 ≤ tmo) →
  BaseTransport.recv n self w = (r, w') → now w ≤ now w'.
Proof.
  intros Hwf Ht [-> | (tmo & -> & Htmo)]%recv_world; [lia |].
  eapply line_read_clock; [done | | apply surjective_pairing].
  destruct Htmo as [Hl | (ev & rest & Hrx & ->)]; [by apply Ht |].
  unfold wf_world in Hwf. rewrite Hrx in Hwf. by apply Forall_cons in Hwf as [? _].
Qed.

(** [recv] takes the bytes to come from the front. *)
Lemma recv_taken self n w r w' :
  BaseTransport.recv n self w = (r, w') →
  pending (rx w') `suffix_of` pending (rx w).
Proof.
  intros [-> | (tmo & -> & _)]%recv_world; [done |].
  exists (taken (line_read n tmo w).1).
  eapply line_read_taken, surjective_pairing.
Qed.

(** Bytes that [recv] returns are those of one read of the line, when the
    transport makes no bytes of its own of a timeout or of an error. *)
Lemma recv_ok_read self n w b w' :
  (∀ x xs, on_timeout ≠ Ok (x :: xs)) → (∀ x xs, on_error ≠ Ok (x :: xs)) →
  BaseTransport.recv n self w = (Ok b, w') →
  (b = [] ∧ w' = w) ∨ ∃ tmo o, line_read n tmo w = (o, w') ∧ b = taken o.
Proof.
  intros Hto Herr. unfold BaseTransport.recv.
  assert (∀ tmo, (deliver on_timeout on_error (line_read n tmo w).1,
                  (line_read n tmo w).2) = (Ok b, w') →
            ∃ tmo o, line_read n tmo w = (o, w') ∧ b = taken o) as Hread.
  { intros tmo. destruct (line_read n tmo w) as [o w1] eqn:Hr.
    intros [= Ho <-]. exists tmo, o. split; [done |].
    destruct o as [bs | |]; simpl in *;
      [by simplify_eq | destruct b; [done | by destruct (Hto _ _ Ho)]
      | destruct b; [done | by destruct (Herr _ _ Ho)]]. }
  destruct (link self) as [| tmo |] eqn:Hl.
  - by destruct (recv_nolink self n Hl) as [e ->].
  - rewrite (recv_link _ _ _ _ Hl). right. by eapply Hread.
  - rewrite (recv_blocking _ _ _ Hl).
    destruct (line_read_blocking_cases n w) as [-> | (ev & rest & _ & ->)];
      [| right; by eapply Hread].
    simpl. intros [= Ho <-]. left. destruct b; [done | by edestruct Herr].
Qed.

(** A [recv] that raises has taken no byte from the line. *)
Lemma recv_raise_taken self n w e w' :
  BaseTransport.recv n self w = (Raise e, w') →
  pending (rx w') = pending (rx w).
Proof.
  unfold BaseTransport.recv.
  assert (∀ tmo, (deliver on_timeout on_error (line_read n tmo w).1,
                  (line_read n tmo w).2) = (Raise e, w') →
            pending (rx w') = pending (rx w)) as Hread.
  { intros tmo. destruct (line_read n tmo w) as [o w1] eqn:Hr.
    apply line_read_taken in Hr. intros [= Ho <-]. rewrite Hr.
    by destruct o. }
  destruct (link self) as [| tmo |] eqn:Hl.
  - destruct (recv_nolink self n Hl) as [e' ->]. by intros [= _ <-].
  - rewrite (recv_link _ _ _ _ Hl). apply Hread.
  - rewrite (recv_blocking _ _ _ Hl).
    destruct (line_read_blocking_cases n w) as [-> | (ev & rest & _ & ->)];
      [by intros [= _ <-] | apply Hread].
Qed.

(** Such bytes were the next on the line. *)
Lemma recv_ok_taken self n w b w' :
  (∀ x xs, on_timeout ≠ Ok (x :: xs)) → (∀ x xs, on_error ≠ Ok (x :: xs)) →
  BaseTransport.recv n self w = (Ok b, w') →
  pending (rx w) = b ++ pending (rx w').
Proof.
  intros Hto Herr Hr.
  destruct (recv_ok_read _ _ _ _ _ Hto Herr Hr) as [[-> ->] | (tmo & o & Hl & ->)];
    [done | by eapply line_read_taken].
Qed.

(** And they are no more than were asked for. *)
Lemma recv_ok_length self n w b w' :
  (∀ x xs, on_timeout ≠ Ok (x :: xs)) → (∀ x xs, on_error ≠ Ok (x :: xs)) →
  BaseTransport.recv n self w = (Ok b, w') → (length b ≤ n)%nat.
Proof.
  intros Hto Herr Hr.
  destruct (recv_ok_read _ _ _ _ _ Hto Herr Hr) as [[-> ->] | (tmo & o & Hl & ->)];
    [simpl; lia | by eapply line_read_length].
Qed.

(** [recv] makes the script no heavier. *)
Lemma recv_weight self n w r w' :
  BaseTransport.recv n self w = (r, w') → (weight (rx w') ≤ weight (rx w))%nat.
Proof.
  intros [-> | (tmo & -> & _)]%recv_world; [done |].
  destruct (line_read n tmo w) as [o w1] eqn:Hr. simpl.
  apply line_read_progress in Hr as [(_ & Hw & _) | (_ & Hle & _)]; lia.
Qed.

(** A receive of one byte over a timed link: it takes nothing from the
    script (a timeout, or no bytes from a closed line) and lasts the pace of
    the script at least; or the script gets lighter. *)
Lemma recv_progress self tmo w r w' :
  link self = Timed tmo →
  BaseTransport.recv 1 self w = (r, w') →
  ((r = on_timeout ∨ r = Ok []) ∧ weight (rx w') = weight (rx w) ∧
   now w + pace tmo (rx w) ≤ now w') ∨
  ((weight (rx w') < weight (rx w))%nat ∧ (wf_world w → now w ≤ now w')).
Proof.
  intros Hl. unfold BaseTransport.recv. rewrite (recv_link _ _ _ _ Hl).
  destruct (line_read 1 tmo w) as [o w1] eqn:Hr. intros [= <- <-].
  apply line_read_progress in Hr as [([-> | ->] & ? & ?) | (_ & _ & Hlt & ?)];
    [left; auto .. | right; split; [apply Hlt; lia | done]].
Qed.

(** A receive over a timed link does not change the pace of the script. *)
Lemma recv_pace self tmo n w r w' :
  link self = Timed tmo →
  BaseTransport.recv n self w = (r, w') → pace tmo (rx w') = pace tmo (rx w).
Proof.
  intros Hl. unfold BaseTransport.recv. rewrite (recv_link _ _ _ _ Hl).
  intros [= _ <-]. eapply line_read_pace, surjective_pairing.
Qed.

(** [recv] on a line that carries bytes of a kind, over a transport that
    makes bytes of that kind of a timeout and of an error, returns bytes of
    that kind and leaves such a line. *)
Lemma recv_within (P : byte → Prop) self n w r w' :
  returns (Forall P) on_timeout → returns (Forall P) on_error →
  line_within P w →
  BaseTransport.recv n self w = (r, w') →
  returns (Forall P) r ∧ line_within P w'.
Proof.
  intros Hto Herr Hw. unfold BaseTransport.recv.
  assert (∀ tmo, (deliver on_timeout on_error (line_read n tmo w).1,
                  (line_read n tmo w).2) = (r, w') →
            returns (Forall P) r ∧ line_within P w') as Hread.
  { intros tmo. destruct (line_read n tmo w) as [o w1] eqn:Hr.
    apply (line_read_within P) in Hr as [Ho Hw1]; [| done].
    intros [= <- <-]. by destruct o. }
  destruct (link self) as [| tmo |] eqn:Hl.
  - destruct (recv_nolink self n Hl) as [e ->]. by intros [= <- <-].
  - rewrite (recv_link _ _ _ _ Hl). apply Hread.
  - rewrite (recv_blocking _ _ _ Hl).
    destruct (line_read_blocking_cases n w) as [-> | (ev & rest & _ & ->)];
      [by intros [= <- <-] | apply Hread].
Qed.

(** A receive that returns was made over a link. *)
Lemma recv_ok_link self n w b w' :
  BaseTransport.recv n self w = (Ok b, w') → link self ≠ Closed.
Proof.
  intros Hr Hl. destruct (recv_nolink self n Hl) as [e He].
  unfold BaseTransport.recv in Hr. by rewrite He in Hr.
Qed.

(** [send] with a link to a line that is up writes the data and logs it. *)
Lemma send_ok self data w :
  link self ≠ Closed → line_up w = true →
  BaseTransport.send data self w =
    (Ok tt, log_record (LogSent data (class_name self)) (line_write data w)).
Proof.
  intros Hl Hup. unfold BaseTransport.send.
  by rewrite (bind_ok _ _ _ tt (line_write data w))
    by (by rewrite send_link, Hup).
Qed.

(** [send] with a link to a line that is down raises what the transport
    makes of it, writes nothing and logs nothing. *)
Lemma send_down self data w :
  link self ≠ Closed → line_up w = false →
  BaseTransport.send data self w = (Raise on_down, w).
Proof.
  intros Hl Hup. unfold BaseTransport.send.
  by rewrite (bind_raise _ _ _ on_down w) by (by rewrite send_link, Hup).
Qed.

(** [send], whatever the link and the line: it raises and changes nothing,
    or it has written the data and logged it. *)
Lemma send_cases self data w :
  (∃ e, BaseTransport.send data self w = (Raise e, w)) ∨
  BaseTransport.send data self w =
    (Ok tt, log_record (LogSent data (class_name self)) (line_write data w)).
Proof.
  destruct (decide (link self = Closed)) as [Hl | Hl].
  - destruct (send_nolink self data Hl) as [e He]. left. exists e.
    unfold BaseTransport.send. by rewrite (bind_raise _ _ _ _ _ (He w)).
  - destruct (line_up w) eqn:Hup; [right; by apply send_ok |].
    left. exists on_down. by apply send_down.
Qed.

(** [send] without a link raises, writes nothing and logs nothing. *)
Lemma send_closed self data :
  link self = Closed → ∃ e, ∀ w, BaseTransport.send data self w = (Raise e, w).
Proof.
  intros Hl. destruct (send_nolink self data Hl) as [e He]. exists e. intros w.
  unfold BaseTransport.send. by rewrite (bind_raise _ _ _ _ _ (He w)).
Qed.

(** [send] opens and closes no handle. *)
Lemma send_handles self data w :
  handles (BaseTransport.send data self w).2 = handles w.
Proof. by destruct (send_cases self data w) as [[e ->] | ->]. Qed.

End LawFacts.
