(* ===== verification/Scan.v ===== *)
(** * The loop that [read] and [simple_read] share

    The inner loop of [read] (lines 55-78 of transports.py) and the loop of
    [simple_read] (lines 150-170) are the same loop around two decisions:
    receive one byte, compare the time since [start_time] with
    [self.timeout], and hand the byte to the decision, which goes on with new
    locals or leaves the loop with a result.  [scan] is that loop for an
    arbitrary decision [on_byte].  [Framing] and [SimpleRead] translate the two
    loops as the code has them and show that they are instances of [scan];
    what is proved here about [scan] (fuel, bytes that arrive in time, a byte
    that is late, a quiet line, a closed line) holds for both. *)

From Stdlib Require Import ZArith Lia.
From stdpp Require Import base tactics option list numbers strings.
From S2P Require Import Prelude World Transport.

#[local] Open Scope Z_scope.

Section Scan.
Context `{Transport T} {L R : Type}.
Variable on_byte : L → bytes → L + R.
Implicit Types (self : T) (l : L) (w : World).

(** The message of the [TimeoutError] (lines 60 and 154). *)
Definition timed_out (self : T) : exn :=
  TimeoutError ("Read in " +:+ class_name self +:+ " timed out").

(** The loop: [l] are the locals the decision may change. *)
Fixpoint scan (fuel : nat) self (start_time : Z) l w : run World R :=
  match fuel with
  | O => None
  | S fuel =>
    match BaseTransport.recv 1 self w with
    | (Raise e, w) => Some (Raise e, w)
    | (Ok b, w) =>
      let duration := now w - start_time in
      if decide (seconds (timeout self) < duration) then
        Some (Raise (timed_out self), w)
      else
        match on_byte l b with
        | inl l => scan fuel self start_time l w
        | inr r => Some (Ok r, w)
        end
    end
  end.

(** The locals after the bytes [bs], received one at a time; [None] when one
    of them makes the decision leave the loop. *)
Fixpoint feed l (bs : bytes) : option L :=
  match bs with
  | [] => Some l
  | b :: bs =>
    match on_byte l [b] with
    | inl l => feed l bs
    | inr _ => None
    end
  end.

Lemma feed_app l bs1 bs2 :
  feed l (bs1 ++ bs2) = feed l bs1 ≫= λ l', feed l' bs2.
Proof.
  revert l. induction bs1 as [| b bs1 IH]; intros l; simpl; [done |].
  by destruct (on_byte l [b]).
Qed.

(** The locals after the receive results [bss], bytes objects of any
    length; [None] when one of them makes the decision leave the loop. *)
Fixpoint feeds l (bss : list bytes) : option L :=
  match bss with
  | [] => Some l
  | b :: bss =>
    match on_byte l b with
    | inl l => feeds l bss
    | inr _ => None
    end
  end.

Lemma feed_feeds l bs : feed l bs = feeds l (map (λ b, [b]) bs).
Proof.
  revert l. induction bs as [| b bs IH]; intros l; simpl; [done |].
  by destruct (on_byte l [b]).
Qed.

(** More fuel does not change a result. *)
Lemma scan_mono fuel fuel' self st l w r :
  (fuel ≤ fuel')%nat →
  scan fuel self st l w = Some r → scan fuel' self st l w = Some r.
Proof.
  revert fuel' l w.
  induction fuel as [| fuel IH]; intros [| fuel'] l w Hle; simpl;
    [done | done | lia |].
  destruct (BaseTransport.recv 1 self w) as [[b | e] w1]; [| done].
  repeat case_match; try done; apply IH; lia.
Qed.

(** Invariants of the loop.  When every receive keeps [I] of the world and
    returns bytes that satisfy [B], and every decision on such bytes to go
    on keeps [P] of the locals, then the loop keeps [I], and what it leaves
    with satisfies [Q], which every decision to leave ensures. *)
Lemma scan_keeps (I : World → Prop) (B : bytes → Prop) (P : L → Prop)
    (Q : R → Prop) self :
  (∀ w b w', I w → BaseTransport.recv 1 self w = (b, w') →
     returns B b ∧ I w') →
  (∀ l b l', P l → B b → on_byte l b = inl l' → P l') →
  (∀ l b r, P l → B b → on_byte l b = inr r → Q r) →
  ∀ fuel st l w r w',
  P l → I w → scan fuel self st l w = Some (r, w') → returns Q r ∧ I w'.
Proof.
  intros Hrecv Hgo Hleave.
  induction fuel as [| fuel IH]; intros st l w r w' Hl Hw; simpl; [done |].
  destruct (BaseTransport.recv 1 self w) as [[b | e] w1] eqn:Hr;
    apply Hrecv in Hr as [Hb Hw1]; try done; [| by intros [= <- <-]].
  case_decide; [by intros [= <- <-] |].
  destruct (on_byte l b) as [l1 | r1] eqn:Hd; [by eauto |].
  intros [= <- <-]. split; [| done]. by eapply Hleave.
Qed.

(** An invariant of the locals that every decision to go on keeps holds
    when the loop is left, whatever was received. *)
Lemma scan_ensures (P : L → Prop) (Q : R → Prop) :
  (∀ l b l', P l → on_byte l b = inl l' → P l') →
  (∀ l b r, P l → on_byte l b = inr r → Q r) →
  ∀ fuel self st l w r w',
  P l → scan fuel self st l w = Some (Ok r, w') → Q r.
Proof.
  intros Hgo Hleave fuel self st l w r w' Hl Hs.
  by apply (scan_keeps (λ _, True) (λ _, True) P Q self) in Hs as [Hq _];
    [| intros ? [] | eauto ..].
Qed.

End Scan.

Arguments timed_out {T _} self.

(** ** Every run is explained by its receive results *)

Section Explained.
Context `{TransportLaws T} {L R : Type}.
Variables (on_byte : L → bytes → L + R) (self : T).
Hypothesis Hidle : ∀ x xs, on_timeout ≠ Ok (x :: xs).
Hypothesis Hfail : ∀ x xs, on_error ≠ Ok (x :: xs).

(** When the loop is left with a result, the decision has gone on over the
    results [bss] of the receives before the last and has left on the last,
    [b]; each is one byte or none, and together they are the bytes the loop
    took from the line. *)
Lemma scan_explained fuel st : ∀ l w r w',
  scan on_byte fuel self st l w = Some (Ok r, w') →
  ∃ bss b l', feeds on_byte l bss = Some l' ∧ on_byte l' b = inr r ∧
    Forall one_or_none bss ∧ one_or_none b ∧
    pending (rx w) = concat bss ++ b ++ pending (rx w').
Proof.
  induction fuel as [| fuel IH]; intros l w r w'; simpl; [done |].
  destruct (BaseTransport.recv 1 self w) as [[b | e] w1] eqn:Hr; [| done].
  pose proof (recv_ok_length _ _ _ _ _ Hidle Hfail Hr) as Hb.
  pose proof (recv_ok_taken _ _ _ _ _ Hidle Hfail Hr) as Hp.
  case_decide; [done |].
  destruct (on_byte l b) as [l1 | r1] eqn:Hd.
  - intros (bss & b' & l' & Hf & Hl & Hbss & Hb' & Hp')%IH.
    exists (b :: bss), b', l'. simpl. rewrite Hd, Hp, Hp', <- app_assoc.
    split_and!; try done. by constructor.
  - intros [= <- <-]. by exists [], b, l.
Qed.

End Explained.

(** ** The loop on a script *)

Section Script.
Context `{TransportLaws T} {L R : Type}.
Variables (on_byte : L → bytes → L + R) (self : T) (tmo : Z).
Hypothesis Hlink : link self = Timed tmo.
Implicit Types (l : L) (w : World).

(** Bytes that arrive before the deadline and on which the decision goes on
    take the loop through as many iterations, to the locals [feed] gives. *)
Lemma scan_feed st bs :
  ∀ l l' fuel evs rest w,
  feed on_byte l bs = Some l' →
  delivers tmo evs bs →
  rx w = evs ++ rest →
  now w + script_time evs - st ≤ seconds (timeout self) →
  scan on_byte (length evs + fuel) self st l w =
    scan on_byte fuel self st l' (with_rx rest (tick (script_time evs) w)).
Proof.
  induction bs as [| b bs IH]; intros l l' fuel evs rest w Ha Hevs Hrx Ht.
  - apply delivers_nil_inv in Hevs as ->. simplify_eq/=.
    by rewrite tick_0, with_rx_id.
  - apply delivers_cons_inv in Hevs as (d & evs' & -> & Hd & Hevs').
    pose proof (delivers_nonneg _ _ _ Hevs'). simpl in Ha, Ht, Hrx. simpl.
    rewrite (recv_byte self tmo w d b (evs' ++ rest) Hlink Hrx) by lia. simpl.
    rewrite decide_False by lia.
    destruct (on_byte l [b]) as [l1 |]; [| done].
    rewrite (IH _ _ fuel evs' rest _ Ha Hevs'); [f_equal; world_eq | done |].
    simpl. lia.
Qed.

(** The byte on which the decision leaves the loop, before the deadline. *)
Lemma scan_leave st l b r d rest fuel w :
  on_byte l [b] = inr r →
  rx w = mkRx d (RxBytes [b]) :: rest → d ≤ tmo →
  now w + d - st ≤ seconds (timeout self) →
  scan on_byte (S fuel) self st l w = Some (Ok r, with_rx rest (tick d w)).
Proof.
  intros Hb Hrx Hd Ht. simpl.
  rewrite (recv_byte self tmo w d b rest Hlink Hrx Hd). simpl.
  rewrite decide_False by lia. by rewrite Hb.
Qed.

(** Bytes on which the decision goes on, and then the byte on which it
    leaves the loop, all before the deadline. *)
Lemma scan_through st bs e l l' r fuel evs rest w :
  feed on_byte l bs = Some l' → on_byte l' [e] = inr r →
  delivers tmo evs (bs ++ [e]) →
  rx w = evs ++ rest →
  now w + script_time evs - st ≤ seconds (timeout self) →
  (length evs ≤ fuel)%nat →
  scan on_byte fuel self st l w =
    Some (Ok r, with_rx rest (tick (script_time evs) w)).
Proof.
  intros Ha He (evs1 & evs2 & -> & Hevs1 & Hevs2)%delivers_app_inv Hrx Ht Hf.
  apply delivers_cons_inv in Hevs2 as (d & ? & -> & Hd & ->%delivers_nil_inv).
  pose proof (delivers_nonneg _ _ _ Hevs1).
  rewrite length_app in Hf. rewrite script_time_app in *.
  rewrite <- app_assoc in Hrx. simpl in Hf, Ht, Hrx.
  replace fuel with (length evs1 + S (fuel - length evs1 - 1))%nat by lia.
  rewrite (scan_feed st bs l l' _ evs1 _ w Ha Hevs1 Hrx) by lia.
  rewrite (scan_leave st l' e r d rest) by (done || simpl; lia).
  f_equal. f_equal. world_eq.
Qed.

(** The deadline is that of the loop, not of the byte: bytes on which the
    decision goes on arrive one by one, each within the read timeout, and
    then a byte arrives within the read timeout but past the deadline. *)
Lemma scan_overdue st bs b d l evs rest fuel w :
  is_Some (feed on_byte l bs) →
  delivers tmo evs bs → 0 ≤ d ≤ tmo →
  rx w = evs ++ mkRx d (RxBytes [b]) :: rest →
  now w + script_time evs - st ≤ seconds (timeout self)
    < now w + script_time evs + d - st →
  (length evs < fuel)%nat →
  scan on_byte fuel self st l w =
    Some (Raise (timed_out self), with_rx rest (tick (script_time evs + d) w)).
Proof.
  intros [l' Ha] Hevs Hd Hrx Ht Hf.
  replace fuel with (length evs + S (fuel - length evs - 1))%nat by lia.
  rewrite (scan_feed st bs l l' _ evs _ w) by (done || lia).
  simpl. rewrite (recv_byte self tmo _ d b rest Hlink) by (done || lia). simpl.
  rewrite decide_True by lia. do 2 f_equal. world_eq.
Qed.

(** A quiet line and a transport that polls: [k] receives return no bytes
    before the deadline, the next one returns after it. *)
Lemma scan_idle st l (k : nat) :
  on_timeout = Ok [] → 0 < tmo → on_byte l [] = inl l →
  ∀ fuel w,
  quiet ((Z.of_nat k + 1) * tmo) (rx w) →
  now w - st + Z.of_nat k * tmo ≤ seconds (timeout self)
    < now w - st + (Z.of_nat k + 1) * tmo →
  (k < fuel)%nat →
  scan on_byte fuel self st l w =
    Some (Raise (timed_out self), wait ((Z.of_nat k + 1) * tmo) w).
Proof.
  intros Hpoll Htmo Hl.
  induction k as [| k IH]; intros fuel w Hq Ht Hf;
    (destruct fuel as [| fuel]; [lia |]); simpl;
    rewrite (recv_quiet self tmo) by (done || (eapply quiet_mono; [| done]; lia));
    rewrite Hpoll; simpl.
  - rewrite decide_True by lia. do 2 f_equal. f_equal. lia.
  - rewrite decide_False by lia. rewrite Hl.
    rewrite IH; [by rewrite wait_wait; do 3 f_equal; lia | | simpl; lia | lia].
    apply quiet_wait. eapply quiet_mono; [| done]. lia.
Qed.

(** A closed line: every receive returns no bytes after the [s]
    milliseconds the program takes for it; [k] of them return before the
    deadline and the next one after it. *)
Lemma scan_hangup st l s (k : nat) :
  0 < s → on_byte l [] = inl l →
  ∀ fuel w,
  hung_up s (rx w) →
  now w - st + Z.of_nat k * s ≤ seconds (timeout self)
    < now w - st + (Z.of_nat k + 1) * s →
  (k < fuel)%nat →
  scan on_byte fuel self st l w =
    Some (Raise (timed_out self), tick ((Z.of_nat k + 1) * s) w).
Proof.
  intros Hs Hl.
  induction k as [| k IH]; intros fuel w Hup Ht Hf;
    (destruct fuel as [| fuel]; [lia |]); simpl;
    rewrite (recv_hangup self tmo 1 w s) by done; simpl.
  - rewrite decide_True by lia. do 3 f_equal. lia.
  - rewrite decide_False by lia. rewrite Hl.
    rewrite IH; [by rewrite tick_tick; do 3 f_equal; lia | done | simpl; lia | lia].
Qed.

End Script.
