(* ===== verification/Serial.v ===== *)
(** * The serial transport: class [SerialTransport]

    Module [SerialTransport] has one definition per method of the class (lines
    218-311 of transports.py).  The object is the record [t]; [port] is [None]
    for a closed transport and the pyserial object otherwise.  The theorems
    give each method's result on every branch, the handle bookkeeping, the
    [TransportLaws] that the framing engine relies on, and show that the text
    of [__repr__] determines the port name and the timeout. *)

From Stdlib Require Import ZArith Lia.
From stdpp Require Import base tactics option list numbers strings.
From S2P Require Import Prelude Repr World Transport.

#[local] Open Scope Z_scope.

Module SerialTransport.

Record t : Type := mk {
  timeout : Z;                       (* seconds *)
  port_name : string;
  port : option serial.Serial;
}.

Definition TRANSPORT_REQUIRES_ADDRESS : bool := false.

Definition default_timeout : Z := 10.
Definition default_baudrate : Z := 300.

Definition set_port (p : option serial.Serial) (self : t) : t :=
  mk (timeout self) (port_name self) p.

(** [__init__] (lines 227-231). *)
Definition __init__ (port : string) (timeout : Z) : t := mk timeout port None.

(** The arguments both [connect] and [switch_baudrate] pass to
    [serial.Serial], apart from the baud rate and the read timeout. *)
Definition settings (self : t) (baudrate tmo : Z) : serial.Serial :=
  serial.mkSerial (port_name self) baudrate serial.PARITY_EVEN
    serial.STOPBITS_ONE serial.SEVENBITS 0 tmo false false false.

(** [connect] (lines 233-248): the read timeout is half of [self.timeout]. *)
Definition connect (baudrate : Z) : M (t * World) unit :=
  self ← this;
  p ← lift (serial.open (settings self baudrate (seconds (timeout self) / 2)));
  assign (set_port (Some p)).

(** [disconnect] (lines 250-258). *)
Definition disconnect : M (t * World) unit :=
  self ← this;
  match port self with
  | None => raise (TransportError "Serial port is closed.")
  | Some p =>
    lift (serial.close p) ;;;
    assign (set_port None)
  end.

(** [_send] (lines 260-270). *)
Definition _send (data : bytes) (self : t) : M World unit :=
  match port self with
  | None => raise (TransportError "Serial port is closed.")
  | Some p =>
    serial.write p data ;;;
    serial.flush p
  end.

(** [_recv] (lines 272-281). *)
Definition _recv (chars : nat) (self : t) : M World bytes :=
  match port self with
  | None => raise (TransportError "Serial port is closed.")
  | Some p => serial.read p chars
  end.

(** [switch_baudrate] (lines 283-304): a new port object replaces the old
    one, which is not closed; the read timeout is the whole of
    [self.timeout]. *)
Definition switch_baudrate (baud : Z) : M (t * World) unit :=
  self ← this;
  match port self with
  | None => raise (TransportError "Serial port is closed.")
  | Some _ =>
    lift (logger (LogSwitching baud)) ;;;
    p ← lift (serial.open (settings self baud (seconds (timeout self))));
    assign (set_port (Some p))
  end.

(** The name of the class: [self.__class__.__name__] on an object of the
    class itself. *)
Definition __name__ : string := "SerialTransport".

(** [__repr__] (lines 306-311): three f-strings side by side. *)
Definition __repr__ (self : t) : string :=
  (__name__ +:+ "(") +:+
  ("port=" +:+ repr (port_name self) +:+ ", ") +:+
  ("timeout=" +:+ repr (timeout self) +:+ ")").

End SerialTransport.

#[export] Instance SerialTransport_Transport : Transport SerialTransport.t := {|
  class_name := λ _, SerialTransport.__name__;
  timeout := SerialTransport.timeout;
  TRANSPORT_REQUIRES_ADDRESS := λ _, SerialTransport.TRANSPORT_REQUIRES_ADDRESS;
  connect := SerialTransport.connect SerialTransport.default_baudrate;
  disconnect := SerialTransport.disconnect;
  _send := SerialTransport._send;
  _recv := SerialTransport._recv;
  switch_baudrate := SerialTransport.switch_baudrate;
|}.

(** ** The state of a serial transport *)

(** The port object was made by [connect] or by [switch_baudrate] of this
    transport. *)
Definition serial_inv (self : SerialTransport.t) : Prop :=
  match SerialTransport.port self with
  | None => True
  | Some p =>
    ∃ baud tmo, p = SerialTransport.settings self baud tmo ∧
      (tmo = seconds (SerialTransport.timeout self) / 2 ∨
       tmo = seconds (SerialTransport.timeout self))
  end.

Section SerialFacts.
Import SerialTransport.
Implicit Types (self : t) (w : World).

(** *** connect *)

Lemma serial_connect_ok baud self w :
  line_up w = true →
  connect baud (self, w) =
    (Ok tt, (set_port (Some (settings self baud (500 * timeout self))) self,
             open_handle w)).
Proof.
  intros Hup. unfold connect, serial.open. unfold_monad. simpl.
  by rewrite Hup, seconds_half.
Qed.

Lemma serial_connect_fails baud self w :
  line_up w = false →
  connect baud (self, w) = (Raise SerialException, (self, w)).
Proof. intros Hup. unfold connect, serial.open. unfold_monad. simpl. by rewrite Hup. Qed.

(** *** disconnect *)

Lemma serial_disconnect_closed self w :
  port self = None →
  disconnect (self, w) =
    (Raise (TransportError "Serial port is closed."), (self, w)).
Proof. intros Hp. unfold disconnect. unfold_monad. simpl. by rewrite Hp. Qed.

Lemma serial_disconnect_open self w p :
  port self = Some p →
  disconnect (self, w) = (Ok tt, (set_port None self, close_handle w)).
Proof. intros Hp. unfold disconnect. unfold_monad. simpl. by rewrite Hp. Qed.

(** *** _send and _recv *)

Lemma serial_send_closed data self w :
  port self = None →
  _send data self w = (Raise (TransportError "Serial port is closed."), w).
Proof. intros Hp. unfold _send. by rewrite Hp. Qed.

Lemma serial_send_open data self w p :
  port self = Some p →
  _send data self w =
    if line_up w then (Ok tt, line_write data w) else (Raise SerialException, w).
Proof.
  intros Hp. unfold _send, serial.write. rewrite Hp. unfold_monad.
  by destruct (line_up w).
Qed.

Lemma serial_recv_closed n self w :
  port self = None →
  _recv n self w = (Raise (TransportError "Serial port is closed."), w).
Proof. intros Hp. unfold _recv. by rewrite Hp. Qed.

Lemma serial_recv_open n self w p :
  port self = Some p →
  _recv n self w =
    (deliver (Ok []) (Raise SerialException) (line_read n (serial.timeout p) w).1,
     (line_read n (serial.timeout p) w).2).
Proof.
  intros Hp. unfold _recv, serial.read. rewrite Hp.
  by destruct (line_read _ _ _) as [[] ?].
Qed.

(** *** switch_baudrate *)

Lemma serial_switch_closed baud self w :
  port self = None →
  switch_baudrate baud (self, w) =
    (Raise (TransportError "Serial port is closed."), (self, w)).
Proof. intros Hp. unfold switch_baudrate. unfold_monad. simpl. by rewrite Hp. Qed.

Lemma serial_switch_open baud self w p :
  port self = Some p → line_up w = true →
  switch_baudrate baud (self, w) =
    (Ok tt, (set_port (Some (settings self baud (seconds (timeout self)))) self,
             open_handle (log_record (LogSwitching baud) w))).
Proof.
  intros Hp Hup. unfold switch_baudrate, serial.open, logger. unfold_monad.
  simpl. rewrite Hp. simpl. by rewrite Hup.
Qed.

Lemma serial_switch_fails baud self w p :
  port self = Some p → line_up w = false →
  switch_baudrate baud (self, w) =
    (Raise SerialException, (self, log_record (LogSwitching baud) w)).
Proof.
  intros Hp Hup. unfold switch_baudrate, serial.open, logger. unfold_monad.
  simpl. rewrite Hp. simpl. by rewrite Hup.
Qed.

End SerialFacts.

(** ** The laws *)

#[export, refine] Instance SerialTransport_Laws : TransportLaws SerialTransport.t := {|
  link := λ self,
    match SerialTransport.port self with
    | None => Closed
    | Some p => Timed (serial.timeout p)
    end;
  on_timeout := Ok [];
  on_error := Raise SerialException;
  on_down := SerialException;
|}.
Proof.
  all: intros self; intros; simpl in *;
    destruct (SerialTransport.port self) as [p |] eqn:Hp; simplify_eq/=.
  - by apply serial_recv_open.
  - by eapply serial_send_open.
  - eexists. intros w. by apply serial_recv_closed.
  - eexists. intros w. by apply serial_send_closed.
Defined.

(** ** The life of a serial transport *)

(** The calls a client makes on a transport object. *)
Inductive serial_call : Type :=
| Connect (baudrate : Z)
| Disconnect
| SwitchBaudrate (baud : Z)
| Send (data : bytes)
| Recv (chars : nat).

(** The method behind a call, its result dropped. *)
Definition serial_perform (c : serial_call) : M (SerialTransport.t * World) unit :=
  match c with
  | Connect baudrate => SerialTransport.connect baudrate
  | Disconnect => SerialTransport.disconnect
  | SwitchBaudrate baud => SerialTransport.switch_baudrate baud
  | Send data => on_world (BaseTransport.send data)
  | Recv chars => on_world (BaseTransport.recv chars) ;;; mret tt
  end.

(** The states of a transport made by [SerialTransport(name, tmo)] in the
    world [w0]: the one the constructor leaves, and every state a call leads
    to, whether the call returns or raises. *)
Inductive serial_reachable (name : string) (tmo : Z) (w0 : World)
    : SerialTransport.t * World → Prop :=
| reach_init : serial_reachable name tmo w0 (SerialTransport.__init__ name tmo, w0)
| reach_call c s r s' :
    serial_reachable name tmo w0 s → serial_perform c s = (r, s') →
    serial_reachable name tmo w0 s'.

(** The handles the transport accounts for: one when it has a port. *)
Definition serial_owned (self : SerialTransport.t) : nat :=
  match SerialTransport.port self with
  | Some _ => 1
  | None => 0
  end.

Section Lifecycle.
Import SerialTransport.
Implicit Types (self : t) (w : World) (s : t * World).

(** A call changes neither the timeout nor the name of the port. *)
Lemma serial_perform_fields c s r s' :
  serial_perform c s = (r, s') →
  timeout s'.1 = timeout s.1 ∧ port_name s'.1 = port_name s.1.
Proof.
  destruct s as [self w], c; unfold serial_perform, connect, disconnect, switch_baudrate,
    serial.open, serial.close, logger; unfold_monad; simpl;
    repeat case_match; by intros; simplify_eq/=.
Qed.

(** What a call does to the port and to the handles. *)
Lemma serial_perform_port c self w r self' w' :
  serial_perform c (self, w) = (r, (self', w')) →
  (port self' = port self ∧ handles w' = handles w) ∨
  (port self' = None ∧ serial_owned self = 1%nat ∧ handles w' = pred (handles w)) ∨
  (∃ baud tmo, port self' = Some (settings self baud tmo) ∧
     handles w' = S (handles w) ∧
     (tmo = seconds (timeout self) / 2 ∨ tmo = seconds (timeout self))).
Proof.
  destruct c; unfold serial_perform, serial_owned.
  - destruct (line_up w) eqn:Hup.
    + rewrite serial_connect_ok by done. intros [= <- <- <-].
      right; right. rewrite <- seconds_half. eauto 10.
    + rewrite serial_connect_fails by done. intros [= <- <- <-]. by left.
  - destruct (port self) as [p |] eqn:Hp.
    + rewrite (serial_disconnect_open _ _ p) by done. intros [= <- <- <-].
      by right; left.
    + rewrite serial_disconnect_closed by done. intros [= <- <- <-]. by left.
  - destruct (port self) as [p |] eqn:Hp; [destruct (line_up w) eqn:Hup |].
    + rewrite (serial_switch_open _ _ _ p) by done. intros [= <- <- <-].
      right; right. eauto 10.
    + rewrite (serial_switch_fails _ _ _ p) by done. intros [= <- <- <-]. by left.
    + rewrite serial_switch_closed by done. intros [= <- <- <-]. by left.
  - rewrite on_world_run. intros [= <- <- <-]. left. split; [done |].
    apply send_handles.
  - unfold mbind, M_bind. rewrite on_world_run.
    destruct (BaseTransport.recv chars self w) as [r0 w0] eqn:Hr.
    pose proof (recv_frame _ _ _ _ _ Hr) as (_ & Hh & _).
    destruct r0; intros [= <- <- <-]; by left.
Qed.

(** The invariant of the life of a serial transport. *)
Definition serial_ok (name : string) (tmo : Z) (w0 : World)
    (s : t * World) : Prop :=
  serial_inv s.1 ∧ timeout s.1 = tmo ∧ port_name s.1 = name ∧
  (handles w0 + serial_owned s.1 ≤ handles s.2)%nat.

Lemma serial_ok_step name tmo w0 c s r s' :
  serial_ok name tmo w0 s → serial_perform c s = (r, s') → serial_ok name tmo w0 s'.
Proof.
  destruct s as [self w], s' as [self' w'].
  intros (Hinv & Ht & Hn & Hh) Hc.
  destruct (serial_perform_fields _ _ _ _ Hc) as [Ht' Hn']. simpl in *.
  unfold serial_ok, serial_inv, serial_owned in *. simpl.
  destruct (serial_perform_port _ _ _ _ _ _ Hc)
    as [[-> ->] | [(-> & Ho & ->) | (baud & t' & -> & -> & Htmo)]].
  - split_and!; try congruence.
    destruct (port self); [| done].
    destruct Hinv as (b & t' & -> & Ht0). exists b, t'.
    unfold settings. by rewrite Hn', Ht'.
  - split_and!; try congruence; try done.
    unfold serial_owned in Ho. destruct (port self); [lia | done].
  - split_and!; try congruence; [| destruct (port self); lia].
    exists baud, t'. unfold settings. by rewrite Hn', Ht'.
Qed.

(** The constructor makes a transport without a port that has touched
    nothing. *)
Lemma serial_ok_init name tmo w0 : serial_ok name tmo w0 (__init__ name tmo, w0).
Proof. unfold serial_ok, serial_owned. simpl. split_and!; try done. lia. Qed.

End Lifecycle.

(** Run a list of calls, whatever each returns. *)
Definition serial_calls (cs : list serial_call)
    (s : SerialTransport.t * World) : SerialTransport.t * World :=
  foldl (λ s c, (serial_perform c s).2) s cs.

Lemma serial_calls_reachable name tmo w0 cs :
  ∀ s, serial_reachable name tmo w0 s →
  serial_reachable name tmo w0 (serial_calls cs s).
Proof.
  induction cs as [| c cs IH]; intros s Hs; [done |].
  apply IH. eapply reach_call; [done | apply surjective_pairing].
Qed.

Section SerialProperties.
Import SerialTransport.
Implicit Types (self : t) (w : World).

(** C23.  Every state of a serial transport that a sequence of calls can
    reach from its construction, through results and exceptions alike,
    satisfies the invariant: the port, when there is one, was opened by this
    transport under its own name with half or the whole of its timeout; name
    and timeout never change; and the open handles are at least those of
    the beginning and the one of the port. *)
Theorem serial_reachable_ok name tmo w0 s :
  serial_reachable name tmo w0 s → serial_ok name tmo w0 s.
Proof. induction 1; [apply serial_ok_init | by eapply serial_ok_step]. Qed.

(** C34.  [switch_baudrate] replaces the port without closing it: after
    [switch_baudrate] and [disconnect] the transport has no port, yet as many
    handles are open as when it had one. *)
Theorem serial_switch_leaks baud self w p :
  port self = Some p → line_up w = true →
  (switch_baudrate baud ;;; disconnect) (self, w) =
    (Ok tt, (set_port None self, log_record (LogSwitching baud) w)).
Proof.
  intros Hp Hup.
  rewrite (bind_ok _ _ _ _ _ (serial_switch_open baud self w p Hp Hup)).
  by erewrite serial_disconnect_open by done.
Qed.

(** C35.  The read timeout of the port is half of the transport's timeout
    after [connect] and the whole of it after [switch_baudrate]. *)
Theorem serial_switch_timeout baud baud' self w :
  line_up w = true →
  ∃ self1 w1 self2 w2,
    connect baud (self, w) = (Ok tt, (self1, w1)) ∧
    switch_baudrate baud' (self1, w1) = (Ok tt, (self2, w2)) ∧
    link self1 = Timed (500 * timeout self) ∧
    link self2 = Timed (1000 * timeout self).
Proof.
  intros Hup. do 4 eexists. split_and!.
  - by apply serial_connect_ok.
  - by eapply serial_switch_open.
  - done.
  - done.
Qed.

(** C37.  On a transport without a port, [disconnect], [switch_baudrate],
    [send] and [recv] raise [TransportError] and change neither the transport
    nor the world. *)
Theorem serial_closed_raises self w baud data n :
  port self = None →
  let closed := Raise (TransportError "Serial port is closed.") in
  disconnect (self, w) = (closed, (self, w)) ∧
  switch_baudrate baud (self, w) = (closed, (self, w)) ∧
  BaseTransport.send data self w = (Raise (TransportError "Serial port is closed."), w) ∧
  BaseTransport.recv n self w = (Raise (TransportError "Serial port is closed."), w).
Proof.
  intros Hp. split_and!.
  - by apply serial_disconnect_closed.
  - by apply serial_switch_closed.
  - unfold BaseTransport.send. by erewrite bind_raise by by apply serial_send_closed.
  - by apply serial_recv_closed.
Qed.

End SerialProperties.

(** [__repr__] as one text. *)
Lemma serial_repr_text self :
  SerialTransport.__repr__ self =
    "SerialTransport(port=" +:+ repr (SerialTransport.port_name self) +:+
    ", timeout=" +:+ repr (SerialTransport.timeout self) +:+ ")".
Proof.
  unfold SerialTransport.__repr__, SerialTransport.__name__.
  by rewrite !string_app_assoc.
Qed.

(** The text [__repr__] returns determines the port name and the
    timeout it was made from: two transports with the same text have the same
    port name and the same timeout, whatever characters the port name holds. *)
Lemma serial_repr_inj (s1 s2 : SerialTransport.t) :
  SerialTransport.__repr__ s1 = SerialTransport.__repr__ s2 →
  SerialTransport.port_name s1 = SerialTransport.port_name s2 ∧
  SerialTransport.timeout s1 = SerialTransport.timeout s2.
Proof.
  rewrite !serial_repr_text. intros Heq%(inj (String.app _)).
  apply quoted_inj in Heq as [Hname Heq%(inj (String.app _))].
  split; [done |]. by apply string_app_inj_r, (inj repr) in Heq.
Qed.

(** ** Concrete runs *)

(** A world in which nothing has happened and the device can be opened. *)
Definition serial_world : World := mkWorld 0 true [] [] 0 [].

Lemma serial_reachable_ok_witness :
  serial_ok "/dev/ttyUSB0" 10 serial_world
    (serial_calls [Connect 300; Send [47; 63; 33; 13; 10]; SwitchBaudrate 9600;
                   Recv 1; Disconnect; Disconnect]
       (SerialTransport.__init__ "/dev/ttyUSB0" 10, serial_world)).
Proof.
  apply serial_reachable_ok, serial_calls_reachable. constructor.
Defined.

(** The transport after [connect(300)] in that world. *)
Definition serial_connected : SerialTransport.t :=
  SerialTransport.set_port
    (Some (SerialTransport.settings (SerialTransport.__init__ "/dev/ttyUSB0" 10)
             300 5000))
    (SerialTransport.__init__ "/dev/ttyUSB0" 10).

Lemma serial_switch_leaks_witness :
  (SerialTransport.switch_baudrate 9600 ;;; SerialTransport.disconnect)
    (serial_connected, open_handle serial_world) =
    (Ok tt,
     (SerialTransport.set_port None serial_connected,
      log_record (LogSwitching 9600) (open_handle serial_world))).
Proof. by eapply serial_switch_leaks. Defined.

Lemma serial_switch_timeout_witness :
  ∃ self1 w1 self2 w2,
    SerialTransport.connect 300
      (SerialTransport.__init__ "/dev/ttyUSB0" 10, serial_world)
      = (Ok tt, (self1, w1)) ∧
    SerialTransport.switch_baudrate 9600 (self1, w1) = (Ok tt, (self2, w2)) ∧
    link self1 = Timed (500 * 10) ∧ link self2 = Timed (1000 * 10).
Proof. by apply (serial_switch_timeout 300 9600). Defined.

Lemma serial_closed_raises_witness :
  let self := SerialTransport.__init__ "/dev/ttyUSB0" 10 in
  let closed := Raise (TransportError "Serial port is closed.") in
  SerialTransport.disconnect (self, serial_world) = (closed, (self, serial_world)) ∧
  SerialTransport.switch_baudrate 9600 (self, serial_world)
    = (closed, (self, serial_world)) ∧
  BaseTransport.send [6] self serial_world
    = (Raise (TransportError "Serial port is closed."), serial_world) ∧
  BaseTransport.recv 1 self serial_world
    = (Raise (TransportError "Serial port is closed."), serial_world).
Proof. by apply serial_closed_raises. Defined.

(** The text does not show whether the transport is connected. *)
Lemma serial_repr_inj_witness :
  SerialTransport.port_name serial_connected = "/dev/ttyUSB0" ∧
  SerialTransport.timeout serial_connected = 10.
Proof.
  apply (serial_repr_inj serial_connected (SerialTransport.__init__ "/dev/ttyUSB0" 10)).
  reflexivity.
Defined.
