(* ===== verification/Tcp.v ===== *)
(** * The TCP transport: class [TcpTransport]

    Module [TcpTransport] has one definition per method of the class (lines
    314-393 of transports.py).  The object is the record [t]; [socket] is
    [None] after [disconnect] and the socket object otherwise.  The
    constructor creates a socket, so [__init__] acts on the world.  The
    theorems give each method's result on every branch, the handle
    bookkeeping, the [TransportLaws] that the framing engine relies on, and
    show that the text of [__repr__] is never closed. *)

From Stdlib Require Import ZArith Lia.
From stdpp Require Import base tactics option list numbers strings.
From S2P Require Import Prelude Repr World Transport.

#[local] Open Scope Z_scope.

Module TcpTransport.

Record t : Type := mk {
  timeout : Z;                       (* seconds *)
  address : string * Z;              (* host and port *)
  socket : option socket.socket;
}.

Definition default_timeout : Z := 30.

Definition set_socket (s : option socket.socket) (self : t) : t :=
  mk (timeout self) (address self) s.

(** [_get_socket] (lines 380-386). *)
Definition _get_socket (self : t) : M World socket.socket :=
  s ← socket.create;
  mret (socket.settimeout (seconds (timeout self)) s).

(** [__init__] (lines 320-324): the socket is created at once. *)
Definition __init__ (address : string * Z) (timeout : Z) : M World t :=
  let self := mk timeout address None in
  s ← _get_socket self;
  mret (set_socket (Some s) self).

(** [connect] (lines 326-334): a socket object is truthy, so [not
    self.socket] holds exactly when the field is [None].  Connecting changes
    the socket object that [self.socket] refers to. *)
Definition connect : M (t * World) unit :=
  self ← this;
  s ← match socket self with
      | None =>
        s ← lift (_get_socket self);
        assign (set_socket (Some s)) ;;;
        mret s
      | Some s => mret s
      end;
  lift (logger (LogConnecting (address self).1 (address self).2)) ;;;
  s ← lift (socket.connect s);
  assign (set_socket (Some s)).

(** [disconnect] (lines 336-344). *)
Definition disconnect : M (t * World) unit :=
  self ← this;
  match socket self with
  | None => raise (TransportError "Socket is closed")
  | Some s =>
    lift (socket.close s) ;;;
    assign (set_socket None)
  end.

(** [_send] (lines 346-355): an error of [sendall] is not caught. *)
Definition _send (data : bytes) (self : t) : M World unit :=
  match socket self with
  | None => raise (TransportError "Socket is closed")
  | Some s => socket.sendall s data
  end.

(** [_recv] (lines 357-370): every error of [recv], the timeout included,
    becomes a [TransportError] without a message. *)
Definition _recv (chars : nat) (self : t) : M World bytes :=
  match socket self with
  | None => raise (TransportError "Socket is closed")
  | Some s =>
    try_except (socket.recv s chars) (λ e, raise (TransportError EmptyString))
  end.

(** [switch_baudrate] (lines 372-378). *)
Definition switch_baudrate (baud : Z) : M (t * World) unit := mret tt.

(** The name of the class: [self.__class__.__name__] on an object of the
    class itself. *)
Definition __name__ : string := "TcpTransport".

(** [__repr__] (lines 388-393): three f-strings side by side.  The last one
    has no closing parenthesis. *)
Definition __repr__ (self : t) : string :=
  (__name__ +:+ "(") +:+
  ("address=" +:+ repr (address self) +:+ ", ") +:+
  ("timeout=" +:+ repr (timeout self)).

End TcpTransport.

#[export] Instance TcpTransport_Transport : Transport TcpTransport.t := {|
  class_name := λ _, TcpTransport.__name__;
  timeout := TcpTransport.timeout;
  TRANSPORT_REQUIRES_ADDRESS := λ _, true;
  connect := TcpTransport.connect;
  disconnect := TcpTransport.disconnect;
  _send := TcpTransport._send;
  _recv := TcpTransport._recv;
  switch_baudrate := TcpTransport.switch_baudrate;
|}.

(** ** The state of a TCP transport *)

(** The link of a socket: closed until connected, then timed or blocking. *)
Definition socket_link (s : socket.socket) : Link :=
  if socket.connected s then
    match socket.timeout s with
    | Some tmo => Timed tmo
    | None => Blocking
    end
  else Closed.

(** The socket of a transport, when it has one, was made by [_get_socket]:
    its timeout is the transport's. *)
Definition tcp_inv (self : TcpTransport.t) : Prop :=
  match TcpTransport.socket self with
  | None => True
  | Some s => socket.timeout s = Some (seconds (TcpTransport.timeout self))
  end.

Section TcpFacts.
Import TcpTransport.
Implicit Types (self : t) (w : World) (s : socket.socket).

(** *** __init__ and _get_socket *)

Lemma tcp_init addr tmo w :
  __init__ addr tmo w =
    (Ok (mk tmo addr (Some (socket.mkSocket (Some (seconds tmo)) false))),
     open_handle w).
Proof. done. Qed.

(** *** connect *)

(** What [connect] logs. *)
Definition connecting (self : t) (w : World) : World :=
  log_record (LogConnecting (address self).1 (address self).2) w.

Lemma tcp_connect_ok self s w :
  socket self = Some s → socket.connected s = false → line_up w = true →
  connect (self, w) =
    (Ok tt, (set_socket (Some (socket.mkSocket (socket.timeout s) true)) self,
             connecting self w)).
Proof.
  intros Hs Hc Hup. unfold connect, socket.connect, logger. unfold_monad.
  simpl. rewrite Hs. simpl. by rewrite Hc, Hup.
Qed.

(** After [disconnect], [connect] makes a socket of its own. *)
Lemma tcp_connect_fresh self w :
  socket self = None → line_up w = true →
  connect (self, w) =
    (Ok tt, (set_socket (Some (socket.mkSocket (Some (seconds (timeout self))) true))
               self,
             connecting self (open_handle w))).
Proof.
  intros Hs Hup. unfold connect, socket.connect, logger, _get_socket, socket.create.
  unfold_monad. simpl. rewrite Hs. simpl. by rewrite Hup.
Qed.

(** A second [connect] raises, and the socket stays as it was. *)
Lemma tcp_connect_twice self s w :
  socket self = Some s → socket.connected s = true →
  connect (self, w) = (Raise OSError, (self, connecting self w)).
Proof.
  intros Hs Hc. unfold connect, socket.connect, logger. unfold_monad.
  simpl. rewrite Hs. simpl. by rewrite Hc.
Qed.

(** Nobody accepts: [connect] raises the socket's error, and the transport
    keeps its unconnected socket. *)
Lemma tcp_connect_refused self s w :
  socket self = Some s → socket.connected s = false → line_up w = false →
  connect (self, w) = (Raise OSError, (self, connecting self w)).
Proof.
  intros Hs Hc Hup. unfold connect, socket.connect, logger. unfold_monad.
  simpl. rewrite Hs. simpl. by rewrite Hc, Hup.
Qed.

(** *** disconnect *)

Lemma tcp_disconnect_closed self w :
  socket self = None →
  disconnect (self, w) = (Raise (TransportError "Socket is closed"), (self, w)).
Proof. intros Hs. unfold disconnect. unfold_monad. simpl. by rewrite Hs. Qed.

Lemma tcp_disconnect_open self s w :
  socket self = Some s →
  disconnect (self, w) = (Ok tt, (set_socket None self, close_handle w)).
Proof. intros Hs. unfold disconnect. unfold_monad. simpl. by rewrite Hs. Qed.

(** *** _send and _recv *)

Lemma tcp_send_closed data self w :
  socket self = None →
  _send data self w = (Raise (TransportError "Socket is closed"), w).
Proof. intros Hs. unfold _send. by rewrite Hs. Qed.

Lemma tcp_send_unconnected data self s w :
  socket self = Some s → socket.connected s = false →
  _send data self w = (Raise OSError, w).
Proof. intros Hs Hc. unfold _send, socket.sendall. by rewrite Hs, Hc. Qed.

(** On a connected socket [_send] writes when the line is up; when it is
    down the error of [sendall] leaves [_send] as it is. *)
Lemma tcp_send_connected data self s w :
  socket self = Some s → socket.connected s = true →
  _send data self w =
    if line_up w then (Ok tt, line_write data w) else (Raise OSError, w).
Proof.
  intros Hs Hc. unfold _send, socket.sendall. rewrite Hs, Hc.
  by destruct (line_up w).
Qed.

Lemma tcp_recv_closed n self w :
  socket self = None →
  _recv n self w = (Raise (TransportError "Socket is closed"), w).
Proof. intros Hs. unfold _recv. by rewrite Hs. Qed.

Lemma tcp_recv_unconnected n self s w :
  socket self = Some s → socket.connected s = false →
  _recv n self w = (Raise (TransportError EmptyString), w).
Proof.
  intros Hs Hc. unfold _recv, socket.recv, try_except, raise. by rewrite Hs, Hc.
Qed.

(** On a connected socket with a timeout, [_recv] is one read of the line;
    a timeout and an error both become [TransportError]. *)
Lemma tcp_recv_timed n self s tmo w :
  socket self = Some s → socket.connected s = true →
  socket.timeout s = Some tmo →
  _recv n self w =
    (deliver (Raise (TransportError EmptyString)) (Raise (TransportError EmptyString))
       (line_read n tmo w).1,
     (line_read n tmo w).2).
Proof.
  intros Hs Hc Ht. unfold _recv, socket.recv, try_except, raise.
  rewrite Hs, Hc, Ht. by destruct (line_read _ _ _) as [[] ?].
Qed.

Lemma tcp_recv_blocking n self s w :
  socket self = Some s → socket.connected s = true →
  socket.timeout s = None →
  _recv n self w =
    (deliver (Raise (TransportError EmptyString)) (Raise (TransportError EmptyString))
       (line_read_blocking n w).1,
     (line_read_blocking n w).2).
Proof.
  intros Hs Hc Ht. unfold _recv, socket.recv, try_except, raise.
  rewrite Hs, Hc, Ht. by destruct (line_read_blocking _ _) as [[] ?].
Qed.

(** *** switch_baudrate *)

Lemma tcp_switch_noop baud self w :
  switch_baudrate baud (self, w) = (Ok tt, (self, w)).
Proof. done. Qed.

End TcpFacts.

(** ** The laws *)

#[export, refine] Instance TcpTransport_Laws : TransportLaws TcpTransport.t := {|
  link := λ self,
    match TcpTransport.socket self with
    | None => Closed
    | Some s => socket_link s
    end;
  on_timeout := Raise (TransportError EmptyString);
  on_error := Raise (TransportError EmptyString);
  on_down := OSError;
|}.
Proof.
  all: intros self; intros; simpl in *; unfold socket_link in *;
    destruct (TcpTransport.socket self) as [s |] eqn:Hs;
    [destruct (socket.connected s) eqn:Hc;
     [destruct (socket.timeout s) as [t |] eqn:Ht |] |];
    simplify_eq/=.
  - by eapply tcp_recv_timed.
  - by eapply tcp_recv_blocking.
  - by eapply tcp_send_connected.
  - by eapply tcp_send_connected.
  - eexists. intros w. by eapply tcp_recv_unconnected.
  - eexists. intros w. by eapply tcp_recv_closed.
  - eexists. intros w. by eapply tcp_send_unconnected.
  - eexists. intros w. by eapply tcp_send_closed.
Defined.

(** ** The life of a TCP transport *)

(** The calls a client makes on a transport object. *)
Inductive tcp_call : Type :=
| TcpConnect
| TcpDisconnect
| TcpSwitchBaudrate (baud : Z)
| TcpSend (data : bytes)
| TcpRecv (chars : nat).

(** The method behind a call, its result dropped. *)
Definition tcp_perform (c : tcp_call) : M (TcpTransport.t * World) unit :=
  match c with
  | TcpConnect => TcpTransport.connect
  | TcpDisconnect => TcpTransport.disconnect
  | TcpSwitchBaudrate baud => TcpTransport.switch_baudrate baud
  | TcpSend data => on_world (BaseTransport.send data)
  | TcpRecv chars => on_world (BaseTransport.recv chars) ;;; mret tt
  end.

(** The states of a transport made by [TcpTransport(addr, tmo)] in the world
    [w0]: the one the constructor leaves, and every state a call leads to,
    whether the call returns or raises. *)
Inductive tcp_reachable (addr : string * Z) (tmo : Z) (w0 : World)
    : TcpTransport.t * World → Prop :=
| tcp_reach_init self w :
    TcpTransport.__init__ addr tmo w0 = (Ok self, w) →
    tcp_reachable addr tmo w0 (self, w)
| tcp_reach_call c s r s' :
    tcp_reachable addr tmo w0 s → tcp_perform c s = (r, s') →
    tcp_reachable addr tmo w0 s'.

(** The handles the transport accounts for: one when it has a socket. *)
Definition tcp_owned (self : TcpTransport.t) : nat :=
  match TcpTransport.socket self with
  | Some _ => 1
  | None => 0
  end.

(** The invariant of the life of a TCP transport: the socket has the
    timeout of the transport, and the handles are counted exactly. *)
Definition tcp_ok (addr : string * Z) (tmo : Z) (w0 : World)
    (s : TcpTransport.t * World) : Prop :=
  tcp_inv s.1 ∧ TcpTransport.timeout s.1 = tmo ∧ TcpTransport.address s.1 = addr ∧
  handles s.2 = (handles w0 + tcp_owned s.1)%nat.

(** Run a list of calls, whatever each returns. *)
Definition tcp_calls (cs : list tcp_call)
    (s : TcpTransport.t * World) : TcpTransport.t * World :=
  foldl (λ s c, (tcp_perform c s).2) s cs.

Section TcpLifecycle.
Import TcpTransport.
Implicit Types (self : t) (w : World) (s : t * World).

(** What the methods that assign to [self] do to the socket and to the
    handles. *)
Lemma tcp_connect_socket self w r self' w' :
  connect (self, w) = (r, (self', w')) →
  timeout self' = timeout self ∧ address self' = address self ∧
  match socket self with
  | None =>
    ∃ c, socket self' = Some (socket.mkSocket (Some (seconds (timeout self))) c) ∧
      handles w' = S (handles w)
  | Some s0 =>
    (socket self' = Some s0 ∨
     socket self' = Some (socket.mkSocket (socket.timeout s0) true)) ∧
    handles w' = handles w
  end.
Proof.
  unfold connect, socket.connect, logger, _get_socket, socket.create.
  unfold_monad. simpl.
  destruct (socket self) as [s0 |] eqn:Hs, (line_up w) eqn:Hup; simpl;
    try destruct (socket.connected s0) eqn:Hc; rewrite ?Hup;
    intros; simplify_eq/=; rewrite ?Hs; eauto 10.
Qed.

Lemma tcp_disconnect_socket self w r self' w' :
  disconnect (self, w) = (r, (self', w')) →
  timeout self' = timeout self ∧ address self' = address self ∧
  socket self' = None ∧ handles w' = (handles w - tcp_owned self)%nat.
Proof.
  unfold disconnect, socket.close, tcp_owned. unfold_monad. simpl.
  destruct (socket self) as [s0 |] eqn:Hs; intros; simplify_eq/=;
    split_and!; try done; lia.
Qed.

Lemma tcp_perform_ok addr tmo w0 c s r s' :
  tcp_ok addr tmo w0 s → tcp_perform c s = (r, s') → tcp_ok addr tmo w0 s'.
Proof.
  destruct s as [self w], s' as [self' w'].
  unfold tcp_ok, tcp_inv, tcp_owned. simpl. intros (Hinv & Ht & Ha & Hh).
  destruct c; simpl.
  - intros (Ht' & Ha' & Hc)%tcp_connect_socket. rewrite Ht', Ha'.
    destruct (socket self) as [s0 |].
    + destruct Hc as [[-> | ->] ->]; split_and!; done.
    + destruct Hc as (c & -> & ->). split_and!; try done. lia.
  - intros (Ht' & Ha' & -> & ->)%tcp_disconnect_socket. rewrite Ht', Ha'.
    unfold tcp_owned. split_and!; try done. destruct (socket self); lia.
  - by intros [= <- <- <-].
  - rewrite on_world_run. intros [= <- <- <-]. by rewrite send_handles.
  - unfold mbind, M_bind. rewrite on_world_run.
    destruct (BaseTransport.recv chars self w) as [r0 w1] eqn:Hr.
    pose proof (recv_frame _ _ _ _ _ Hr) as (_ & Hh' & _).
    destruct r0; intros [= <- <- <-]; by rewrite Hh'.
Qed.

Lemma tcp_init_ok addr tmo w0 self w :
  __init__ addr tmo w0 = (Ok self, w) → tcp_ok addr tmo w0 (self, w).
Proof.
  rewrite tcp_init. intros [= <- <-]. unfold tcp_ok, tcp_inv, tcp_owned. simpl.
  split_and!; try done. lia.
Qed.

Lemma tcp_calls_reachable addr tmo w0 cs :
  ∀ s, tcp_reachable addr tmo w0 s → tcp_reachable addr tmo w0 (tcp_calls cs s).
Proof.
  induction cs as [| c cs IH]; intros s Hs; [done |].
  apply IH. eapply tcp_reach_call; [done | apply surjective_pairing].
Qed.

End TcpLifecycle.

Section TcpProperties.
Import TcpTransport.
Implicit Types (self : t) (w : World).

(** C24.  Every state of a TCP transport that a sequence of calls can reach
    from its construction, through results and exceptions alike, satisfies
    the invariant: the socket, when there is one, has the timeout of the
    transport; address and timeout never change; and the open handles are
    exactly those of the beginning and the one of the socket. *)
Theorem tcp_reachable_ok addr tmo w0 s :
  tcp_reachable addr tmo w0 s → tcp_ok addr tmo w0 s.
Proof. induction 1; [by apply tcp_init_ok | by eapply tcp_perform_ok]. Qed.

(** C38.  On a transport without a socket, [disconnect], [send] and [recv]
    raise [TransportError] and change neither the transport nor the world. *)
Theorem tcp_closed_raises self w data n :
  socket self = None →
  disconnect (self, w) = (Raise (TransportError "Socket is closed"), (self, w)) ∧
  BaseTransport.send data self w = (Raise (TransportError "Socket is closed"), w) ∧
  BaseTransport.recv n self w = (Raise (TransportError "Socket is closed"), w).
Proof.
  intros Hs. split_and!.
  - by apply tcp_disconnect_closed.
  - unfold BaseTransport.send. by erewrite bind_raise by by apply tcp_send_closed.
  - by apply tcp_recv_closed.
Qed.

(** C39.  On a socket that is not connected, [recv] wraps the socket's error
    in a [TransportError], and [send] lets it through as it is. *)
Theorem tcp_send_unwrapped self s w data n :
  socket self = Some s → socket_link s = Closed →
  BaseTransport.recv n self w = (Raise (TransportError EmptyString), w) ∧
  BaseTransport.send data self w = (Raise OSError, w).
Proof.
  intros Hs Hc.
  assert (socket.connected s = false)
    by (unfold socket_link in Hc; by repeat case_match).
  split; [by eapply tcp_recv_unconnected |].
  unfold BaseTransport.send.
  by erewrite bind_raise by by eapply tcp_send_unconnected.
Qed.

(** [disconnect] and then [connect] on a line that accepts: the
    transport has a socket of its own making again, connected, with the
    transport's timeout, and as many handles are open as before. *)
Lemma tcp_reconnect self s w :
  socket self = Some s → line_up w = true →
  (disconnect ;;; connect) (self, w) =
    (Ok tt,
     (set_socket (Some (socket.mkSocket (Some (seconds (timeout self))) true)) self,
      connecting self (open_handle (close_handle w)))).
Proof.
  intros Hs Hup.
  rewrite (bind_ok _ _ _ _ _ (tcp_disconnect_open self s w Hs)).
  by rewrite tcp_connect_fresh.
Qed.

End TcpProperties.

(** C40.  The text [__repr__] returns is never closed: it ends with the last
    digit of the timeout, not with a parenthesis. *)
Theorem tcp_repr_unclosed (self : TcpTransport.t) :
  ∃ c, last_char (TcpTransport.__repr__ self) = Some c ∧ is_digit c = true.
Proof.
  destruct (repr_int_last (TcpTransport.timeout self)) as (c & Hc & Hd).
  exists c. split; [| done]. unfold TcpTransport.__repr__.
  by do 3 apply last_char_app.
Qed.

(** ** Concrete runs *)

(** A world in which nothing has happened and the peer accepts. *)
Definition tcp_world : World := mkWorld 0 true [] [] 0 [].

(** The transport the constructor makes in that world, and the world it
    leaves. *)
Definition tcp_fresh : TcpTransport.t * World :=
  (TcpTransport.mk 30 ("192.0.2.1"%string, 8000)
     (Some (socket.mkSocket (Some 30000) false)),
   open_handle tcp_world).

Lemma tcp_reachable_ok_witness :
  tcp_ok ("192.0.2.1"%string, 8000) 30 tcp_world
    (tcp_calls [TcpConnect; TcpSend [47; 63; 33; 13; 10]; TcpRecv 1;
                TcpDisconnect; TcpDisconnect; TcpConnect; TcpConnect]
       tcp_fresh).
Proof.
  apply tcp_reachable_ok, tcp_calls_reachable. by constructor.
Defined.

Lemma tcp_closed_raises_witness :
  let self := TcpTransport.set_socket None tcp_fresh.1 in
  TcpTransport.disconnect (self, tcp_world)
    = (Raise (TransportError "Socket is closed"), (self, tcp_world)) ∧
  BaseTransport.send [6] self tcp_world
    = (Raise (TransportError "Socket is closed"), tcp_world) ∧
  BaseTransport.recv 1 self tcp_world
    = (Raise (TransportError "Socket is closed"), tcp_world).
Proof. by apply tcp_closed_raises. Defined.

Lemma tcp_send_unwrapped_witness :
  BaseTransport.recv 1 tcp_fresh.1 tcp_fresh.2
    = (Raise (TransportError EmptyString), tcp_fresh.2) ∧
  BaseTransport.send [6] tcp_fresh.1 tcp_fresh.2 = (Raise OSError, tcp_fresh.2).
Proof. by eapply tcp_send_unwrapped. Defined.

Lemma tcp_reconnect_witness :
  (TcpTransport.disconnect ;;; TcpTransport.connect) tcp_fresh =
    (Ok tt,
     (TcpTransport.set_socket (Some (socket.mkSocket (Some (seconds 30)) true))
        tcp_fresh.1,
      connecting tcp_fresh.1 (open_handle (close_handle tcp_fresh.2)))).
Proof. by eapply tcp_reconnect. Defined.
