(* ===== verification/Framing.v ===== *)
(** * The block framing engine: [BaseTransport.read]

    [read] (lines 32-131 of transports.py) is two nested [while True] loops.
    The inner loop, [read_block], receives one byte at a time, discards bytes
    until a start character and collects bytes up to an end character, checking
    the elapsed time after every receive.  The rest of an iteration of the
    outer loop, [handle_block], receives the checksum byte and decides:
    return the block (a message that began with SOH), acknowledge and go on
    (a valid block ending in EOT), return the assembled message (a valid block
    ending in ETX), or send NACK and receive again.  [read_loop] is the outer
    loop and [read] the method.

    The variables of [read] that survive an iteration of the outer loop are
    the record [ReadVars].  Both loops take fuel; [read_block_mono] and
    [read_loop_mono] show that more fuel never changes a result.
    [read_block_scan] shows that the inner loop is the loop [scan] of [Scan]
    around the decision [block_byte], so that the lemmas about [scan] apply
    to it. *)

From Stdlib Require Import ZArith Lia.
From stdpp Require Import base tactics option list numbers strings.
From S2P Require Import Prelude Checksum World Transport Scan Serial.

#[local] Open Scope Z_scope.

(** ** The engine *)

(** Lines 41-42. *)
Definition start_chars : list bytes := [[1]; [2]].
Definition end_chars : list bytes := [[3]; [4]].

(** The locals of [read] that live across iterations of the outer loop
    (lines 43-47). *)
Record ReadVars : Type := mkVars {
  total_data : bytes;
  packets : nat;
  start_char_received : bool;
  start_char : option bytes;
  end_char : option bytes;
}.

#[export] Instance ReadVars_eq_dec : EqDecision ReadVars.
Proof. solve_decision. Defined.

Definition initial_vars : ReadVars := mkVars [] 0 false None None.

(** Assignments to those locals. *)
Definition set_start (b : bytes) (v : ReadVars) : ReadVars :=
  mkVars (total_data v) (packets v) true (Some b) (end_char v).
Definition set_end (b : bytes) (v : ReadVars) : ReadVars :=
  mkVars (total_data v) (packets v) (start_char_received v) (start_char v) (Some b).
Definition incr_packets (v : ReadVars) : ReadVars :=
  mkVars (total_data v) (S (packets v)) (start_char_received v) (start_char v)
    (end_char v).
Definition add_total (d : bytes) (v : ReadVars) : ReadVars :=
  mkVars (total_data v ++ d) (packets v) (start_char_received v) (start_char v)
    (end_char v).

(** How an iteration of the outer loop ends: [continue] or [break]. *)
Inductive ctl : Type :=
| Continue (v : ReadVars)
| Break (total_data : bytes).

Section Engine.
Context `{Transport T} `{Checksum} `{Constants}.

(** The inner loop (lines 55-78).  [start_time] is the clock at the top of
    the iteration of the outer loop; the comparison is with [self.timeout],
    whatever the [timeout] argument of [read] was. *)
Fixpoint read_block (fuel : nat) (self : T) (start_time : Z)
    (v : ReadVars) (in_data : bytes) (w : World)
    : run World (ReadVars * bytes) :=
  match fuel with
  | O => None
  | S fuel =>
    match BaseTransport.recv 1 self w with
    | (Raise e, w) => Some (Raise e, w)
    | (Ok b, w) =>
      let duration := now w - start_time in
      if decide (seconds (timeout self) < duration) then
        Some (Raise (timed_out self), w)
      else if negb (start_char_received v) then
        if decide (b ∈ start_chars) then
          read_block fuel self start_time (set_start b v) (in_data ++ b) w
        else
          read_block fuel self start_time v in_data w
      else
        if decide (b ∈ end_chars) then
          Some (Ok (set_end b v, in_data ++ b), w)
        else
          read_block fuel self start_time v (in_data ++ b) w
    end
  end.

(** [in_data[1:]] when more than one packet was counted (lines 106-108 and
    120-121). *)
Definition strip_stx (v : ReadVars) (in_data : bytes) : bytes :=
  if decide (1 < packets v)%nat then slice_from 1 in_data else in_data.

(** The rest of an iteration of the outer loop (lines 80-129). *)
Definition handle_block (self : T) (v : ReadVars) (in_data : bytes)
    : M World ctl :=
  let v := incr_packets v in
  bcc ← BaseTransport.recv 1 self;
  let in_data := in_data ++ bcc in
  logger (LogReceived in_data (class_name self)) ;;;
  if decide (start_char v = Some [1]) then
    mret (Break (total_data v ++ in_data))
  else if decide (end_char v = Some [4]) then
    if negb (bcc_valid in_data) then
      BaseTransport.send (encode NACK) self ;;;
      mret (Continue v)
    else
      BaseTransport.send (encode ACK) self ;;;
      let in_data := slice_to_neg 2 in_data ++ encode LINE_END in
      let in_data := strip_stx v in_data in
      mret (Continue (add_total in_data v))
  else if decide (end_char v = Some [3]) then
    if negb (bcc_valid in_data) then
      BaseTransport.send (encode NACK) self ;;;
      mret (Continue v)
    else
      let in_data := strip_stx v in_data in
      let total_data := total_data v ++ in_data in
      let total_data :=
        if decide (1 < packets v)%nat then add_bcc (slice_to_neg 1 total_data)
        else total_data in
      mret (Break total_data)
  else
    mret (Continue v).

(** The outer loop (lines 50-129): a fresh [in_data] and [start_time], the
    inner loop, then [handle_block]. *)
Fixpoint read_loop (fuel : nat) (self : T) (v : ReadVars) (w : World)
    : run World bytes :=
  match fuel with
  | O => None
  | S fuel =>
    let start_time := now w in
    match read_block fuel self start_time v [] w with
    | None => None
    | Some (Raise e, w) => Some (Raise e, w)
    | Some (Ok (v, in_data), w) =>
      match handle_block self v in_data w with
      | (Raise e, w) => Some (Raise e, w)
      | (Ok (Break total_data), w) => Some (Ok total_data, w)
      | (Ok (Continue v), w) => read_loop fuel self v w
      end
    end
  end.

(** [read] (lines 32-131).  Line 48 rebinds the argument [timeout]; nothing
    reads it afterwards. *)
Definition read (fuel : nat) (timeout_arg : option Z) (self : T) (w : World)
    : run World bytes :=
  let timeout_arg := py_or timeout_arg (timeout self) in
  read_loop fuel self initial_vars w.

End Engine.

(** ** The inner loop is a scan *)

(** What the inner loop does with a byte received before the deadline
    (lines 61-78): it goes on with new locals, or leaves the loop. *)
Definition block_byte (l : ReadVars * bytes) (b : bytes)
    : ReadVars * bytes + ReadVars * bytes :=
  let '(v, in_data) := l in
  if negb (start_char_received v) then
    if decide (b ∈ start_chars) then inl (set_start b v, in_data ++ b)
    else inl (v, in_data)
  else if decide (b ∈ end_chars) then inr (set_end b v, in_data ++ b)
  else inl (v, in_data ++ b).

(** The locals of the inner loop after the bytes [bs], none of which ends
    the block; [None] when one of them does. *)
Definition absorb (v : ReadVars) (in_data bs : bytes) : option (ReadVars * bytes) :=
  feed block_byte (v, in_data) bs.

Lemma nil_not_end : [] ∉ end_chars.
Proof. by apply (bool_decide_unpack _). Qed.

(** A receive that returns no bytes changes no local. *)
Lemma block_byte_nil l : block_byte l [] = inl l.
Proof.
  destruct l as [v in_data]. unfold block_byte.
  by destruct (start_char_received v); simpl; rewrite ?app_nil_r.
Qed.

(** Before the start character the bytes that are no start character are
    discarded. *)
Lemma absorb_skip v in_data junk s :
  start_char_received v = false →
  Forall (λ b, [b] ∉ start_chars) junk → [s] ∈ start_chars →
  absorb v in_data (junk ++ [s]) = Some (set_start [s] v, in_data ++ [s]).
Proof.
  intros Hv Hjunk Hs. unfold absorb.
  induction Hjunk as [| b junk Hb _ IH]; simpl; rewrite Hv; simpl.
  - by rewrite decide_True.
  - by rewrite decide_False.
Qed.

(** Past the start character the bytes that are no end character are
    appended. *)
Lemma absorb_collect v in_data body :
  start_char_received v = true →
  Forall (λ b, [b] ∉ end_chars) body →
  absorb v in_data body = Some (v, in_data ++ body).
Proof.
  intros Hv Hbody. unfold absorb. revert in_data.
  induction Hbody as [| b body Hb _ IH]; intros in_data; simpl.
  - by rewrite app_nil_r.
  - rewrite Hv. simpl. rewrite decide_False by done.
    by rewrite IH, <- app_assoc.
Qed.

Section Fuel.
Context `{Transport T} `{Checksum} `{Constants}.
Implicit Types (self : T) (v : ReadVars) (w : World).

(** The inner loop of [read] is the loop [scan] around [block_byte]. *)
Lemma read_block_scan fuel self st v in_data w :
  read_block fuel self st v in_data w =
    scan block_byte fuel self st (v, in_data) w.
Proof.
  revert v in_data w. induction fuel as [| fuel IH]; intros v in_data w; simpl;
    [done |].
  destruct (BaseTransport.recv 1 self w) as [[b | e] w1]; [| done].
  case_decide; [done |].
  by destruct (start_char_received v); simpl; case_decide.
Qed.

(** More fuel does not change a result of the inner loop. *)
Lemma read_block_mono fuel fuel' self st v in_data w r :
  (fuel ≤ fuel')%nat →
  read_block fuel self st v in_data w = Some r →
  read_block fuel' self st v in_data w = Some r.
Proof. rewrite !read_block_scan. apply scan_mono. Qed.

(** More fuel does not change a result of the outer loop. *)
Lemma read_loop_mono fuel fuel' self v w r :
  (fuel ≤ fuel')%nat →
  read_loop fuel self v w = Some r →
  read_loop fuel' self v w = Some r.
Proof.
  revert fuel' v w.
  induction fuel as [| fuel IH]; intros [| fuel'] v w Hle; simpl;
    [done | done | lia |].
  destruct (read_block fuel self (now w) v [] w) as [[[[v1 d] | e] w1] |] eqn:Hb;
    [| | done].
  - rewrite (read_block_mono fuel fuel' _ _ _ _ _ _ ltac:(lia) Hb).
    destruct (handle_block self v1 d w1) as [[[v2 | t] | e] w2]; try done.
    apply IH. lia.
  - by rewrite (read_block_mono fuel fuel' _ _ _ _ _ _ ltac:(lia) Hb).
Qed.

End Fuel.

(** ** The inner loop on a script *)

Section InnerLoop.
Context `{TransportLaws T} `{Checksum} `{Constants}.
Implicit Types (self : T) (v : ReadVars) (w : World).

(** Past the start character: the bytes up to and including the first end
    character are appended to [in_data], provided they arrive before the
    deadline. *)
Lemma read_block_collect self tmo st v body e :
  ∀ fuel evs rest in_data w,
  link self = Timed tmo →
  start_char_received v = true →
  Forall (λ b, [b] ∉ end_chars) body → [e] ∈ end_chars →
  delivers tmo evs (body ++ [e]) →
  rx w = evs ++ rest →
  now w + script_time evs - st ≤ seconds (timeout self) →
  (length evs ≤ fuel)%nat →
  read_block fuel self st v in_data w =
    Some (Ok (set_end [e] v, in_data ++ body ++ [e]),
          with_rx rest (tick (script_time evs) w)).
Proof.
  intros fuel evs rest in_data w Hl Hv Hbody He Hevs Hrx Ht Hf.
  rewrite read_block_scan, app_assoc.
  apply (scan_through block_byte self tmo Hl st body e _ (v, in_data ++ body));
    try done; [by apply absorb_collect |].
  simpl. rewrite Hv. simpl. by rewrite decide_True.
Qed.

(** Before the start character: bytes that are no start character are
    discarded, and the loop goes on after the first start character with that
    character in [in_data]. *)
Lemma read_block_skip self tmo st v junk s :
  ∀ fuel evs rest in_data w,
  link self = Timed tmo →
  start_char_received v = false →
  Forall (λ b, [b] ∉ start_chars) junk → [s] ∈ start_chars →
  delivers tmo evs (junk ++ [s]) →
  rx w = evs ++ rest →
  now w + script_time evs - st ≤ seconds (timeout self) →
  read_block (length evs + fuel) self st v in_data w =
    read_block fuel self st (set_start [s] v) (in_data ++ [s])
      (with_rx rest (tick (script_time evs) w)).
Proof.
  intros fuel evs rest in_data w Hl Hv Hjunk Hs Hevs Hrx Ht.
  rewrite !read_block_scan.
  by apply (scan_feed block_byte self tmo Hl st (junk ++ [s]));
    [apply absorb_skip | ..].
Qed.

End InnerLoop.

(** ** One iteration of the outer loop *)

Lemma stx_start : [2] ∈ start_chars.
Proof. by apply (bool_decide_unpack _). Qed.
Lemma soh_start : [1] ∈ start_chars.
Proof. by apply (bool_decide_unpack _). Qed.
Lemma etx_end : [3] ∈ end_chars.
Proof. by apply (bool_decide_unpack _). Qed.
Lemma eot_end : [4] ∈ end_chars.
Proof. by apply (bool_decide_unpack _). Qed.
Lemma stx_not_end : [2] ∉ end_chars.
Proof. by apply (bool_decide_unpack _). Qed.
Lemma soh_not_end : [1] ∉ end_chars.
Proof. by apply (bool_decide_unpack _). Qed.

Lemma end_chars_inv e : [e] ∈ end_chars → e = 3 ∨ e = 4.
Proof.
  unfold end_chars. rewrite !elem_of_cons, elem_of_nil.
  intros [Heq | [Heq | []]]; simplify_eq; auto.
Qed.

#[export] Hint Resolve stx_start soh_start etx_end eot_end stx_not_end
  soh_not_end : iec.

(** A payload has no end character in it. *)
Definition clean (p : bytes) : Prop := Forall (λ b, [b] ∉ end_chars) p.

(** Bytes with no start character among them. *)
Definition noise (junk : bytes) : Prop := Forall (λ b, [b] ∉ start_chars) junk.

(** The variables of a read that has not met a start character yet. *)
Definition fresh (v : ReadVars) : Prop := start_char_received v = false.

(** The variables of a read whose first start character was STX. *)
Definition in_stream (v : ReadVars) : Prop :=
  start_char_received v = true ∧ start_char v = Some [2].

#[export] Instance clean_dec p : Decision (clean p).
Proof. unfold clean. apply _. Defined.
#[export] Instance noise_dec p : Decision (noise p).
Proof. unfold noise. apply _. Defined.

Lemma set_start_in_stream v : in_stream v → set_start [2] v = v.
Proof. destruct v. intros [? ?]. simpl in *. by subst. Qed.

(** ** The verdict on a block *)

(** What [handle_block] decides is a function of the variables and of the
    block; what it does besides is to receive the checksum byte, log the
    block and send the reply. *)
Inductive reply : Type := NoReply | SendAck | SendNack.

#[export] Instance reply_eq_dec : EqDecision reply.
Proof. solve_decision. Defined.

Section Verdict.
Context `{Checksum} `{Constants}.
Implicit Types (v : ReadVars) (blk : bytes).

(** The decision table of lines 88-129, for the variables after
    [packets += 1] and the block with its checksum byte. *)
Definition verdict v blk : ctl * reply :=
  if decide (start_char v = Some [1]) then
    (Break (total_data v ++ blk), NoReply)
  else if decide (end_char v = Some [4]) then
    if bcc_valid blk then
      (Continue (add_total
         (strip_stx v (slice_to_neg 2 blk ++ encode LINE_END)) v), SendAck)
    else (Continue v, SendNack)
  else if decide (end_char v = Some [3]) then
    if bcc_valid blk then
      (Break (if decide (1 < packets v)%nat
              then add_bcc (slice_to_neg 1 (total_data v ++ strip_stx v blk))
              else total_data v ++ strip_stx v blk), NoReply)
    else (Continue v, SendNack)
  else (Continue v, NoReply).

Definition reply_bytes (r : reply) : bytes :=
  match r with
  | NoReply => []
  | SendAck => encode ACK
  | SendNack => encode NACK
  end.

Lemma verdict_soh v blk :
  start_char v = Some [1] →
  verdict v blk = (Break (total_data v ++ blk), NoReply).
Proof. intros Hs. unfold verdict. by rewrite decide_True. Qed.

Lemma verdict_eot v blk :
  start_char v = Some [2] → end_char v = Some [4] → bcc_valid blk = true →
  verdict v blk =
    (Continue (add_total
       (strip_stx v (slice_to_neg 2 blk ++ encode LINE_END)) v), SendAck).
Proof.
  intros Hs He Hb. unfold verdict.
  rewrite decide_False by (by rewrite Hs). by rewrite decide_True, Hb.
Qed.

Lemma verdict_etx v blk :
  start_char v = Some [2] → end_char v = Some [3] → bcc_valid blk = true →
  verdict v blk =
    (Break (if decide (1 < packets v)%nat
            then add_bcc (slice_to_neg 1 (total_data v ++ strip_stx v blk))
            else total_data v ++ strip_stx v blk), NoReply).
Proof.
  intros Hs He Hb. unfold verdict.
  rewrite decide_False by (by rewrite Hs).
  rewrite decide_False by (by rewrite He). by rewrite decide_True, Hb.
Qed.

Lemma verdict_invalid v blk e :
  start_char v = Some [2] → end_char v = Some [e] → [e] ∈ end_chars →
  bcc_valid blk = false →
  verdict v blk = (Continue v, SendNack).
Proof.
  intros Hs He Hin Hb. unfold verdict.
  rewrite decide_False by (by rewrite Hs). rewrite He, Hb.
  destruct (end_chars_inv e Hin) as [-> | ->]; by repeat case_decide.
Qed.

End Verdict.

(** ** One iteration of the outer loop *)

Section Handle.
Context `{TransportLaws T} `{Checksum} `{Constants}.
Implicit Types (v : ReadVars) (w : World).

(** The world after the checksum byte was received and the block logged. *)
Definition received (self : T) (in_data : bytes) (d : Z) (rest : list RxEvent)
    (w : World) : World :=
  log_record (LogReceived in_data (class_name self)) (with_rx rest (tick d w)).

(** The world after a reply was sent and logged. *)
Definition replied (self : T) (r : reply) (w : World) : World :=
  match r with
  | NoReply => w
  | _ => log_record (LogSent (reply_bytes r) (class_name self))
           (line_write (reply_bytes r) w)
  end.

Lemma replied_rx self r w : rx (replied self r w) = rx w.
Proof. by destruct r. Qed.

Lemma received_tick self blk d t rest r w :
  received self blk d rest (with_rx r (tick t w)) =
  received self blk (t + d) rest w.
Proof. unfold received. f_equal. world_eq. Qed.

(** The reply goes through: none is due, or the line is up. *)
Definition answerable (r : reply) (w : World) : Prop :=
  r = NoReply ∨ line_up w = true.

#[export] Instance answerable_dec r w : Decision (answerable r w).
Proof. unfold answerable. apply _. Defined.

(** What becomes of a verdict when its reply is sent: the verdict stands
    when the reply goes through; when the line does not take it, the send
    raises and the verdict is lost. *)
Definition answer (self : T) (vd : ctl * reply) (w : World)
    : result ctl * World :=
  if decide (answerable vd.2 w) then (Ok vd.1, replied self vd.2 w)
  else (Raise on_down, w).

(** The verdicts that end the read need no line to write to. *)
Lemma answerable_soh v blk w :
  start_char v = Some [1] → answerable (verdict v blk).2 w.
Proof. intros Hs. rewrite verdict_soh by done. by left. Qed.

Lemma answerable_etx v blk w :
  start_char v = Some [2] → end_char v = Some [3] → bcc_valid blk = true →
  answerable (verdict v blk).2 w.
Proof. intros Hs He Hb. rewrite verdict_etx by done. by left. Qed.

Lemma answer_silent self k w : answer self (k, NoReply) w = (Ok k, w).
Proof. unfold answer. by rewrite decide_True by (by left). Qed.

Lemma answer_send self r k w :
  link self ≠ Closed → r ≠ NoReply →
  (BaseTransport.send (reply_bytes r) self ;;; mret k) w = answer self (k, r) w.
Proof.
  intros Hl Hr. unfold answer. simpl. destruct (line_up w) eqn:Hup.
  - rewrite decide_True by (by right).
    rewrite (bind_ok _ _ _ tt _ (send_ok _ _ _ Hl Hup)). by destruct r.
  - rewrite decide_False by (intros [? | ?]; congruence).
    by rewrite (bind_raise _ _ _ _ _ (send_down _ _ _ Hl Hup)).
Qed.

(** [handle_block] when the receive of the checksum byte returns [x],
    whatever the transport and the line: the block is logged, and the rest
    is the answer to the verdict. *)
Lemma handle_block_recv self v in_data w x w1 :
  BaseTransport.recv 1 self w = (Ok x, w1) →
  handle_block self v in_data w =
    answer self (verdict (incr_packets v) (in_data ++ x))
      (log_record (LogReceived (in_data ++ x) (class_name self)) w1).
Proof.
  intros Hr. pose proof (recv_ok_link _ _ _ _ _ Hr) as Hl.
  unfold handle_block. rewrite (bind_ok _ _ _ _ _ Hr).
  set (w2 := log_record _ w1). rewrite (bind_ok _ _ _ tt w2) by done.
  unfold verdict.
  repeat case_decide; try destruct (bcc_valid (in_data ++ x)); simpl;
    rewrite ?answer_silent; try done;
    first [ by apply (answer_send self SendAck)
          | by apply (answer_send self SendNack) ].
Qed.

(** [handle_block] when it does not raise: the receive returned some [x],
    the verdict is on the block with [x], and its reply went through. *)
Lemma handle_block_returns self v in_data w k w' :
  handle_block self v in_data w = (Ok k, w') →
  ∃ x w1, BaseTransport.recv 1 self w = (Ok x, w1) ∧
    let vd := verdict (incr_packets v) (in_data ++ x) in
    k = vd.1 ∧ answerable vd.2 w1 ∧
    w' = replied self vd.2
           (log_record (LogReceived (in_data ++ x) (class_name self)) w1).
Proof.
  destruct (BaseTransport.recv 1 self w) as [[x | e] w1] eqn:Hr.
  - rewrite (handle_block_recv _ _ _ _ _ _ Hr). unfold answer.
    case_decide; intros [= <- <-]. by exists x, w1.
  - unfold handle_block. by rewrite (bind_raise _ _ _ _ _ Hr).
Qed.

(** The rest of an iteration after its receive takes nothing from the
    line. *)
Lemma handle_block_rx self v in_data w r w' :
  handle_block self v in_data w = (r, w') →
  ∃ b w1, BaseTransport.recv 1 self w = (b, w1) ∧ rx w' = rx w1.
Proof.
  destruct (BaseTransport.recv 1 self w) as [[x | e] w1] eqn:Hr.
  - rewrite (handle_block_recv _ _ _ _ _ _ Hr). unfold answer.
    case_decide; intros [= _ <-]; exists (Ok x), w1; by rewrite ?replied_rx.
  - unfold handle_block. rewrite (bind_raise _ _ _ _ _ Hr).
    intros [= _ <-]. by exists (Raise e), w1.
Qed.

(** [handle_block] raises: the receive of the check byte raised, or it
    returned and the line did not take the reply that was due; the block is
    in the log then, and nothing was written. *)
Lemma handle_block_raises self v in_data w e w' :
  handle_block self v in_data w = (Raise e, w') →
  BaseTransport.recv 1 self w = (Raise e, w') ∨
  ∃ x w1, BaseTransport.recv 1 self w = (Ok x, w1) ∧
    ¬ answerable (verdict (incr_packets v) (in_data ++ x)).2 w1 ∧
    w' = log_record (LogReceived (in_data ++ x) (class_name self)) w1.
Proof.
  destruct (BaseTransport.recv 1 self w) as [[x | e1] w1] eqn:Hr.
  - rewrite (handle_block_recv _ _ _ _ _ _ Hr). unfold answer.
    case_decide; intros [= <- <-]. right. by exists x, w1.
  - unfold handle_block. rewrite (bind_raise _ _ _ _ _ Hr).
    intros [= <- <-]. by left.
Qed.

(** [handle_block] when the checksum byte [c] is due in time and the reply
    goes through: the verdict on the block, after the effects. *)
Lemma handle_block_verdict self tmo v in_data w d c rest :
  link self = Timed tmo → rx w = mkRx d (RxBytes [c]) :: rest → d ≤ tmo →
  answerable (verdict (incr_packets v) (in_data ++ [c])).2 w →
  handle_block self v in_data w =
    (Ok (verdict (incr_packets v) (in_data ++ [c])).1,
     replied self (verdict (incr_packets v) (in_data ++ [c])).2
       (received self (in_data ++ [c]) d rest w)).
Proof.
  intros Hl Hrx Hd Ha.
  rewrite (handle_block_recv _ _ _ _ _ _ (recv_byte self tmo w d c rest Hl Hrx Hd)).
  unfold answer. by rewrite decide_True.
Qed.

(** How a read may enter a block: fresh, after noise, at a start
    character; or in the stream of blocks, at STX, with nothing between the
    blocks. *)
Definition entry (v : ReadVars) (junk : bytes) (s : byte) : Prop :=
  (fresh v ∧ noise junk ∧ [s] ∈ start_chars) ∨
  (in_stream v ∧ junk = [] ∧ s = 2).

Lemma entry_initial junk s :
  noise junk → [s] ∈ start_chars → entry initial_vars junk s.
Proof. by left. Qed.

Section Steps.
Variables (self : T) (tmo : Z).
Hypothesis Hlink : link self = Timed tmo.

(** The inner loop on one block of a fresh read: noise, a start character,
    the payload, an end character. *)
Lemma read_block_frame st v junk s p e fuel evs rest w :
  fresh v → noise junk → [s] ∈ start_chars →
  clean p → [e] ∈ end_chars →
  delivers tmo evs ((junk ++ [s]) ++ p ++ [e]) →
  rx w = evs ++ rest →
  now w + script_time evs - st ≤ seconds (timeout self) →
  (length evs ≤ fuel)%nat →
  read_block fuel self st v [] w =
    Some (Ok (set_end [e] (set_start [s] v), [s] ++ p ++ [e]),
          with_rx rest (tick (script_time evs) w)).
Proof.
  intros Hv Hjunk Hs Hp He Hevs Hrx Ht Hf.
  apply delivers_app_inv in Hevs as (evs1 & evs2 & -> & Hevs1 & Hevs2).
  pose proof (delivers_nonneg _ _ _ Hevs1).
  pose proof (delivers_nonneg _ _ _ Hevs2).
  rewrite script_time_app in Ht |- *. rewrite length_app in Hf.
  rewrite <- app_assoc in Hrx.
  replace fuel with (length evs1 + (fuel - length evs1))%nat by lia.
  rewrite (read_block_skip self tmo st v junk s _ evs1 (evs2 ++ rest) [] w);
    [| first [done | lia] ..].
  rewrite (read_block_collect self tmo st (set_start [s] v) p e _ evs2 rest);
    [apply run_eq; [done | world_eq] | first [done | simpl; lia] ..].
Qed.

(** The inner loop on a block that follows another one. *)
Lemma read_block_next st v p e fuel evs rest w :
  in_stream v → clean p → [e] ∈ end_chars →
  delivers tmo evs ([2] ++ p ++ [e]) →
  rx w = evs ++ rest →
  now w + script_time evs - st ≤ seconds (timeout self) →
  (length evs ≤ fuel)%nat →
  read_block fuel self st v [] w =
    Some (Ok (set_end [e] (set_start [2] v), [2] ++ p ++ [e]),
          with_rx rest (tick (script_time evs) w)).
Proof.
  intros Hv Hp He Hevs Hrx Ht Hf.
  rewrite (set_start_in_stream _ Hv). destruct Hv as [Hv1 Hv2].
  apply (read_block_collect self tmo st v (2 :: p) e fuel evs rest [] w);
    try done.
  constructor; [apply stx_not_end | done].
Qed.

Lemma read_block_entry st v junk s p e fuel evs rest w :
  entry v junk s → clean p → [e] ∈ end_chars →
  delivers tmo evs ((junk ++ [s]) ++ p ++ [e]) →
  rx w = evs ++ rest →
  now w + script_time evs - st ≤ seconds (timeout self) →
  (length evs ≤ fuel)%nat →
  read_block fuel self st v [] w =
    Some (Ok (set_end [e] (set_start [s] v), [s] ++ p ++ [e]),
          with_rx rest (tick (script_time evs) w)).
Proof.
  intros [(Hv & Hjunk & Hs) | (Hv & -> & ->)] Hp He Hevs Hrx Ht Hf.
  - by apply (read_block_frame st v junk s p e fuel evs rest w).
  - by apply read_block_next.
Qed.

(** One iteration of the outer loop on a block with its checksum byte [c],
    arriving in time: the block is logged, and the loop goes on, returns or
    raises as the answer to the verdict says. *)
Lemma read_loop_block v junk s p e c fuel evs rest w :
  entry v junk s → clean p → [e] ∈ end_chars →
  delivers tmo evs (((junk ++ [s]) ++ p ++ [e]) ++ [c]) →
  rx w = evs ++ rest →
  script_time evs ≤ seconds (timeout self) →
  (length evs ≤ fuel)%nat →
  read_loop (S fuel) self v w =
    let v1 := incr_packets (set_end [e] (set_start [s] v)) in
    let blk := ([s] ++ p ++ [e]) ++ [c] in
    match answer self (verdict v1 blk)
            (received self blk (script_time evs) rest w) with
    | (Raise err, w1) => Some (Raise err, w1)
    | (Ok (Break total_data), w1) => Some (Ok total_data, w1)
    | (Ok (Continue v2), w1) => read_loop fuel self v2 w1
    end.
Proof.
  intros Hv Hp He Hevs Hrx Ht Hf.
  apply delivers_app_inv in Hevs as (evs1 & evs2 & -> & Hevs1 & Hevs2).
  apply delivers_cons_inv in Hevs2 as (d & ? & -> & Hd & ->%delivers_nil_inv).
  pose proof (delivers_nonneg _ _ _ Hevs1).
  rewrite script_time_app in Ht |- *. rewrite length_app in Hf.
  rewrite <- app_assoc in Hrx. simpl in Ht, Hf, Hrx |- *.
  rewrite (read_block_entry (now w) v junk s p e fuel evs1 _ w Hv Hp He Hevs1 Hrx)
    by lia.
  erewrite (handle_block_recv self _ _ _ [c])
    by (by apply (recv_byte self tmo _ d c rest Hlink); [| lia]).
  fold (received self (([s] ++ p ++ [e]) ++ [c]) d rest
          (with_rx (mkRx d (RxBytes [c]) :: rest) (tick (script_time evs1) w))).
  by rewrite !received_tick, Z.add_0_r.
Qed.

(** The iteration when the reply goes through: the loop goes on or returns
    as the verdict says. *)
Lemma read_loop_step v junk s p e c fuel evs rest w :
  entry v junk s → clean p → [e] ∈ end_chars →
  delivers tmo evs (((junk ++ [s]) ++ p ++ [e]) ++ [c]) →
  rx w = evs ++ rest →
  script_time evs ≤ seconds (timeout self) →
  (length evs ≤ fuel)%nat →
  answerable (verdict (incr_packets (set_end [e] (set_start [s] v)))
                (([s] ++ p ++ [e]) ++ [c])).2 w →
  read_loop (S fuel) self v w =
    let v1 := incr_packets (set_end [e] (set_start [s] v)) in
    let blk := ([s] ++ p ++ [e]) ++ [c] in
    let w1 := replied self (verdict v1 blk).2
                (received self blk (script_time evs) rest w) in
    match (verdict v1 blk).1 with
    | Break total_data => Some (Ok total_data, w1)
    | Continue v2 => read_loop fuel self v2 w1
    end.
Proof.
  intros Hv Hp He Hevs Hrx Ht Hf Ha.
  rewrite (read_loop_block v junk s p e c fuel evs rest w) by done.
  unfold answer. rewrite decide_True by exact Ha.
  by destruct (verdict _ _) as [[] ?].
Qed.

(** The iteration when the line does not take the reply: the block is
    consumed and logged, and the send raises. *)
Lemma read_loop_down v junk s p e c fuel evs rest w :
  entry v junk s → clean p → [e] ∈ end_chars →
  delivers tmo evs (((junk ++ [s]) ++ p ++ [e]) ++ [c]) →
  rx w = evs ++ rest →
  script_time evs ≤ seconds (timeout self) →
  (length evs ≤ fuel)%nat →
  ¬ answerable (verdict (incr_packets (set_end [e] (set_start [s] v)))
                  (([s] ++ p ++ [e]) ++ [c])).2 w →
  read_loop (S fuel) self v w =
    Some (Raise on_down,
          received self (([s] ++ p ++ [e]) ++ [c]) (script_time evs) rest w).
Proof.
  intros Hv Hp He Hevs Hrx Ht Hf Ha.
  rewrite (read_loop_block v junk s p e c fuel evs rest w) by done.
  unfold answer. by rewrite decide_False by exact Ha.
Qed.

End Steps.
End Handle.

(** ** [read] and its fuel, [read] without a link *)

Section Read.
Context `{TransportLaws T} `{Checksum} `{Constants}.
Implicit Types (self : T) (v : ReadVars) (w : World).

Lemma read_loop_nolink self v fuel w :
  link self = Closed → (1 < fuel)%nat →
  ∃ e, read_loop fuel self v w = Some (Raise e, w).
Proof.
  intros Hl Hf. destruct (recv_nolink self 1 Hl) as [e He]. exists e.
  destruct fuel as [| [| fuel]]; [lia | lia |]. simpl.
  unfold BaseTransport.recv. by rewrite He.
Qed.

(** [read] on a transport without a link raises at the first receive
    and changes nothing. *)
Lemma read_closed self timeout_arg fuel w :
  link self = Closed → (1 < fuel)%nat →
  ∃ e, read fuel timeout_arg self w = Some (Raise e, w).
Proof. intros. unfold read. by apply read_loop_nolink. Qed.

(** Fuel only bounds the run: when [read] returns or raises with some fuel,
    it does the same with any more. *)
Lemma read_mono self timeout_arg fuel fuel' w r :
  (fuel ≤ fuel')%nat →
  read fuel timeout_arg self w = Some r →
  read fuel' timeout_arg self w = Some r.
Proof. unfold read. apply read_loop_mono. Qed.

End Read.

(** ** Concrete runs *)

Lemma read_closed_witness :
  ∃ e, read 2 None (SerialTransport.__init__ "/dev/ttyUSB0" 10) (world_of [])
         = Some (Raise e, world_of []).
Proof. apply read_closed; concrete. Defined.
