(* ===== verification/Messages.v ===== *)
(** * Messages of blocks: what [read] returns

    The reference definitions of this file say what a message is on the wire
    ([frame], [wire], [command]) and what [read] is to make of it
    ([reassemble], [acks], [read_log], [finished]).  The theorems relate the
    engine of [Framing] to them: a message of one or of several blocks, a
    message that begins with SOH, blocks that fail their checksum, bytes
    between blocks.  They are proved for every transport that satisfies
    [TransportLaws] and every [Checksum]; the witnesses run the engine on a
    serial transport. *)

From Stdlib Require Import ZArith Lia.
From stdpp Require Import base tactics option list numbers strings.
From S2P Require Import Prelude Checksum World Transport Serial Framing.

#[local] Open Scope Z_scope.

Section Messages.
Context `{TransportLaws T} `{Checksum} `{Constants}.
Implicit Types (v : ReadVars) (w : World).

(** ** Reference definitions *)

(** A block on the wire: STX, the payload, the end character, the check. *)
Definition frame (e : byte) (p : bytes) : bytes := add_bcc ([2] ++ p ++ [e]).

(** A message on the wire: blocks ending in EOT, then one ending in ETX. *)
Definition wire (qs : list bytes) (p : bytes) : bytes :=
  concat (map (frame 4) qs) ++ frame 3 p.

(** A command message on the wire: SOH, the body, the end character, and
    the byte after it. *)
Definition command (body : bytes) (e c : byte) : bytes :=
  ([1] ++ body ++ [e]) ++ [c].

(** The payloads of the partial blocks, each followed by the line end. *)
Definition joined (qs : list bytes) : bytes :=
  concat (map (λ q, q ++ encode LINE_END) qs).

(** The message [read] is to return for the blocks [qs] and [p]: the only
    block as it came; several blocks as one block with a checksum of its
    own. *)
Definition reassemble (qs : list bytes) (p : bytes) : bytes :=
  match qs with
  | [] => frame 3 p
  | _ => add_bcc ([2] ++ joined qs ++ p ++ [3])
  end.

(** What [read] sends and logs on the way. *)
Definition acks (qs : list bytes) : bytes :=
  concat (map (λ _, encode ACK) qs).

Definition read_log (cls : string) (qs : list bytes) (p : bytes)
    : list LogRecord :=
  concat (map (λ q, [LogReceived (frame 4 q) cls; LogSent (encode ACK) cls]) qs)
  ++ [LogReceived (frame 3 p) cls].

(** The world when [read] returns. *)
Definition finished (self : T) (evs rest : list RxEvent) (qs : list bytes)
    (p : bytes) (w : World) : World :=
  mkWorld (now w + script_time evs) (line_up w) rest (tx w ++ acks qs)
    (handles w) (log w ++ read_log (class_name self) qs p).

(** ** Frames *)

Lemma frame_snoc e p :
  frame e p = ([2] ++ p ++ [e]) ++ [bcc ([2] ++ p ++ [e])].
Proof. apply add_bcc_snoc. Qed.

Lemma frame_valid e p : bcc_valid (frame e p) = true.
Proof. apply bcc_valid_add_bcc. Qed.

Lemma frame_body e p : slice_to_neg 2 (frame e p) = [2] ++ p.
Proof.
  rewrite frame_snoc, <- !app_assoc, !app_assoc, <- (app_assoc _ [e]).
  apply (slice_to_neg_app ([2] ++ p) [e; _]).
Qed.

Lemma frame_tail e p :
  slice_from 1 (frame e p) = p ++ [e] ++ [bcc ([2] ++ p ++ [e])].
Proof. rewrite frame_snoc. simpl. by rewrite <- app_assoc. Qed.

Lemma frame_length e p : length (frame e p) = (length p + 3)%nat.
Proof. rewrite frame_snoc, !length_app. simpl. lia. Qed.

Lemma frame_snoc_valid e p :
  bcc_valid (([2] ++ p ++ [e]) ++ [bcc ([2] ++ p ++ [e])]) = true.
Proof. rewrite <- frame_snoc. apply frame_valid. Qed.

(** The reassembled message carries a checksum that validates. *)
Lemma reassemble_valid qs p : bcc_valid (reassemble qs p) = true.
Proof. destruct qs; [apply frame_valid | apply bcc_valid_add_bcc]. Qed.

Section Steps.
Variables (self : T) (tmo : Z).
Hypothesis Hlink : link self = Timed tmo.

(** ** Several blocks *)

(** The last block of several. *)
Lemma read_loop_last v p evs rest fuel w :
  in_stream v → (1 ≤ packets v)%nat → clean p →
  delivers tmo evs (frame 3 p) →
  rx w = evs ++ rest →
  script_time evs ≤ seconds (timeout self) →
  (length evs < fuel)%nat →
  read_loop fuel self v w =
    Some (Ok (add_bcc (total_data v ++ p ++ [3])), finished self evs rest [] p w).
Proof.
  intros Hv Hk Hp Hevs Hrx Ht Hf. destruct fuel as [| fuel]; [lia |].
  rewrite frame_snoc in Hevs.
  rewrite (read_loop_step self tmo Hlink v [] 2 p 3 (bcc ([2] ++ p ++ [3]))
             fuel evs rest w);
    [| by right | done | auto with iec | done | done | done | lia
     | by apply answerable_etx; [| | apply frame_snoc_valid]].
  cbv zeta. rewrite <- frame_snoc.
  rewrite verdict_etx by (done || apply frame_valid).
  unfold strip_stx. simpl packets. rewrite !decide_True by lia.
  rewrite frame_tail. apply run_eq.
  - f_equal. cbn [total_data incr_packets set_end set_start].
    by rewrite !app_assoc, slice_to_neg_snoc, <- !app_assoc.
  - unfold received, finished, acks, read_log. world_eq.
Qed.

(** A partial block: acknowledged, and the loop goes on with the payload
    and a line end added to the message so far. *)
Lemma read_loop_partial v junk q evs rest fuel w :
  entry v junk 2 → clean q →
  delivers tmo evs (junk ++ frame 4 q) →
  rx w = evs ++ rest →
  script_time evs ≤ seconds (timeout self) →
  (length evs ≤ fuel)%nat →
  line_up w = true →
  read_loop (S fuel) self v w =
    read_loop fuel self
      (add_total (strip_stx (incr_packets v) ([2] ++ q ++ encode LINE_END))
         (incr_packets (set_end [4] (set_start [2] v))))
      (replied self SendAck (received self (frame 4 q) (script_time evs) rest w)).
Proof.
  intros Hv Hq Hevs Hrx Ht Hf Hup.
  rewrite frame_snoc, !app_assoc, <- (app_assoc _ q) in Hevs.
  rewrite (read_loop_step self tmo Hlink v junk 2 q 4 (bcc ([2] ++ q ++ [4]))
             fuel evs rest w);
    [| done | done | auto with iec | done | done | done | lia | by right].
  cbv zeta. rewrite <- frame_snoc.
  rewrite verdict_eot by (done || apply frame_valid).
  by rewrite frame_body.
Qed.

(** The blocks after the first: the message so far is extended by the
    payloads and closed with a checksum of the whole. *)
Lemma read_loop_blocks p rest qs :
  ∀ v w evs fuel,
  in_stream v → (1 ≤ packets v)%nat →
  Forall clean qs → clean p →
  delivers tmo evs (wire qs p) →
  rx w = evs ++ rest →
  script_time evs ≤ seconds (timeout self) →
  (length evs < fuel)%nat →
  qs = [] ∨ line_up w = true →
  read_loop fuel self v w =
    Some (Ok (add_bcc (total_data v ++ joined qs ++ p ++ [3])),
          finished self evs rest qs p w).
Proof.
  induction qs as [| q qs IH];
    intros v w evs fuel Hv Hk Hqs Hp Hevs Hrx Ht Hf Hup.
  { by apply read_loop_last. }
  destruct Hup as [| Hup]; [done |].
  destruct fuel as [| fuel]; [lia |].
  unfold wire in Hevs. simpl in Hevs. rewrite <- app_assoc in Hevs.
  apply delivers_app_inv in Hevs as (evs1 & evs2 & -> & Hevs1 & Hevs2).
  pose proof (delivers_nonneg _ _ _ Hevs1).
  pose proof (delivers_nonneg _ _ _ Hevs2).
  pose proof (delivers_length _ _ _ Hevs1) as Hlen.
  rewrite frame_length in Hlen.
  apply Forall_cons in Hqs as [Hq Hqs].
  rewrite script_time_app in Ht. rewrite length_app in Hf.
  rewrite <- app_assoc in Hrx.
  rewrite (read_loop_partial v [] q evs1 (evs2 ++ rest) fuel w);
    [| by right | done | done | done | lia | lia | done].
  rewrite (IH _ _ evs2 fuel); try done; try (simpl; lia); [| by right].
  apply run_eq.
  - f_equal. unfold strip_stx. simpl packets.
    rewrite decide_True by lia. unfold joined. simpl.
    by rewrite <- !app_assoc.
  - unfold received, replied, finished, acks, read_log.
    rewrite script_time_app. world_eq.
Qed.

(** ** The message *)

(** The outer loop from the initial variables, on noise and then a whole
    message. *)
Lemma read_loop_message junk qs p evs rest fuel w :
  noise junk → Forall clean qs → clean p →
  delivers tmo evs (junk ++ wire qs p) →
  rx w = evs ++ rest →
  script_time evs ≤ seconds (timeout self) →
  (length evs < fuel)%nat →
  qs = [] ∨ line_up w = true →
  read_loop fuel self initial_vars w =
    Some (Ok (reassemble qs p), finished self evs rest qs p w).
Proof.
  intros Hjunk Hqs Hp Hevs Hrx Ht Hf Hup.
  destruct fuel as [| fuel]; [lia |].
  destruct qs as [| q qs]; unfold wire in Hevs; simpl in Hevs.
  - rewrite frame_snoc, !app_assoc, <- (app_assoc _ p) in Hevs.
    rewrite (read_loop_step self tmo Hlink initial_vars junk 2 p 3
               (bcc ([2] ++ p ++ [3])) fuel evs rest w);
      [| apply entry_initial; auto with iec | done | auto with iec | done | done
       | done | lia | by apply answerable_etx; [| | apply frame_snoc_valid]].
    cbv zeta. rewrite <- frame_snoc.
    rewrite verdict_etx by (done || apply frame_valid).
    apply run_eq; [done |].
    unfold received, finished, acks, read_log. world_eq.
  - destruct Hup as [| Hup]; [done |].
    rewrite <- app_assoc, app_assoc in Hevs.
    apply delivers_app_inv in Hevs as (evs1 & evs2 & -> & Hevs1 & Hevs2).
    pose proof (delivers_nonneg _ _ _ Hevs1).
    pose proof (delivers_nonneg _ _ _ Hevs2).
    pose proof (delivers_length _ _ _ Hevs1) as Hlen.
    rewrite length_app, frame_length in Hlen.
    apply Forall_cons in Hqs as [Hq Hqs].
    rewrite script_time_app in Ht. rewrite length_app in Hf.
    rewrite <- app_assoc in Hrx.
    rewrite (read_loop_partial initial_vars junk q evs1 (evs2 ++ rest) fuel w);
      [| apply entry_initial; auto with iec | done | done | done | lia | lia
       | done].
    rewrite (read_loop_blocks p rest qs _ _ evs2 fuel);
      try done; try (simpl; lia); [| by right].
    apply run_eq.
    + unfold reassemble, joined. simpl. by rewrite <- !app_assoc.
    + unfold received, replied, finished, acks, read_log.
      rewrite script_time_app. world_eq.
Qed.

(** C1.  A message of blocks [qs] ending in EOT and a last block [p] ending
    in ETX, each with its checksum, possibly after noise, all of it arriving
    within the timeout, on a line that takes the acknowledgements (it is up,
    or there is no partial block to acknowledge): [read] returns the
    reference message [reassemble qs p], has acknowledged every partial
    block, and has consumed exactly the message. *)
Theorem read_message timeout_arg junk qs p evs rest fuel w :
  noise junk → Forall clean qs → clean p →
  delivers tmo evs (junk ++ wire qs p) →
  rx w = evs ++ rest →
  script_time evs ≤ seconds (timeout self) →
  (length evs < fuel)%nat →
  qs = [] ∨ line_up w = true →
  read fuel timeout_arg self w =
    Some (Ok (reassemble qs p), finished self evs rest qs p w).
Proof. intros. unfold read. by apply read_loop_message with (junk := junk). Qed.

(** C4.  The message [read] returns for blocks that arrive in time carries
    a checksum that validates against the whole of it, and what was sent
    meanwhile is one ACK for every partial block. *)
Theorem read_message_validates timeout_arg junk qs p evs rest fuel w :
  noise junk → Forall clean qs → clean p →
  delivers tmo evs (junk ++ wire qs p) →
  rx w = evs ++ rest →
  script_time evs ≤ seconds (timeout self) →
  (length evs < fuel)%nat →
  qs = [] ∨ line_up w = true →
  ∃ m w', read fuel timeout_arg self w = Some (Ok m, w') ∧
    bcc_valid m = true ∧ tx w' = tx w ++ acks qs ∧ rx w' = rest.
Proof.
  intros Hjunk Hqs Hp Hevs Hrx Ht Hf Hup.
  exists (reassemble qs p), (finished self evs rest qs p w).
  split; [unfold read; by apply read_loop_message with (junk := junk) |].
  split; [apply reassemble_valid | done].
Qed.

(** ** A message that begins with SOH *)

(** C14.  A block that begins with SOH is returned as it came, with the byte
    after its end character, whatever that byte is: no checksum is
    verified and nothing is sent. *)
Theorem read_command timeout_arg junk body e c evs rest fuel w :
  noise junk → clean body → [e] ∈ end_chars →
  delivers tmo evs (junk ++ command body e c) →
  rx w = evs ++ rest →
  script_time evs ≤ seconds (timeout self) →
  (length evs < fuel)%nat →
  read fuel timeout_arg self w =
    Some (Ok (command body e c),
          received self (command body e c) (script_time evs) rest w).
Proof.
  intros Hjunk Hbody He Hevs Hrx Ht Hf. unfold read, command in *.
  replace (junk ++ ([1] ++ body ++ [e]) ++ [c])
    with (((junk ++ [1]) ++ body ++ [e]) ++ [c]) in Hevs
    by (by rewrite <- !app_assoc).
  destruct fuel as [| fuel]; [lia |].
  rewrite (read_loop_step self tmo Hlink initial_vars junk 1 body e c fuel
             evs rest w);
    [| apply entry_initial; auto with iec | done | done | done | done | done
     | lia | by apply answerable_soh].
  cbv zeta. by rewrite verdict_soh.
Qed.

(** ** A block that fails its checksum *)

(** A block whose checksum does not validate: NACK is sent, and the loop
    goes on with one more packet counted. *)
Lemma read_loop_nack v junk p e c evs rest fuel w :
  entry v junk 2 → clean p → [e] ∈ end_chars →
  bcc_valid (([2] ++ p ++ [e]) ++ [c]) = false →
  delivers tmo evs (((junk ++ [2]) ++ p ++ [e]) ++ [c]) →
  rx w = evs ++ rest →
  script_time evs ≤ seconds (timeout self) →
  (length evs ≤ fuel)%nat →
  line_up w = true →
  read_loop (S fuel) self v w =
    read_loop fuel self (incr_packets (set_end [e] (set_start [2] v)))
      (replied self SendNack
         (received self (([2] ++ p ++ [e]) ++ [c]) (script_time evs) rest w)).
Proof.
  intros Hv Hp He Hbad Hevs Hrx Ht Hf Hup.
  rewrite (read_loop_step self tmo Hlink v junk 2 p e c fuel evs rest w);
    [| done .. | by right].
  cbv zeta. by rewrite (verdict_invalid _ _ e).
Qed.

(** *** Blocks that are rejected *)

(** A block as it arrived: payload, end character, and the byte after. *)
Definition bad_block (b : bytes * byte * byte) : bytes :=
  ([2] ++ b.1.1 ++ [b.1.2]) ++ [b.2].

(** A well-delimited block whose checksum does not validate. *)
Definition bad (b : bytes * byte * byte) : Prop :=
  clean b.1.1 ∧ [b.1.2] ∈ end_chars ∧ bcc_valid (bad_block b) = false.

(** What [read] sends and logs for rejected blocks. *)
Definition nacks (bads : list (bytes * byte * byte)) : bytes :=
  concat (map (λ _, encode NACK) bads).

Definition retry_log (cls : string) (bads : list (bytes * byte * byte))
    : list LogRecord :=
  concat (map (λ b, [LogReceived (bad_block b) cls; LogSent (encode NACK) cls])
            bads).

(** The variables after the blocks [bads] were rejected. *)
Definition nacked (bads : list (bytes * byte * byte)) v : ReadVars :=
  foldl (λ v b, incr_packets (set_end [b.1.2] (set_start [2] v))) v bads.

(** The world after the blocks [bads], arriving as [evs], were rejected. *)
Definition rejected (self : T) (evs rest : list RxEvent)
    (bads : list (bytes * byte * byte)) (w : World) : World :=
  mkWorld (now w + script_time evs) (line_up w) rest (tx w ++ nacks bads)
    (handles w) (log w ++ retry_log (class_name self) bads).

Lemma nacked_in_stream bads : ∀ v,
  in_stream v ∨ bads ≠ [] →
  in_stream (nacked bads v) ∧
  packets (nacked bads v) = (packets v + length bads)%nat ∧
  total_data (nacked bads v) = total_data v.
Proof.
  induction bads as [| b bads IH]; intros v Hv; simpl.
  { destruct Hv as [Hv | ?]; [| done]. split_and!; [done | lia | done]. }
  destruct (IH (incr_packets (set_end [b.1.2] (set_start [2] v))))
    as (Hs & Hp & Ht); [by left |].
  split_and!; [done | simpl in Hp; lia | done].
Qed.

(** Rejected blocks, one after the other: a NACK for each. *)
Lemma read_loop_nacks rest bads :
  ∀ v junk w evs fuel,
  entry v junk 2 → Forall bad bads →
  delivers tmo evs (junk ++ concat (map bad_block bads)) →
  rx w = evs ++ rest →
  script_time evs ≤ seconds (timeout self) →
  (length evs ≤ fuel)%nat →
  bads ≠ [] → line_up w = true →
  read_loop (length bads + fuel) self v w =
    read_loop fuel self (nacked bads v) (rejected self evs rest bads w).
Proof.
  induction bads as [| b bads IH]; intros v junk w evs fuel Hv Hbads Hevs Hrx Ht
    Hf Hne Hup; [done |].
  apply Forall_cons in Hbads as [(Hp & He & Hbad) Hbads].
  unfold bad_block in Hbad.
  change (concat (map bad_block (b :: bads)))
    with (bad_block b ++ concat (map bad_block bads)) in Hevs.
  replace (junk ++ bad_block b ++ concat (map bad_block bads))
    with ((((junk ++ [2]) ++ b.1.1 ++ [b.1.2]) ++ [b.2])
            ++ concat (map bad_block bads)) in Hevs
    by (unfold bad_block; by rewrite <- !app_assoc).
  apply delivers_app_inv in Hevs as (evs1 & evs2 & -> & Hevs1 & Hevs2).
  pose proof (delivers_nonneg _ _ _ Hevs1).
  pose proof (delivers_nonneg _ _ _ Hevs2).
  rewrite script_time_app in Ht. rewrite length_app in Hf.
  rewrite <- app_assoc in Hrx.
  change (length (b :: bads) + fuel)%nat with (S (length bads + fuel)).
  rewrite (read_loop_nack v junk b.1.1 b.1.2 b.2 evs1 (evs2 ++ rest) _ w);
    [| done .. | lia | lia | done].
  destruct bads as [| b' bads].
  { apply delivers_nil_inv in Hevs2 as ->. simpl. f_equal.
    unfold rejected, received, replied, nacks, retry_log, bad_block. simpl.
    rewrite !app_nil_r. world_eq. }
  rewrite (IH _ [] _ evs2 fuel); [| by right | done | done | done | simpl; lia
                                  | lia | done | done].
  f_equal. unfold rejected, received, replied, nacks, retry_log, bad_block.
  rewrite script_time_app. world_eq.
Qed.

(** C9.  Blocks that fail their checksum, then the message, on a line that
    is up: exactly one NACK is sent for every rejected block, before the
    acknowledgements, and the message returned is the reassembled message
    without its leading STX, because the rejected blocks were counted as
    packets. *)
Theorem read_retry timeout_arg junk bads qs p evs0 evs rest fuel w :
  noise junk → Forall bad bads → bads ≠ [] →
  Forall clean qs → clean p →
  delivers tmo evs0 (junk ++ concat (map bad_block bads)) →
  delivers tmo evs (wire qs p) →
  rx w = evs0 ++ evs ++ rest →
  script_time evs0 + script_time evs ≤ seconds (timeout self) →
  (length bads + length evs0 + length evs < fuel)%nat →
  line_up w = true →
  read fuel timeout_arg self w =
    Some (Ok (add_bcc (joined qs ++ p ++ [3])),
          finished self evs rest qs p (rejected self evs0 (evs ++ rest) bads w)).
Proof.
  intros Hjunk Hbads Hne Hqs Hp Hevs0 Hevs Hrx Ht Hf Hup. unfold read.
  pose proof (delivers_nonneg _ _ _ Hevs0).
  pose proof (delivers_nonneg _ _ _ Hevs).
  replace fuel with (length bads + (fuel - length bads))%nat by lia.
  rewrite (read_loop_nacks (evs ++ rest) bads initial_vars junk w evs0);
    [| apply entry_initial; auto with iec | done | done | done | lia | lia | done
     | done].
  destruct (nacked_in_stream bads initial_vars) as (Hs & Hk & Htot); [by right |].
  rewrite (read_loop_blocks p rest qs _ _ evs);
    [by rewrite Htot | done | | done | done | done | done | simpl; lia | lia
     | by right].
  rewrite Hk. destruct bads; [done | simpl; lia].
Qed.

(** The message returned after a rejected first block is not the message
    a read without the rejected block returns. *)
Lemma read_retry_differs qs p :
  add_bcc (joined qs ++ p ++ [3]) ≠ reassemble qs p.
Proof.
  intros Heq. apply (f_equal length) in Heq. revert Heq.
  destruct qs; unfold reassemble, frame;
    rewrite !add_bcc_length, !length_app; unfold bytes, byte; simpl; lia.
Qed.

(** ** Bytes between blocks *)

(** C29.  After the first block nothing is discarded any more: bytes that
    arrive between two blocks are collected as the beginning of the next
    block.  When that changes the checksum, the block, intact as it is, is
    rejected with NACK (on a line that is up). *)
Theorem read_loop_between v j e p evs rest fuel w :
  in_stream v → clean j → clean p → [e] ∈ end_chars →
  bcc (j ++ [2] ++ p ++ [e]) ≠ bcc ([2] ++ p ++ [e]) →
  delivers tmo evs (j ++ frame e p) →
  rx w = evs ++ rest →
  script_time evs ≤ seconds (timeout self) →
  (length evs ≤ fuel)%nat →
  line_up w = true →
  read_loop (S fuel) self v w =
    read_loop fuel self (incr_packets (set_end [e] v))
      (replied self SendNack
         (received self (j ++ frame e p) (script_time evs) rest w)).
Proof.
  intros Hv Hj Hp He Hne Hevs Hrx Ht Hf Hup. simpl.
  replace (j ++ frame e p)
    with (((j ++ [2] ++ p) ++ [e]) ++ [bcc ([2] ++ p ++ [e])]) in Hevs
    by (by rewrite frame_snoc, <- !app_assoc).
  apply delivers_app_inv in Hevs as (evs1 & evs2 & -> & Hevs1 & Hevs2).
  apply delivers_cons_inv in Hevs2 as (d & ? & -> & Hd & ->%delivers_nil_inv).
  pose proof (delivers_nonneg _ _ _ Hevs1).
  rewrite script_time_app in Ht |- *. rewrite length_app in Hf.
  rewrite <- app_assoc in Hrx. simpl in Ht, Hf, Hrx |- *.
  rewrite (read_block_collect self tmo (now w) v (j ++ [2] ++ p) e fuel evs1
             (mkRx d (RxBytes [bcc ([2] ++ p ++ [e])]) :: rest) [] w);
    [| done | apply Hv | | done | done | done | lia | lia].
  2: { apply Forall_app. split; [done |]. constructor; [apply stx_not_end | done]. }
  erewrite (handle_block_verdict self tmo _ _ _ d _ rest Hlink)
    by (done || lia || by right).
  rewrite (verdict_invalid _ _ e); [| apply Hv | done | done |].
  - rewrite received_tick, Z.add_0_r, frame_snoc. simpl.
    by rewrite <- !app_assoc.
  - apply not_true_is_false. intros Hvalid%bcc_valid_snoc. apply Hne.
    simpl. by rewrite <- app_assoc in Hvalid.
Qed.

End Steps.
End Messages.

(** ** Concrete runs *)

(** Two bytes of noise, then the blocks AB (partial) and C (last), one byte
    every three milliseconds, then a byte that is not part of the message. *)
Definition demo_script : list RxEvent :=
  bytes_every 3 ([10; 13] ++ wire [[65; 66]] [67]) ++ bytes_every 3 [7].

Lemma read_message_witness :
  read 20 (Some 1) serial_connected (world_of demo_script) =
    Some (Ok (reassemble [[65; 66]] [67]),
          finished serial_connected (bytes_every 3 ([10; 13] ++ wire [[65; 66]] [67]))
            (bytes_every 3 [7]) [[65; 66]] [67] (world_of demo_script)).
Proof.
  apply read_message with (tmo := 5000) (junk := [10; 13]); concrete.
Defined.

Lemma read_message_validates_witness :
  ∃ m w', read 12 None serial_connected (world_of (bytes_every 3 (wire [[65]] [66])))
            = Some (Ok m, w') ∧
    bcc_valid m = true ∧ tx w' = [] ++ acks [[65]] ∧ rx w' = [].
Proof.
  apply read_message_validates with (tmo := 5000) (junk := []) (p := [66])
    (evs := bytes_every 3 (wire [[65]] [66])); concrete.
Defined.

(** A command message P0 with a data set, and a byte after its ETX that is
    not its block check. *)
Definition demo_command : bytes := [80; 48; 2; 40; 49; 41].

Lemma read_command_witness :
  read 10 None serial_connected
      (world_of (bytes_every 3 ([] ++ command demo_command 3 99))) =
    Some (Ok (command demo_command 3 99),
          received serial_connected (command demo_command 3 99)
            (script_time (bytes_every 3 ([] ++ command demo_command 3 99))) []
            (world_of (bytes_every 3 ([] ++ command demo_command 3 99)))).
Proof.
  apply read_command with (tmo := 5000) (junk := []); concrete.
Defined.

(** The block A twice with a wrong check byte, then the block A intact. *)
Definition demo_bads : list (bytes * byte * byte) := [([65], 3, 0); ([65], 3, 1)].

Lemma read_retry_witness :
  read 20 None serial_connected
      (world_of (bytes_every 3 ([] ++ concat (map bad_block demo_bads)) ++
                 bytes_every 3 (wire [] [65]) ++ [])) =
    Some (Ok (add_bcc (joined [] ++ [65] ++ [3])),
          finished serial_connected (bytes_every 3 (wire [] [65])) [] [] [65]
            (rejected serial_connected
               (bytes_every 3 ([] ++ concat (map bad_block demo_bads)))
               (bytes_every 3 (wire [] [65]) ++ []) demo_bads
               (world_of (bytes_every 3 ([] ++ concat (map bad_block demo_bads)) ++
                          bytes_every 3 (wire [] [65]) ++ [])))).
Proof.
  apply read_retry with (tmo := 5000) (junk := []); concrete.
Defined.

(** The variables after a first partial block A. *)
Definition after_partial : ReadVars :=
  mkVars ([2; 65] ++ encode LINE_END) 1 true (Some [2]) (Some [4]).

(** A line end between the blocks: the intact block B is rejected. *)
Lemma read_loop_between_witness :
  read_loop (S 6) serial_connected after_partial
      (world_of (bytes_every 3 ([13; 10] ++ frame 3 [66]) ++ [])) =
    read_loop 6 serial_connected (incr_packets (set_end [3] after_partial))
      (replied serial_connected SendNack
         (received serial_connected ([13; 10] ++ frame 3 [66])
            (script_time (bytes_every 3 ([13; 10] ++ frame 3 [66]))) []
            (world_of (bytes_every 3 ([13; 10] ++ frame 3 [66]) ++ [])))).
Proof.
  apply read_loop_between with (tmo := 5000); concrete.
Defined.
