(* ===== verification/Safety.v ===== *)
(** * What [read] can do to the world

    Whatever arrives on the line, and whether [read] returns or raises, all
    that it writes is a sequence of ACK and NACK replies; it opens and closes
    no handle, keeps the world well formed, and takes the bytes of the line
    from the front, in order, so that what is left is a tail of what was to
    come.  The lemmas follow the structure of the engine: a receive, a
    send, the inner loop, the rest of an iteration, the outer loop. *)

From Stdlib Require Import ZArith Lia.
From stdpp Require Import base tactics option list numbers strings.
From S2P Require Import Prelude Checksum World Transport Scan Serial Framing.

#[local] Open Scope Z_scope.

(** The part of the world that [read] must leave alone or only extend:
    [w'] has the handles and the line state of [w], is well formed when [w]
    is, has written the bytes [sent] more, and has taken the bytes to come
    from the front: what is left to come is a tail of what was, and no
    more. *)
Definition extends (sent : bytes) (w w' : World) : Prop :=
  tx w' = tx w ++ sent ∧ handles w' = handles w ∧ line_up w' = line_up w ∧
  pending (rx w') `suffix_of` pending (rx w) ∧
  (weight (rx w') ≤ weight (rx w))%nat ∧ (wf_world w → wf_world w').

Lemma extends_refl w : extends [] w w.
Proof. unfold extends. by rewrite app_nil_r. Qed.

Lemma extends_trans s1 s2 w1 w2 w3 :
  extends s1 w1 w2 → extends s2 w2 w3 → extends (s1 ++ s2) w1 w3.
Proof.
  intros (Ht1 & Hh1 & Hu1 & Hp1 & Hr1 & Hw1) (Ht2 & Hh2 & Hu2 & Hp2 & Hr2 & Hw2).
  unfold extends.
  rewrite Ht2, Ht1, Hh2, Hh1, Hu2, Hu1, app_assoc.
  split_and!; auto; [by etrans | lia].
Qed.

Lemma extends_log r w : extends [] w (log_record r w).
Proof. unfold extends. simpl. by rewrite app_nil_r. Qed.

#[export] Hint Resolve extends_refl extends_log : iec.

(** The bytes of a sequence of replies. *)
Definition replies_bytes `{Constants} (rs : list reply) : bytes :=
  concat (map reply_bytes rs).

Section Safety.
Context `{TransportLaws T} `{Checksum} `{Constants}.
Implicit Types (self : T) (v : ReadVars) (w : World).

Lemma recv_extends self n w r w' :
  BaseTransport.recv n self w = (r, w') → extends [] w w'.
Proof.
  intros Hr. pose proof (recv_frame _ _ _ _ _ Hr) as (Ht & Hh & _ & Hu).
  unfold extends. rewrite Ht, Hh, Hu, app_nil_r. split_and!; try done.
  - by eapply recv_taken.
  - by eapply recv_weight.
  - intros Hwf. by eapply recv_wf.
Qed.

Lemma send_extends self data w r w' :
  BaseTransport.send data self w = (r, w') →
  extends [] w w' ∨ extends data w w'.
Proof.
  destruct (send_cases self data w) as [[e ->] | ->]; intros [= <- <-];
    [left; apply extends_refl | by right].
Qed.

(** A loop that only receives writes nothing, whatever it decides. *)
Lemma scan_extends {L X} (on_byte : L → bytes → L + X) self st fuel :
  ∀ l w r w',
  scan on_byte fuel self st l w = Some (r, w') → extends [] w w'.
Proof.
  induction fuel as [| fuel IH]; intros l w r w'; simpl; [done |].
  destruct (BaseTransport.recv 1 self w) as [[b | e] w1] eqn:Hr;
    apply recv_extends in Hr; [| by intros [= <- <-]].
  repeat case_match; intros Hb; simplify_eq; try done;
    apply (extends_trans [] [] _ _ _ Hr); by eapply IH.
Qed.

(** The inner loop writes nothing. *)
Lemma read_block_extends self st fuel v in_data w r w' :
  read_block fuel self st v in_data w = Some (r, w') → extends [] w w'.
Proof. rewrite read_block_scan. apply scan_extends. Qed.

(** A reply that went through was written, and nothing else happened. *)
Lemma replied_extends self r w : extends (reply_bytes r) w (replied self r w).
Proof. destruct r; [apply extends_refl | done ..]. Qed.

(** The rest of an iteration writes one reply at most. *)
Lemma handle_block_extends self v in_data w r w' :
  handle_block self v in_data w = (r, w') →
  ∃ rep, extends (reply_bytes rep) w w'.
Proof.
  destruct (BaseTransport.recv 1 self w) as [[x | e] w1] eqn:Hr;
    pose proof (recv_extends _ _ _ _ _ Hr) as Hw1.
  - rewrite (handle_block_recv _ _ _ _ _ _ Hr). unfold answer.
    set (w2 := log_record _ w1).
    assert (extends [] w w2) as Hw2
      by apply (extends_trans [] [] _ _ _ Hw1), extends_log.
    case_decide; intros [= <- <-]; [| by exists NoReply].
    exists (verdict (incr_packets v) (in_data ++ x)).2.
    apply (extends_trans [] _ _ _ _ Hw2), replied_extends.
  - unfold handle_block. rewrite (bind_raise _ _ _ _ _ Hr).
    intros [= <- <-]. by exists NoReply.
Qed.

(** The outer loop writes a sequence of replies. *)
Lemma read_loop_extends self fuel :
  ∀ v w r w',
  read_loop fuel self v w = Some (r, w') →
  ∃ reps, extends (replies_bytes reps) w w'.
Proof.
  induction fuel as [| fuel IH]; intros v w r w'; simpl; [done |].
  destruct (read_block fuel self (now w) v [] w) as [[[[v1 d] | e] w1] |] eqn:Hb;
    [| intros [= <- <-]; exists []; by eapply read_block_extends | done].
  apply read_block_extends in Hb.
  destruct (handle_block self v1 d w1) as [[[v2 | t] | e] w2] eqn:Hh;
    apply handle_block_extends in Hh as [rep Hh];
    pose proof (extends_trans _ _ _ _ _ Hb Hh) as Hw2; simpl in Hw2.
  - intros (reps & Hreps)%IH. exists (rep :: reps).
    apply (extends_trans _ _ _ _ _ Hw2 Hreps).
  - intros [= <- <-]. exists [rep]. unfold replies_bytes. simpl.
    by rewrite app_nil_r.
  - intros [= <- <-]. exists [rep]. unfold replies_bytes. simpl.
    by rewrite app_nil_r.
Qed.

(** C10.  Whatever arrives on the line and whatever [read] ends with, a
    result or an exception: all that it has written is a sequence of ACK and
    NACK replies, it has opened and closed no handle, it has kept the
    world well formed, and the bytes left on the line are a tail of those
    that were to come. *)
Theorem read_replies self timeout_arg fuel w r w' :
  read fuel timeout_arg self w = Some (r, w') →
  ∃ reps, extends (replies_bytes reps) w w'.
Proof. apply read_loop_extends. Qed.

End Safety.

(** ** A concrete run *)

(** The block A with a wrong check byte, then the block A intact. *)
Definition bad_then_good : list RxEvent :=
  bytes_every 3 [2; 65; 3; 0; 2; 65; 3; 64].

Lemma read_replies_witness :
  ∃ reps, extends (replies_bytes reps) (world_of bad_then_good)
            (mkWorld 24 true [] [21] 1
               [LogReceived [2; 65; 3; 0] "SerialTransport";
                LogSent [21] "SerialTransport";
                LogReceived [2; 65; 3; 64] "SerialTransport"]).
Proof.
  by apply read_replies with (self := serial_connected) (timeout_arg := None)
    (fuel := 12%nat) (r := Ok [65; 3; 66]).
Defined.
