(* ===== verification/Termination.v ===== *)
(** * Termination of [read]

    On a script of finitely many events [read] returns or raises, whatever
    arrives: every receive either makes the script lighter or returns
    nothing after the [pace] of the script (the read timeout, or the time of
    a receive on a closed connection), and the receives of that kind that fit
    before the deadline of the inner loop are bounded.  The fuel that
    suffices is computed from the script and the timeouts.  The argument is
    made once, for the loop [scan]. *)

From Stdlib Require Import ZArith Lia.
From stdpp Require Import base tactics option list numbers strings.
From S2P Require Import Prelude Checksum World Transport Scan Serial Tcp Framing.
From S2P Require Import Safety.

#[local] Open Scope Z_scope.

Section Termination.
Context `{TransportLaws T} `{Checksum} `{Constants}.
Variables (self : T) (tmo : Z).
Hypothesis Hlink : link self = Timed tmo.
(** A receive that times out returns no bytes, or raises. *)
Hypothesis Hidle : ∀ b bs, on_timeout ≠ Ok (b :: bs).
Implicit Types (v : ReadVars) (w : World).

(** Every receive that takes nothing from the script takes time: the read
    timeout is positive, and so is the time between two receives on a closed
    line. *)
Definition paced (w : World) : Prop := 0 < pace tmo (rx w).

(** The receives that take nothing from the script and that the deadline of
    an inner loop begun at [st] still allows in the world [w]. *)
Definition slack (st : Z) (w : World) : nat :=
  Z.to_nat ((seconds (timeout self) - (now w - st)) / pace tmo (rx w) + 1).

Lemma slack_idle st w w' :
  paced w → pace tmo (rx w') = pace tmo (rx w) →
  now w + pace tmo (rx w) ≤ now w' → now w' - st ≤ seconds (timeout self) →
  (slack st w' < slack st w)%nat.
Proof.
  unfold paced, slack. intros Hq -> Hn Hd.
  set (q := pace tmo (rx w)) in *.
  set (a := seconds (timeout self) - (now w' - st)) in *.
  assert (0 ≤ a / q) by (apply Z.div_pos; lia).
  assert (a / q + 1 ≤ (seconds (timeout self) - (now w - st)) / q).
  { rewrite <- (Z.div_add a 1 q) by lia. apply Z.div_le_mono; lia. }
  lia.
Qed.

Lemma slack_mono st w w' :
  paced w → pace tmo (rx w') = pace tmo (rx w) →
  now w ≤ now w' → (slack st w' ≤ slack st w)%nat.
Proof.
  unfold paced, slack. intros Hq -> Hn.
  pose proof (Z.div_le_mono (seconds (timeout self) - (now w' - st))
                (seconds (timeout self) - (now w - st)) _ Hq). lia.
Qed.

(** One receive of the inner loop that returns bytes before the deadline:
    the world after it is well formed and paced, the fuel that sufficed
    before suffices after, and bytes were received only when the script got
    lighter. *)
Lemma recv_step st fuel w b w1 :
  wf_world w → paced w → (weight (rx w) + slack st w < S fuel)%nat →
  BaseTransport.recv 1 self w = (Ok b, w1) →
  now w1 - st ≤ seconds (timeout self) →
  wf_world w1 ∧ pace tmo (rx w1) = pace tmo (rx w) ∧
  (weight (rx w1) + slack st w1 < fuel)%nat ∧
  (weight (rx w1) ≤ weight (rx w))%nat ∧
  (b ≠ [] → (weight (rx w1) < weight (rx w))%nat).
Proof.
  intros Hwf Hq Hf Hr Hd. pose proof (recv_pace _ _ _ _ _ _ Hlink Hr) as Hp.
  split; [by eapply recv_wf |]. split; [done |].
  destruct (recv_progress self tmo w _ _ Hlink Hr) as [(Hb & Hw & Hn) | (Hw & Hn)].
  - pose proof (slack_idle st w w1 Hq Hp Hn Hd).
    split_and!; [lia | lia |]. intros Hne.
    destruct b as [| b bs]; [done |].
    destruct Hb as [Hb | Hb]; [symmetry in Hb; by apply Hidle in Hb | done].
  - pose proof (slack_mono st w w1 Hq Hp (Hn Hwf)). split_and!; lia.
Qed.

(** The loop [scan] returns or raises, whatever it decides; the script
    keeps its pace, and when the loop returns and the decision never leaves
    the loop on a receive without bytes, the script is lighter. *)
Lemma scan_terminates {L X} (on_byte : L → bytes → L + X) st :
  ∀ fuel l w,
  wf_world w → paced w → (weight (rx w) + slack st w < fuel)%nat →
  ∃ r w', scan on_byte fuel self st l w = Some (r, w') ∧
    pace tmo (rx w') = pace tmo (rx w) ∧
    ((∀ l, on_byte l [] = inl l) → is_ok r = true →
     (weight (rx w') < weight (rx w))%nat).
Proof.
  induction fuel as [| fuel IH]; intros l w Hwf Hq Hf; [lia |]. simpl.
  destruct (BaseTransport.recv 1 self w) as [[b | e] w1] eqn:Hr;
    pose proof (recv_pace _ _ _ _ _ _ Hlink Hr) as Hp1; [| by eexists _, _].
  case_decide as Hd; [by eexists _, _ |].
  destruct (recv_step st fuel w b w1 Hwf Hq Hf Hr)
    as (Hwf1 & _ & Hf1 & Hle & Hend); [lia |].
  assert (paced w1) as Hq1 by (unfold paced; by rewrite Hp1).
  destruct (on_byte l b) as [l1 | x] eqn:Hb.
  - destruct (IH l1 w1 Hwf1 Hq1 Hf1) as (r & w' & Hs & Hp & Hlt).
    exists r, w'. split_and!; [done | congruence |].
    intros Hn Hok. specialize (Hlt Hn Hok). lia.
  - eexists _, _. split_and!; [done | done |].
    intros Hn _. apply Hend. intros ->. by rewrite Hn in Hb.
Qed.

(** The inner loop returns or raises, and when it returns the script is
    lighter. *)
Lemma read_block_terminates st fuel v in_data w :
  wf_world w → paced w → (weight (rx w) + slack st w < fuel)%nat →
  ∃ r w', read_block fuel self st v in_data w = Some (r, w') ∧
    (is_ok r = true →
     (weight (rx w') < weight (rx w))%nat ∧ pace tmo (rx w') = pace tmo (rx w)).
Proof.
  intros Hwf Hq Hf. rewrite read_block_scan.
  destruct (scan_terminates block_byte st fuel (v, in_data) w Hwf Hq Hf)
    as (r & w' & Hs & Hp & Hlt).
  exists r, w'. split; [done |]. intros Hok.
  split; [apply Hlt; [apply block_byte_nil | done] | done].
Qed.

(** The rest of an iteration keeps the pace of the script. *)
Lemma handle_block_pace v in_data w r w' :
  handle_block self v in_data w = (r, w') → pace tmo (rx w') = pace tmo (rx w).
Proof.
  intros (b & w1 & Hr & ->)%handle_block_rx.
  by apply (recv_pace _ _ _ _ _ _ Hlink) in Hr.
Qed.

(** The fuel that suffices for [read] in the world [w]. *)
Definition enough (w : World) : nat :=
  (weight (rx w) + Z.to_nat (seconds (timeout self) / pace tmo (rx w) + 1) + 2)%nat.

Lemma slack_start w :
  slack (now w) w = Z.to_nat (seconds (timeout self) / pace tmo (rx w) + 1).
Proof. unfold slack. do 3 f_equal. lia. Qed.

(** The outer loop returns or raises. *)
Lemma read_loop_terminates :
  ∀ fuel v w,
  wf_world w → paced w → (enough w ≤ fuel)%nat →
  ∃ r w', read_loop fuel self v w = Some (r, w').
Proof.
  unfold enough.
  induction fuel as [| fuel IH]; intros v w Hwf Hq Hf; [lia |]. simpl.
  destruct (read_block_terminates (now w) fuel v [] w Hwf Hq)
    as ([[v1 d] | e] & w1 & Hb & Hok); [rewrite slack_start; lia | | ];
    rewrite Hb; [| by eauto].
  destruct (Hok eq_refl) as [Hlt Hp1].
  apply read_block_extends in Hb as (_ & _ & _ & _ & _ & Hwf1).
  destruct (handle_block self v1 d w1) as [[[v2 | t] | e] w2] eqn:Hh;
    [| by eauto ..].
  pose proof (handle_block_pace _ _ _ _ _ Hh) as Hp2.
  apply handle_block_extends in Hh as (rep & _ & _ & _ & _ & Hle & Hwf2).
  apply IH; [auto | unfold paced; congruence | rewrite Hp2, Hp1; lia].
Qed.

End Termination.

(** C7.  On a well-formed, paced script (a positive read timeout, a
    positive time for a receive on a closed connection), over a transport
    whose timed-out receive returns no bytes or raises, [read] terminates:
    with the fuel [enough] it returns or raises, whatever arrives. *)
Theorem read_terminates `{TransportLaws T} `{Checksum} `{Constants}
    (self : T) tmo timeout_arg fuel w :
  link self = Timed tmo → paced tmo w →
  (∀ b bs, on_timeout ≠ Ok (b :: bs)) →
  wf_world w → (enough self tmo w ≤ fuel)%nat →
  ∃ r w', read fuel timeout_arg self w = Some (r, w').
Proof. intros. unfold read. by eapply read_loop_terminates. Qed.

(** ** Concrete runs *)

(** Two blocks with a wrong check byte and then silence: two NACKs, and
    [TimeoutError] in the end. *)
Definition two_bad_blocks : list RxEvent :=
  bytes_every 3 [2; 65; 3; 0; 2; 65; 3; 0].

Lemma read_terminates_witness :
  ∃ r w', read (enough serial_connected 5000 (world_of two_bad_blocks)) None
            serial_connected (world_of two_bad_blocks) = Some (r, w').
Proof.
  apply read_terminates with (tmo := 5000); [done | by vm_compute | done | | done].
  by apply (bool_decide_unpack _).
Defined.
