(* ===== verification/Machine.v ===== *)
(** * [read] as a state machine

    The two nested loops of [read] (lines 50-129 of transports.py) as a
    transition system.  A configuration is a control state with the values of
    the locals, and the world: [Receiving] is the inner loop (awaiting the
    start character while [start_char_received] is false, awaiting the end
    character afterwards), [BlockComplete] the point after the inner loop
    where the checksum byte is pending, [MessageComplete] the return and
    [Failed] an exception that leaves the method.  [step] has one rule for
    every path through the body of the inner loop and one for every way
    [handle_block] ends.

    The machine needs no fuel.  [read_machine] shows that it is the same
    program as the function [read]: the machine reaches a final
    configuration exactly when [read] has that outcome with some fuel.
    [machine_typed] is the invariant of the reachable configurations, by
    induction on the runs of the machine, and [read_checked] what it says of
    the message [read] returns; [machine_ends] shows that on a well-formed
    script every run can be completed, and [block_answered] that a completed
    block is never passed over in silence. *)

From Stdlib Require Import ZArith Lia.
From stdpp Require Import base tactics option list numbers strings relations.
From S2P Require Import Prelude Checksum World Transport Scan Serial Framing.
From S2P Require Import Safety Termination.

#[local] Open Scope Z_scope.

(** ** Configurations and transitions *)

Inductive phase : Type :=
| Receiving (start_time : Z) (v : ReadVars) (in_data : bytes)
| BlockComplete (v : ReadVars) (in_data : bytes)
| MessageComplete (total_data : bytes)
| Failed (e : exn).

Definition config : Type := phase * World.

(** The configuration at the top of the outer loop. *)
Definition block_start (v : ReadVars) (w : World) : config :=
  (Receiving (now w) v [], w).

(** The configuration in which [read] begins. *)
Definition start (w : World) : config := block_start initial_vars w.

(** The configuration in which [read] has returned or raised. *)
Definition ended (r : result bytes) (w : World) : config :=
  (match r with Ok total_data => MessageComplete total_data | Raise e => Failed e end,
   w).

(** The outcome of [read] in a configuration in which it has ended. *)
Definition outcome (c : config) : option (result bytes * World) :=
  match c.1 with
  | MessageComplete total_data => Some (Ok total_data, c.2)
  | Failed e => Some (Raise e, c.2)
  | _ => None
  end.

Definition final (c : config) : Prop :=
  match c.1 with
  | MessageComplete _ | Failed _ => True
  | _ => False
  end.

#[export] Instance final_dec c : Decision (final c).
Proof. unfold final. destruct c.1; apply _. Defined.

Section Machine.
Context `{Transport T} `{Checksum} `{Constants}.
Implicit Types (self : T) (v : ReadVars) (w : World) (c : config).

(** The deadline of the inner loop has passed (line 59). *)
Definition late self (st : Z) w : Prop := seconds (timeout self) < now w - st.

Inductive step self : config → config → Prop :=
(* line 56: the receive raises *)
| step_error st v d w e w' :
    BaseTransport.recv 1 self w = (Raise e, w') →
    step self (Receiving st v d, w) (Failed e, w')
(* lines 58-60 *)
| step_timeout st v d w b w' :
    BaseTransport.recv 1 self w = (Ok b, w') → late self st w' →
    step self (Receiving st v d, w) (Failed (timed_out self), w')
(* lines 61-67 *)
| step_start st v d w b w' :
    BaseTransport.recv 1 self w = (Ok b, w') → ¬ late self st w' →
    start_char_received v = false → b ∈ start_chars →
    step self (Receiving st v d, w) (Receiving st (set_start b v) (d ++ b), w')
(* lines 68-69 *)
| step_discard st v d w b w' :
    BaseTransport.recv 1 self w = (Ok b, w') → ¬ late self st w' →
    start_char_received v = false → b ∉ start_chars →
    step self (Receiving st v d, w) (Receiving st v d, w')
(* lines 70-75 *)
| step_end st v d w b w' :
    BaseTransport.recv 1 self w = (Ok b, w') → ¬ late self st w' →
    start_char_received v = true → b ∈ end_chars →
    step self (Receiving st v d, w) (BlockComplete (set_end b v) (d ++ b), w')
(* lines 76-78 *)
| step_data st v d w b w' :
    BaseTransport.recv 1 self w = (Ok b, w') → ¬ late self st w' →
    start_char_received v = true → b ∉ end_chars →
    step self (Receiving st v d, w) (Receiving st v (d ++ b), w')
(* lines 80-129, ending in [break] *)
| step_return v d w total_data w' :
    handle_block self v d w = (Ok (Break total_data), w') →
    step self (BlockComplete v d, w) (MessageComplete total_data, w')
(* lines 80-129, ending in [continue]: lines 52-54 of the next iteration *)
| step_again v d w v' w' :
    handle_block self v d w = (Ok (Continue v'), w') →
    step self (BlockComplete v d, w) (block_start v' w')
(* lines 80-129: a receive or a send raises *)
| step_raise v d w e w' :
    handle_block self v d w = (Raise e, w') →
    step self (BlockComplete v d, w) (Failed e, w').

(** The runs of the machine. *)
Definition steps self : relation config := rtc (step self).

(** The machine is deterministic: the rules exclude one another, as the
    branches of the code do. *)
Lemma step_deterministic self c c1 c2 : step self c c1 → step self c c2 → c1 = c2.
Proof.
  destruct 1; inversion 1; simplify_eq; congruence.
Qed.

(** A final configuration has no transition. *)
Lemma final_stuck self c c' : final c → ¬ step self c c'.
Proof. by destruct 2. Qed.

(** So a run ends in at most one final configuration. *)
Lemma steps_final_unique self c c1 c2 :
  steps self c c1 → final c1 → steps self c c2 → final c2 → c1 = c2.
Proof.
  induction 1 as [c | c c' c1 Hstep _ IH]; intros Hf1 Hs2 Hf2.
  - inversion Hs2 as [| ? c' ? Hstep _]; simplify_eq;
      [done | by destruct (final_stuck _ _ _ Hf1 Hstep)].
  - inversion Hs2 as [| ? c'' ? Hstep2 Hs2']; simplify_eq;
      [by destruct (final_stuck _ _ _ Hf2 Hstep) |].
    apply IH; [done | | done]. by rewrite (step_deterministic _ _ _ _ Hstep Hstep2).
Qed.

(** ** The function [read] from a configuration *)

(** The outer loop from the point after the inner loop. *)
Definition conclude (fuel : nat) self v (in_data : bytes) w : run World bytes :=
  match handle_block self v in_data w with
  | (Raise e, w) => Some (Raise e, w)
  | (Ok (Break total_data), w) => Some (Ok total_data, w)
  | (Ok (Continue v), w) => read_loop fuel self v w
  end.

(** The outer loop from inside the inner loop. *)
Definition resume (fuel : nat) self (st : Z) v (in_data : bytes) w
    : run World bytes :=
  match read_block fuel self st v in_data w with
  | None => None
  | Some (Raise e, w) => Some (Raise e, w)
  | Some (Ok (v, in_data), w) => conclude fuel self v in_data w
  end.

Definition run_config (fuel : nat) self c : run World bytes :=
  match c with
  | (Receiving st v d, w) => resume fuel self st v d w
  | (BlockComplete v d, w) => conclude fuel self v d w
  | (MessageComplete total_data, w) => Some (Ok total_data, w)
  | (Failed e, w) => Some (Raise e, w)
  end.

Lemma read_loop_resume fuel self v w :
  read_loop (S fuel) self v w = run_config fuel self (block_start v w).
Proof. done. Qed.

Lemma run_config_ended fuel self r w : run_config fuel self (ended r w) = Some (r, w).
Proof. by destruct r. Qed.

Lemma conclude_mono fuel fuel' self v d w r :
  (fuel ≤ fuel')%nat → conclude fuel self v d w = Some r →
  conclude fuel' self v d w = Some r.
Proof.
  intros Hle. unfold conclude.
  destruct (handle_block self v d w) as [[[] |] ?]; try done.
  by apply read_loop_mono.
Qed.

Lemma resume_mono fuel fuel' self st v d w r :
  (fuel ≤ fuel')%nat → resume fuel self st v d w = Some r →
  resume fuel' self st v d w = Some r.
Proof.
  intros Hle. unfold resume.
  destruct (read_block fuel self st v d w) as [[[[v1 d1] | e] w1] |] eqn:Hb;
    [| | done];
    rewrite (read_block_mono fuel fuel' _ _ _ _ _ _ Hle Hb); [| done].
  by apply conclude_mono.
Qed.

(** More fuel does not change the outcome. *)
Lemma run_config_mono fuel fuel' self c r :
  (fuel ≤ fuel')%nat → run_config fuel self c = Some r →
  run_config fuel' self c = Some r.
Proof.
  destruct c as [[st v d | v d | t | e] w]; simpl; [| | done ..].
  - apply resume_mono.
  - apply conclude_mono.
Qed.

(** One pass through the body of the inner loop, before the deadline. *)
Lemma read_block_recv fuel self st v d w b w' :
  BaseTransport.recv 1 self w = (Ok b, w') → ¬ late self st w' →
  read_block (S fuel) self st v d w =
    if negb (start_char_received v) then
      if decide (b ∈ start_chars)
      then read_block fuel self st (set_start b v) (d ++ b) w'
      else read_block fuel self st v d w'
    else
      if decide (b ∈ end_chars) then Some (Ok (set_end b v, d ++ b), w')
      else read_block fuel self st v (d ++ b) w'.
Proof. intros Hr Hl. simpl. rewrite Hr. by rewrite decide_False. Qed.

(** A transition of the inner loop costs at most one unit of fuel. *)
Lemma step_resume fuel self st v d w b w' c' r :
  BaseTransport.recv 1 self w = (Ok b, w') → ¬ late self st w' →
  read_block (S fuel) self st v d w =
    match c'.1 with
    | Receiving st' v' d' => read_block fuel self st' v' d' c'.2
    | BlockComplete v' d' => Some (Ok (v', d'), c'.2)
    | _ => None
    end →
  (∀ t, c'.1 ≠ MessageComplete t) → (∀ e, c'.1 ≠ Failed e) →
  run_config fuel self c' = Some r →
  resume (S fuel) self st v d w = Some r.
Proof.
  intros Hr Hl Hb Hm Hf Hrun. unfold resume. rewrite Hb.
  destruct c' as [[st' v' d' | v' d' | t | e] w1]; simpl in *;
    [| | by destruct (Hm t) | by destruct (Hf e)].
  - unfold resume in Hrun.
    destruct (read_block fuel self st' v' d' w1) as [[[[v2 d2] | e] w2] |];
      [| done ..].
    apply (conclude_mono fuel (S fuel)); [lia | done].
  - apply (conclude_mono fuel (S fuel)); [lia | done].
Qed.

Ltac inner_step Hr Hl Hv Hrun :=
  eapply step_resume; [exact Hr | exact Hl | | | | exact Hrun]; [| done | done];
  rewrite (read_block_recv _ _ _ _ _ _ _ _ Hr Hl), Hv; simpl.

(** A transition costs at most one unit of fuel. *)
Lemma step_run fuel self c c' r :
  step self c c' → run_config fuel self c' = Some r →
  run_config (S fuel) self c = Some r.
Proof.
  destruct 1 as [st v d w e w' Hr | st v d w b w' Hr Hl | st v d w b w' Hr Hl Hv Hb
    | st v d w b w' Hr Hl Hv Hb | st v d w b w' Hr Hl Hv Hb
    | st v d w b w' Hr Hl Hv Hb | v d w t w' Hh | v d w v' w' Hh | v d w e w' Hh];
    intros Hrun.
  - simpl in *. unfold resume. cbn [read_block]. by rewrite Hr.
  - simpl in *. unfold resume. cbn [read_block]. rewrite Hr.
    by rewrite decide_True.
  - inner_step Hr Hl Hv Hrun. by rewrite decide_True.
  - inner_step Hr Hl Hv Hrun. by rewrite decide_False.
  - inner_step Hr Hl Hv Hrun. by rewrite decide_True.
  - inner_step Hr Hl Hv Hrun. by rewrite decide_False.
  - simpl in *. unfold conclude. by rewrite Hh.
  - change (conclude (S fuel) self v d w = Some r). unfold conclude.
    by rewrite Hh, read_loop_resume.
  - simpl in *. unfold conclude. by rewrite Hh.
Qed.

(** Every completed run of the machine is an outcome of the function, with
    as much fuel as the run has transitions. *)
Lemma steps_run self c c' r :
  steps self c c' → outcome c' = Some r →
  ∃ fuel, run_config fuel self c = Some r.
Proof.
  induction 1 as [[[] w] | c c1 c' Hstep _ IH]; intros Hout; simplify_eq/=;
    [by exists 0%nat .. |].
  destruct (IH Hout) as [fuel Hrun]. exists (S fuel). by eapply step_run.
Qed.

(** The inner loop, as a run of the machine. *)
Lemma read_block_steps self st fuel : ∀ v d w r w',
  read_block fuel self st v d w = Some (r, w') →
  steps self (Receiving st v d, w)
    (match r with Ok (v', d') => BlockComplete v' d' | Raise e => Failed e end, w').
Proof.
  induction fuel as [| fuel IH]; intros v d w r w' Hb; [done |]. simpl in Hb.
  destruct (BaseTransport.recv 1 self w) as [[b | e] w1] eqn:Hr;
    [| simplify_eq; by apply rtc_once, step_error].
  case_decide as Hl; [simplify_eq; by eapply rtc_once, step_timeout |].
  destruct (start_char_received v) eqn:Hv; simpl in Hb; case_decide as Hin.
  - simplify_eq. by eapply rtc_once, step_end.
  - eapply rtc_l; [by eapply step_data | by apply IH].
  - eapply rtc_l; [by eapply step_start | by apply IH].
  - eapply rtc_l; [by eapply step_discard | by apply IH].
Qed.

(** The outer loop, as a run of the machine. *)
Lemma read_loop_steps self fuel : ∀ v w r w',
  read_loop fuel self v w = Some (r, w') →
  steps self (block_start v w) (ended r w').
Proof.
  induction fuel as [| fuel IH]; intros v w r w' Hl; [done |]. simpl in Hl.
  destruct (read_block fuel self (now w) v [] w) as [[[[v1 d1] | e] w1] |] eqn:Hb;
    [| | done]; apply read_block_steps in Hb; [| by simplify_eq].
  etrans; [apply Hb |].
  destruct (handle_block self v1 d1 w1) as [[[v2 | t] | e] w2] eqn:Hh.
  - eapply rtc_l; [by eapply step_again | by apply IH].
  - simplify_eq. by eapply rtc_once, step_return.
  - simplify_eq. by eapply rtc_once, step_raise.
Qed.


(** ** The invariant of the reachable configurations *)

(** Inside a block: a start character was received and recorded.  In the
    first block nothing was assembled yet and the block begins with the
    start character; in a later block the start character is the STX of the
    first. *)
Definition block_ok v (in_data : bytes) : Prop :=
  ∃ s, start_char_received v = true ∧ start_char v = Some s ∧ s ∈ start_chars ∧
    match packets v with
    | O => total_data v = [] ∧ s `prefix_of` in_data
    | S _ => s = [2]
    end.

(** The end character recorded, if any. *)
Definition ended_by v (e : bytes) : Prop := end_char v = Some e ∧ e ∈ end_chars.

(** A message [read] may return: it is not empty, and it is a command
    message, which begins with SOH and is not checked, or it carries a
    checksum that validates. *)
Definition checked (total_data : bytes) : Prop :=
  total_data ≠ [] ∧ ([1] `prefix_of` total_data ∨ bcc_valid total_data = true).

Definition phase_ok (p : phase) : Prop :=
  match p with
  | Receiving _ v d =>
    (v = initial_vars ∧ d = []) ∨
    (block_ok v d ∧
     match packets v with O => end_char v = None | S _ => ∃ e, ended_by v e end)
  | BlockComplete v d => block_ok v d ∧ ∃ e, ended_by v e ∧ e `suffix_of` d
  | MessageComplete total_data => checked total_data
  | Failed _ => True
  end.

Lemma end_chars_nonempty e d : e ∈ end_chars → e `suffix_of` d → d ≠ [].
Proof.
  unfold end_chars. rewrite !elem_of_cons, elem_of_nil.
  intros [-> | [-> | []]] [k ->]; by destruct k.
Qed.

Lemma start_chars_stx s : s ∈ start_chars → s ≠ [1] → s = [2].
Proof.
  unfold start_chars. rewrite !elem_of_cons, elem_of_nil.
  by intros [-> | [-> | []]].
Qed.

(** After [packets += 1] the variables of a block that did not begin with
    SOH are those of a later block. *)
Lemma block_ok_next v d x :
  block_ok v d → start_char v ≠ Some [1] →
  block_ok (incr_packets v) [] ∧ block_ok (add_total x (incr_packets v)) [].
Proof.
  intros (s & Hr & Hs & Hin & Hp) Hsoh.
  assert (s = [2]) as ->.
  { destruct (packets v); [| done]. apply start_chars_stx; [done | by intros ->]. }
  split; by exists [2].
Qed.

(** What the decision table makes of a complete block: a message that is
    not empty, or the variables of the next block, and then a reply. *)
Lemma verdict_typed v d e x :
  block_ok v d → ended_by v e → e `suffix_of` d →
  match verdict (incr_packets v) (d ++ x) with
  | (Break total_data, _) => checked total_data
  | (Continue v', r) =>
    block_ok v' [] ∧ packets v' = S (packets v) ∧ ended_by v' e ∧ r ≠ NoReply
  end.
Proof.
  intros Hv [He Hin] Hd. pose proof (end_chars_nonempty e d Hin Hd) as Hne.
  assert (d ++ x ≠ []) as Hne' by (by destruct d).
  unfold verdict, checked. simpl. case_decide as Hs.
  { destruct Hv as (s & _ & Hs' & _ & Hp). simplify_eq.
    destruct (packets v); [| done]. destruct Hp as [-> Hp]. simpl.
    split; [done | left; by apply prefix_app_r]. }
  pose proof Hv as (? & _ & _ & _ & Hp).
  destruct (block_ok_next v d [] Hv Hs) as [Hn _].
  assert (ended_by (incr_packets v) e) as He' by done.
  rewrite He. unfold end_chars in Hin.
  rewrite !elem_of_cons, elem_of_nil in Hin.
  destruct Hin as [-> | [-> | []]]; simpl; destruct (bcc_valid (d ++ x)) eqn:Hb;
    [| done | | done].
  - case_decide as Hk.
    { split; [rewrite add_bcc_snoc; by intros [_ ?]%app_eq_nil |].
      right. apply bcc_valid_add_bcc. }
    unfold strip_stx. rewrite decide_False by done.
    destruct (packets v); [| simpl in Hk; lia]. destruct Hp as [-> _]. simpl.
    by split; [| right].
  - by split_and!.
Qed.

(** [handle_block] decides as [verdict] says, whatever the transport does:
    when it does not raise, its result is the verdict on the block with the
    bytes the receive returned. *)
Lemma handle_block_ok self v d w k w' :
  handle_block self v d w = (Ok k, w') →
  ∃ x, k = (verdict (incr_packets v) (d ++ x)).1.
Proof.
  unfold handle_block, verdict, mbind, M_bind.
  destruct (BaseTransport.recv 1 self w) as [[x | e] w1]; [| done].
  unfold logger, modify, mret, M_ret. intros Hh. exists x. revert Hh.
  repeat case_decide; try destruct (bcc_valid _); simpl;
    try (by intros [= <- <-]).
  all: match goal with
       | |- context [BaseTransport.send ?c ?s ?w0] =>
         by destruct (BaseTransport.send c s w0) as [[[] | e] w3]; intros [= <- <-]
       end.
Qed.

(** Every transition keeps the invariant. *)
Lemma step_typed self c c' : step self c c' → phase_ok c.1 → phase_ok c'.1.
Proof.
  destruct 1 as [st v d w e w' Hr | st v d w b w' Hr Hl | st v d w b w' Hr Hl Hv Hb
    | st v d w b w' Hr Hl Hv Hb | st v d w b w' Hr Hl Hv Hb
    | st v d w b w' Hr Hl Hv Hb | v d w t w' Hh | v d w v' w' Hh | v d w e w' Hh];
    simpl; try done.
  - intros [[-> ->] | [(s & Hs & _) _]]; [| congruence].
    right. split; [| done]. by exists b.
  - intros [[-> _] | [(s & Hs & Hc & Hin & Hp) He]]; [done |].
    split; [| exists b; split; [done | by exists d]].
    exists s. split_and!; try done. simpl.
    destruct (packets v); [| done]. destruct Hp as [Ht Hp].
    split; [done | by apply prefix_app_r].
  - intros [[-> _] | [(s & Hs & Hc & Hin & Hp) He]]; [done |]. right.
    split; [| done]. exists s. split_and!; try done.
    destruct (packets v); [| done]. destruct Hp as [Ht Hp].
    split; [done | by apply prefix_app_r].
  - intros [Hv (e & He & Hd)]. apply handle_block_ok in Hh as [x Hh].
    pose proof (verdict_typed v d e x Hv He Hd) as Ht.
    destruct (verdict _ _) as [[] ?]; by simplify_eq/=.
  - intros [Hv (e & He & Hd)]. apply handle_block_ok in Hh as [x Hh].
    pose proof (verdict_typed v d e x Hv He Hd) as Ht.
    destruct (verdict _ _) as [[] ?]; simplify_eq/=.
    destruct Ht as (Hok & Hp & He' & _). right. split; [done |].
    rewrite Hp. by exists e.
Qed.

Lemma machine_reachable_ok self w c : steps self (start w) c → phase_ok c.1.
Proof.
  intros Hs.
  apply (rtc_ind_r (R := step self) (λ c, phase_ok c.1) (start w));
    [by left | | done].
  intros c1 c2 _ Hstep Hok. by eapply step_typed.
Qed.

(** C16.  Every configuration the machine reaches from the start of [read]
    satisfies the invariant: before the first start character the locals
    have their initial values; inside a block the recorded start character
    is SOH or STX and, in the first block, the block begins with it; a
    completed block ends with the recorded end character, which is ETX or
    EOT; and the message returned is [checked]. *)
Theorem machine_typed self w c : steps self (start w) c → phase_ok c.1.
Proof. apply machine_reachable_ok. Qed.

(** C5.  Whatever arrives on the line, and whatever the transport: a message
    that [read] returns is never empty, and it is a command message, which
    begins with SOH and is returned unchecked, or it carries a checksum that
    validates against the whole of it.  No block that failed its checksum
    and no unchecked data is ever part of what [read] returns under a valid
    checksum. *)
Theorem read_checked self timeout_arg fuel w m w' :
  read fuel timeout_arg self w = Some (Ok m, w') → checked m.
Proof. intros Hr%read_loop_steps. by apply machine_reachable_ok in Hr. Qed.

End Machine.

(** ** Every run can be completed *)

Section Liveness.
Context `{TransportLaws T} `{Checksum} `{Constants}.
Variables (self : T) (tmo : Z).
Hypothesis Hlink : link self = Timed tmo.
Hypothesis Hidle : ∀ b bs, on_timeout ≠ Ok (b :: bs).
Implicit Types (v : ReadVars) (w : World) (c : config).

(** A world in which [read] terminates: well formed, and every receive
    that takes nothing from the script takes time. *)
Definition live (w : World) : Prop := wf_world w ∧ paced tmo w.

(** A transition keeps the world live. *)
Lemma step_live c c' : step self c c' → live c.2 → live c'.2.
Proof.
  unfold live, paced.
  destruct 1; simpl; intros [Hwf Hq];
    try (erewrite recv_pace by done; split; [by eapply recv_wf | done]).
  all: match goal with
       | Hh : handle_block _ _ _ _ = _ |- _ =>
         rewrite (handle_block_pace self tmo Hlink _ _ _ _ _ Hh);
         apply handle_block_extends in Hh as (rep & _ & _ & _ & _ & _ & Hwf')
       end; auto.
Qed.

Lemma steps_live c c' : steps self c c' → live c.2 → live c'.2.
Proof. induction 1; [done |]. intros Hwf. by eauto using step_live. Qed.

(** From the point after the inner loop, [read] ends. *)
Lemma conclude_terminates v d w :
  live w → ∃ fuel r, conclude fuel self v d w = Some r.
Proof.
  intros [Hwf Hq]. unfold conclude.
  destruct (handle_block self v d w) as [[[v2 | t] | e] w2] eqn:Hh;
    [| by exists 0%nat; eauto ..].
  pose proof (handle_block_pace self tmo Hlink _ _ _ _ _ Hh) as Hp.
  apply handle_block_extends in Hh as (rep & _ & _ & _ & _ & _ & Hwf2).
  destruct (read_loop_terminates self tmo Hlink Hidle
              (enough self tmo w2) v2 w2) as (r & w' & Hr);
    unfold paced in *; eauto; congruence.
Qed.

(** From every configuration with a live world, [read] ends. *)
Lemma run_config_terminates c :
  live c.2 → ∃ fuel r, run_config fuel self c = Some r.
Proof.
  destruct c as [[st v d | v d | t | e] w]; simpl; intros Hlive;
    [| by apply conclude_terminates | by exists 0%nat; eauto ..].
  pose proof Hlive as [Hwf Hq].
  set (fuel1 := S (weight (rx w) + slack self tmo st w)).
  destruct (read_block_terminates self tmo Hlink Hidle st fuel1 v d w Hwf Hq)
    as ([[v1 d1] | e] & w1 & Hb & Hok); [unfold fuel1; lia | |];
    [| exists fuel1; unfold resume; rewrite Hb; eauto].
  destruct (Hok eq_refl) as [_ Hp1].
  pose proof (read_block_extends _ _ _ _ _ _ _ _ Hb) as (_ & _ & _ & _ & _ & Hwf1).
  destruct (conclude_terminates v1 d1 w1) as (fuel2 & r & Hc);
    [split; [auto | unfold paced in *; congruence] |].
  exists (fuel1 `max` fuel2)%nat, r. unfold resume.
  rewrite (read_block_mono fuel1 _ _ _ _ _ _ _ (Nat.le_max_l _ _) Hb).
  apply (conclude_mono fuel2); [lia | done].
Qed.

(** An outcome of the function from a configuration is a run of the
    machine from there. *)
Lemma run_config_steps fuel c r w' :
  run_config fuel self c = Some (r, w') → steps self c (ended r w').
Proof.
  assert (∀ v d w, conclude fuel self v d w = Some (r, w') →
            steps self (BlockComplete v d, w) (ended r w')) as Hconclude.
  { intros v d w. unfold conclude.
    destruct (handle_block self v d w) as [[[v2 | t] | e] w2] eqn:Hh; intros Hc.
    - eapply rtc_l; [by eapply step_again | by eapply read_loop_steps].
    - simplify_eq. by eapply rtc_once, step_return.
    - simplify_eq. by eapply rtc_once, step_raise. }
  destruct c as [[st v d | v d | t | e] w]; simpl; [| by auto | | ];
    [| by intros [= <- <-] ..].
  unfold resume.
  destruct (read_block fuel self st v d w) as [[[[v1 d1] | e] w1] |] eqn:Hb;
    [| | done]; apply read_block_steps in Hb; [| by intros [= <- <-]].
  intros Hc. etrans; [apply Hb | by apply Hconclude].
Qed.

End Liveness.

(** ** Every block is answered *)

Section Replies.
Context `{TransportLaws T} `{Checksum} `{Constants}.
Implicit Types (self : T) (v : ReadVars) (w : World) (c : config).

(** A verdict that ends the read sends no reply. *)
Lemma verdict_break v blk t r : verdict v blk = (Break t, r) → r = NoReply.
Proof. unfold verdict. repeat case_match; congruence. Qed.

(** What one transition from a completed block has written. *)
Definition answered (w : World) (c : config) : Prop :=
  match c.1 with
  | Receiving _ _ _ =>
    tx c.2 = tx w ++ encode ACK ∨ tx c.2 = tx w ++ encode NACK
  | MessageComplete _ => tx c.2 = tx w
  | _ => True
  end.

Lemma step_answered self v d e w c :
  block_ok v d → ended_by v e → e `suffix_of` d →
  step self (BlockComplete v d, w) c → answered w c.
Proof.
  intros Hv He Hd Hstep. unfold answered.
  inversion Hstep as [| | | | | | ? ? ? ? ? Hh | ? ? ? ? ? Hh | ? ? ? ? ? Hh];
    subst; simpl; [| | done].
  all: destruct (BaseTransport.recv 1 self w) as [[x | err] w1] eqn:Hr;
    [| unfold handle_block in Hh; by rewrite (bind_raise _ _ _ _ _ Hr) in Hh].
  all: pose proof (recv_frame _ _ _ _ _ Hr) as (Htx & _).
  all: rewrite (handle_block_recv self v d w x w1 Hr) in Hh.
  all: unfold answer in Hh; case_decide; [| done].
  all: pose proof (verdict_typed v d e x Hv He Hd) as Ht.
  all: destruct (verdict (incr_packets v) (d ++ x)) as [k r] eqn:Hverdict.
  all: simplify_eq/=.
  - by rewrite (verdict_break _ _ _ _ Hverdict).
  - destruct Ht as (_ & _ & _ & Hr').
    destruct r; [done | ..]; unfold replied, reply_bytes, line_write; simpl;
      rewrite Htx; auto.
Qed.

End Replies.

(** C18.  Every block is answered: when [read] has completed a block, the
    transition that follows either returns the message and writes nothing,
    or goes on to the next block after writing exactly one ACK or one NACK,
    or fails (the receive of the checksum byte raises, or the line does not
    take the reply); it never goes on in silence. *)
Theorem block_answered `{TransportLaws T} `{Checksum} `{Constants}
    (self : T) w v d w1 c :
  steps self (start w) (BlockComplete v d, w1) →
  step self (BlockComplete v d, w1) c →
  answered w1 c.
Proof.
  intros [Hv (e & He & Hd)]%machine_reachable_ok Hstep.
  by eapply step_answered.
Qed.

(** C17.  On a well-formed script on which every receive that takes nothing
    takes time, with a transport whose timed-out receive returns no bytes or
    raises, every run of the machine from the start of [read] can be
    completed, and in one way only: from every configuration it reaches, the
    machine reaches a final configuration, [MessageComplete] or [Failed],
    and every run from there that ends, ends in that configuration. *)
Theorem machine_ends `{TransportLaws T} `{Checksum} `{Constants}
    (self : T) tmo w c :
  link self = Timed tmo → paced tmo w →
  (∀ b bs, on_timeout ≠ Ok (b :: bs)) →
  wf_world w → steps self (start w) c →
  ∃ c', steps self c c' ∧ final c' ∧
    ∀ c'', steps self c c'' → final c'' → c'' = c'.
Proof.
  intros Hl Hq Hidle Hwf Hs.
  destruct (run_config_terminates self tmo Hl Hidle c) as (fuel & [r w'] & Hr);
    [by apply (steps_live self tmo Hl _ _ Hs) |].
  assert (steps self c (ended r w')) as Hend by (by eapply run_config_steps).
  assert (final (ended r w')) as Hf by (by destruct r).
  exists (ended r w'). split_and!; [done.. |].
  intros c'' Hs' Hf'. by apply (steps_final_unique self c).
Qed.

(** ** Concrete runs *)

(** The block A arrives: the configuration after the inner loop, with the
    checksum byte pending. *)
Definition block_A_complete : config :=
  (BlockComplete (set_end [3] (set_start [2] initial_vars)) [2; 65; 3],
   mkWorld 9 true (bytes_every 3 [64]) [] 1 []).

Lemma block_A_reached :
  steps serial_connected (start (world_of (bytes_every 3 [2; 65; 3; 64])))
    block_A_complete.
Proof.
  by apply (read_block_steps serial_connected 0 5 initial_vars [] _
              (Ok (set_end [3] (set_start [2] initial_vars), [2; 65; 3]))).
Qed.

Lemma machine_typed_witness : phase_ok block_A_complete.1.
Proof. apply (machine_typed serial_connected _ _ block_A_reached). Defined.

Lemma machine_ends_witness :
  ∃ c', steps serial_connected block_A_complete c' ∧ final c' ∧
    ∀ c'', steps serial_connected block_A_complete c'' → final c'' → c'' = c'.
Proof.
  apply (machine_ends serial_connected 5000
           (world_of (bytes_every 3 [2; 65; 3; 64])));
    [concrete | by vm_compute | concrete | | apply block_A_reached].
  by apply (bool_decide_unpack _).
Defined.

Lemma block_answered_witness :
  answered block_A_complete.2
    (MessageComplete [2; 65; 3; 64],
     mkWorld 12 true [] [] 1 [LogReceived [2; 65; 3; 64] "SerialTransport"]).
Proof.
  apply (block_answered serial_connected
           (world_of (bytes_every 3 [2; 65; 3; 64]))
           (set_end [3] (set_start [2] initial_vars)) [2; 65; 3]);
    [apply block_A_reached | by apply step_return].
Defined.

(** The message returned after a rejected block (the run of
    [read_replies_witness]) begins with no SOH and validates. *)
Lemma read_checked_witness : checked [65; 3; 66].
Proof.
  by apply (read_checked serial_connected None 12 (world_of bad_then_good) _
              (mkWorld 24 true [] [21] 1
                 [LogReceived [2; 65; 3; 0] "SerialTransport";
                  LogSent [21] "SerialTransport";
                  LogReceived [2; 65; 3; 64] "SerialTransport"])).
Defined.
