(* ===== verification/Decode.v ===== *)
(** * [read] as a function of the bytes received

    What [read] (lines 32-131 of transports.py) computes does not depend on
    the clock, the log or the transport as long as the bytes arrive in time
    and the replies go through: it is a function of the bytes.  [decode] is
    that function, by recursion on the bytes and without fuel: in
    [Collecting] a byte goes through the decision of the inner loop (lines
    61-78), in [Checking] it is the check byte and the block is judged by the
    decision table (lines 80-129).  Beside the message it returns the blocks
    it judged, each with the reply it is due, and the bytes it did not touch.

    [read_decodes] is the refinement: on every stream of bytes on which
    [decode] finds a message, whatever the stream holds before and between
    the blocks, [read] returns that message, has consumed what [decode]
    consumed, and has written and logged what the judged blocks say.  It is
    proved along the runs of the machine of [Machine], one transition for
    every byte.

    [decode_wire] relates [decode] to the reference of [Messages]: on a
    message of blocks it returns [reassemble].  With the refinement this
    gives what [read_message] says of [read] a second time ([read_wire]), by
    reasoning about bytes alone. *)

From Stdlib Require Import ZArith Lia.
From stdpp Require Import base tactics option list numbers strings relations.
From S2P Require Import Prelude Checksum World Transport Scan Serial Framing.
From S2P Require Import Messages Safety Machine.

#[local] Open Scope Z_scope.

(** ** The function *)

(** Where [read] is: in the inner loop, or after it with the check byte to
    come; both with the locals. *)
Inductive dstate : Type :=
| Collecting (v : ReadVars) (in_data : bytes)
| Checking (v : ReadVars) (in_data : bytes).

(** A block with its check byte, and the reply it is due. *)
Definition judged : Type := bytes * reply.

Section Function.
Context `{Checksum} `{Constants}.

(** The state after a receive in the inner loop returned [b]. *)
Definition advance (v : ReadVars) (in_data : bytes) (b : bytes) : dstate :=
  match block_byte (v, in_data) b with
  | inl (v, in_data) => Collecting v in_data
  | inr (v, in_data) => Checking v in_data
  end.

Fixpoint decode (s : dstate) (bs : bytes)
    : option (bytes * list judged * bytes) :=
  match bs with
  | [] => None
  | b :: bs =>
    match s with
    | Collecting v in_data => decode (advance v in_data [b]) bs
    | Checking v in_data =>
      let in_data := in_data ++ [b] in
      match verdict (incr_packets v) in_data with
      | (Break total_data, r) => Some (total_data, [(in_data, r)], bs)
      | (Continue v, r) =>
        '(total_data, tr, unread) ← decode (Collecting v []) bs;
        Some (total_data, (in_data, r) :: tr, unread)
      end
    end
  end.

(** The check byte: the block is judged, and [decode] ends or goes on as
    the verdict says. *)
Lemma decode_checking v in_data b bs m tr unread :
  decode (Checking v in_data) (b :: bs) = Some (m, tr, unread) →
  let vd := verdict (incr_packets v) (in_data ++ [b]) in
  ∃ tr', tr = (in_data ++ [b], vd.2) :: tr' ∧
    match vd.1 with
    | Break total_data => total_data = m ∧ tr' = [] ∧ unread = bs
    | Continue v => decode (Collecting v []) bs = Some (m, tr', unread)
    end.
Proof.
  simpl. destruct (verdict _ _) as [[v2 | t] r]; simpl.
  - destruct (decode (Collecting v2 []) bs) as [[[m' tr'] u'] |]; intros [= <- <- <-].
    by exists tr'.
  - intros [= <- <- <-]. by exists [].
Qed.

(** [decode] takes the bytes from the front and leaves the rest. *)
Lemma decode_unread bs : ∀ s m tr unread,
  decode s bs = Some (m, tr, unread) →
  unread `suffix_of` bs ∧ (length unread < length bs)%nat.
Proof.
  induction bs as [| b bs IH]; intros s m tr unread Hdec; [done |].
  assert (∀ s' tr', decode s' bs = Some (m, tr', unread) →
            unread `suffix_of` b :: bs ∧ (length unread < length (b :: bs))%nat)
    as Hnext.
  { intros s' tr' [Hs Hl]%IH. split; [by apply suffix_cons_r | simpl; lia]. }
  destruct s as [v in_data | v in_data]; [by apply Hnext in Hdec |].
  apply decode_checking in Hdec as (tr' & -> & Hk).
  destruct (verdict _ _).1; [by apply Hnext in Hk |].
  destruct Hk as (_ & _ & ->). split; [by apply suffix_cons_r | simpl; lia].
Qed.

(** ** [decode] on a message of blocks *)

(** Bytes on which the inner loop goes on. *)
Lemma decode_absorb bs : ∀ v in_data v' in_data' more,
  absorb v in_data bs = Some (v', in_data') →
  decode (Collecting v in_data) (bs ++ more) = decode (Collecting v' in_data') more.
Proof.
  unfold absorb. induction bs as [| b bs IH]; intros v d v' d' more Ha;
    [by simplify_eq/= |].
  cbn [feed] in Ha. cbn [app decode]. unfold advance.
  destruct (block_byte (v, d) [b]) as [[v1 d1] | r]; [by apply IH | done].
Qed.

(** The end character. *)
Lemma decode_end v in_data e more :
  start_char_received v = true → [e] ∈ end_chars →
  decode (Collecting v in_data) (e :: more) =
    decode (Checking (set_end [e] v) (in_data ++ [e])) more.
Proof.
  intros Hv He. simpl. unfold advance, block_byte. rewrite Hv. simpl.
  by rewrite decide_True.
Qed.

(** A block up to its end character, entered as [read] may enter one. *)
Lemma decode_block v junk s p e more :
  entry v junk s → clean p → [e] ∈ end_chars →
  decode (Collecting v []) (((junk ++ [s]) ++ p ++ [e]) ++ more) =
    decode (Checking (set_end [e] (set_start [s] v)) ([s] ++ p ++ [e])) more.
Proof.
  intros [(Hv & Hjunk & Hs) | ([Hv Hs] & -> & ->)] Hp He;
    rewrite <- !app_assoc.
  - rewrite app_assoc.
    rewrite (decode_absorb _ _ _ _ _ _ (absorb_skip v [] junk s Hv Hjunk Hs)).
    rewrite (decode_absorb _ _ _ _ _ _
               (absorb_collect (set_start [s] v) ([] ++ [s]) p eq_refl Hp)).
    by apply decode_end.
  - replace (set_start _ v) with v by (symmetry; by apply set_start_in_stream).
    change ([] ++ [2] ++ p ++ [e] ++ more) with ((2 :: p) ++ e :: more).
    rewrite (decode_absorb _ _ _ _ _ _
               (absorb_collect v [] (2 :: p) Hv
                  ltac:(constructor; [apply stx_not_end | done]))).
    by apply decode_end.
Qed.

(** A block with its check byte, up to the check byte. *)
Lemma decode_frame v junk e p more :
  entry v junk 2 → clean p → [e] ∈ end_chars →
  decode (Collecting v []) (junk ++ frame e p ++ more) =
    decode (Checking (set_end [e] (set_start [2] v)) ([2] ++ p ++ [e]))
      (bcc ([2] ++ p ++ [e]) :: more).
Proof.
  intros Hv Hp He. rewrite frame_snoc.
  replace (junk ++ (([2] ++ p ++ [e]) ++ [bcc ([2] ++ p ++ [e])]) ++ more)
    with (((junk ++ [2]) ++ p ++ [e]) ++ bcc ([2] ++ p ++ [e]) :: more)
    by (by rewrite <- !app_assoc).
  by apply decode_block.
Qed.

(** The blocks [read] judges on a message, with their replies. *)
Definition wire_judged (qs : list bytes) (p : bytes) : list judged :=
  map (λ q, (frame 4 q, SendAck)) qs ++ [(frame 3 p, NoReply)].

(** The last block of several. *)
Lemma decode_last v junk p more :
  entry v junk 2 → clean p →
  decode (Collecting v []) (junk ++ frame 3 p ++ more) =
    let v1 := incr_packets (set_end [3] (set_start [2] v)) in
    let total_data := total_data v1 ++ strip_stx v1 (frame 3 p) in
    Some (if decide (1 < packets v1)%nat
          then add_bcc (slice_to_neg 1 total_data) else total_data,
          [(frame 3 p, NoReply)], more).
Proof.
  intros Hv Hp. rewrite decode_frame by (done || auto with iec).
  cbn [decode]. rewrite <- frame_snoc.
  by rewrite verdict_etx by (done || apply frame_valid).
Qed.

(** A partial block. *)
Lemma decode_partial v junk q more :
  entry v junk 2 → clean q →
  decode (Collecting v []) (junk ++ frame 4 q ++ more) =
    '(m, tr, unread) ←
       decode (Collecting
                 (add_total (strip_stx (incr_packets v) ([2] ++ q ++ encode LINE_END))
                    (incr_packets (set_end [4] (set_start [2] v)))) []) more;
    Some (m, (frame 4 q, SendAck) :: tr, unread).
Proof.
  intros Hv Hq. rewrite decode_frame by (done || auto with iec).
  cbn [decode]. rewrite <- frame_snoc.
  rewrite verdict_eot by (done || apply frame_valid). by rewrite frame_body.
Qed.

(** The blocks after the first. *)
Lemma decode_blocks p more qs : ∀ v,
  in_stream v → (1 ≤ packets v)%nat → Forall clean qs → clean p →
  decode (Collecting v []) (wire qs p ++ more) =
    Some (add_bcc (total_data v ++ joined qs ++ p ++ [3]), wire_judged qs p, more).
Proof.
  induction qs as [| q qs IH]; intros v Hv Hk Hqs Hp; unfold wire; simpl.
  - change (frame 3 p ++ more) with ([] ++ frame 3 p ++ more).
    rewrite (decode_last v [] p more) by (by right || done).
    cbv zeta. unfold strip_stx. simpl packets. rewrite !decide_True by lia.
    rewrite frame_tail. do 3 f_equal.
    cbn [total_data incr_packets set_end set_start].
    by rewrite !app_assoc, slice_to_neg_snoc, <- !app_assoc.
  - apply Forall_cons in Hqs as [Hq Hqs]. rewrite <- !app_assoc.
    change (frame 4 q ++ ?x) with ([] ++ frame 4 q ++ x).
    rewrite (decode_partial v [] q) by (by right || done).
    rewrite (app_assoc (concat _)). fold (wire qs p).
    rewrite IH by (done || simpl; lia).
    simpl.
    do 3 f_equal. unfold strip_stx. simpl packets.
    rewrite decide_True by lia. unfold joined. simpl.
    by rewrite <- !app_assoc.
Qed.

(** [decode] agrees with the reference [reassemble]: on noise and then a
    message of blocks it returns the reassembled message, has judged every
    block, with an ACK for every partial block, and leaves what follows. *)
Lemma decode_wire junk qs p more :
  noise junk → Forall clean qs → clean p →
  decode (Collecting initial_vars []) (junk ++ wire qs p ++ more) =
    Some (reassemble qs p, wire_judged qs p, more).
Proof.
  intros Hjunk Hqs Hp. destruct qs as [| q qs]; unfold wire; simpl.
  - by rewrite decode_last by (done || by apply entry_initial; auto with iec).
  - apply Forall_cons in Hqs as [Hq Hqs]. rewrite <- !app_assoc.
    rewrite decode_partial by (done || by apply entry_initial; auto with iec).
    rewrite (app_assoc (concat _)). fold (wire qs p).
    rewrite decode_blocks by (done || simpl; lia). simpl.
    do 3 f_equal. unfold joined. simpl. by rewrite <- !app_assoc.
Qed.

(** What [read] logs for a judged block. *)
Definition judged_log (cls : string) (j : judged) : list LogRecord :=
  LogReceived j.1 cls ::
  match j.2 with
  | NoReply => []
  | r => [LogSent (reply_bytes r) cls]
  end.

End Function.

(** The world when [read] returns after the events [evs], with [rest] still
    to come, having judged the blocks [tr]. *)
Definition decoded `{Transport T} `{Constants} (self : T)
    (evs rest : list RxEvent) (tr : list judged) (w : World) : World :=
  mkWorld (now w + script_time evs) (line_up w) rest
    (tx w ++ replies_bytes tr.*2) (handles w)
    (log w ++ concat (map (judged_log (class_name self)) tr)).

(** The world [read] leaves for a message of blocks is [finished], the
    world of [read_message]: with [decode_wire], [read_decodes] gives
    [read_message] again. *)
Lemma decoded_wire `{TransportLaws T} `{Checksum} `{Constants} (self : T)
    evs rest qs p w :
  decoded self evs rest (wire_judged qs p) w = finished self evs rest qs p w.
Proof.
  unfold decoded, finished, wire_judged, replies_bytes, acks, read_log.
  do 2 f_equal; (induction qs as [| q qs IH]; simpl; [| rewrite <- IH]);
    by rewrite ?app_nil_r.
Qed.

(** ** The refinement *)

Section Refinement.
Context `{TransportLaws T} `{Checksum} `{Constants}.
Variables (self : T) (tmo : Z).
Hypothesis Hlink : link self = Timed tmo.
Implicit Types (v : ReadVars) (w : World) (s : dstate).

(** The configuration of the machine for a state of [decode]. *)
Definition phase_of (st : Z) s : phase :=
  match s with
  | Collecting v in_data => Receiving st v in_data
  | Checking v in_data => BlockComplete v in_data
  end.

Lemma decoded_tick evs rest r d x tr w :
  decoded self evs rest tr (with_rx r (tick d w)) =
  decoded self (mkRx d x :: evs) rest tr w.
Proof. unfold decoded. simpl. f_equal. lia. Qed.

Lemma decoded_cons evs rest r0 d x blk r tr w :
  decoded self evs rest tr (replied self r (received self blk d r0 w)) =
  decoded self (mkRx d x :: evs) rest ((blk, r) :: tr) w.
Proof.
  unfold decoded, replied, received, replies_bytes, judged_log.
  destruct r; simpl; rewrite ?app_nil_r; world_eq.
Qed.

Lemma decoded_one rest d x blk r w :
  replied self r (received self blk d rest w) =
  decoded self [mkRx d x] rest [(blk, r)] w.
Proof.
  unfold decoded, replied, received, replies_bytes, judged_log.
  destruct r; simpl; rewrite ?app_nil_r; world_eq.
Qed.

(** A byte in time takes the machine from a state of the inner loop to the
    state [advance] gives. *)
Lemma step_advance st v in_data b w w' :
  BaseTransport.recv 1 self w = (Ok [b], w') → ¬ late self st w' →
  step self (Receiving st v in_data, w)
    (phase_of st (advance v in_data [b]), w').
Proof.
  intros Hr Hl. unfold advance, block_byte.
  destruct (start_char_received v) eqn:Hv; simpl; case_decide; simpl.
  - by eapply step_end.
  - by eapply step_data.
  - by eapply step_start.
  - by eapply step_discard.
Qed.

(** The line takes the replies of the blocks [tr]. *)
Definition takes (tr : list judged) w : Prop := Forall (λ j, answerable j.2 w) tr.

Lemma takes_line_up tr w w' : line_up w' = line_up w → takes tr w → takes tr w'.
Proof.
  intros Hup Htr. eapply Forall_impl; [exact Htr |].
  intros j. unfold answerable. by rewrite Hup.
Qed.

(** From every state of [decode], on bytes that arrive in time. *)
Lemma run_config_decode rest bs : ∀ s st evs w m tr unread fuel,
  decode s bs = Some (m, tr, unread) →
  delivers tmo evs bs → rx w = evs ++ rest →
  st ≤ now w → now w + script_time evs - st ≤ seconds (timeout self) →
  (length evs ≤ fuel)%nat → takes tr w →
  ∃ evs1 evs2, evs = evs1 ++ evs2 ∧ delivers tmo evs2 unread ∧
    run_config fuel self (phase_of st s, w) =
      Some (Ok m, decoded self evs1 (evs2 ++ rest) tr w).
Proof.
  induction bs as [| b bs IH];
    intros s st evs w m tr unread fuel Hdec Hevs Hrx Hst Ht Hf Htr; [done |].
  apply delivers_cons_inv in Hevs as (d & evs' & -> & Hd & Hevs').
  pose proof (delivers_nonneg _ _ _ Hevs').
  destruct fuel as [| fuel]; [simpl in Hf; lia |].
  simpl in Hrx, Ht, Hf, Hdec. destruct s as [v in_data | v in_data].
  - set (w1 := with_rx (evs' ++ rest) (tick d w)).
    destruct (IH _ st evs' w1 m tr unread fuel Hdec Hevs')
      as (evs1 & evs2 & Heq & Hevs2 & Hrun);
      [done | simpl; lia | simpl; lia | lia | by eapply takes_line_up |].
    exists (mkRx d (RxBytes [b]) :: evs1), evs2.
    split_and!; [by rewrite Heq | done |].
    rewrite <- (decoded_tick _ _ (evs' ++ rest)). fold w1.
    eapply step_run; [| exact Hrun].
    apply step_advance; [by apply (recv_byte self tmo); [| | lia] |].
    unfold late. simpl. lia.
  - apply decode_checking in Hdec as (tr' & -> & Hk).
    apply Forall_cons in Htr as [Ha Htr].
    change (run_config (S fuel) self (phase_of st (Checking v in_data), w))
      with (conclude (S fuel) self v in_data w).
    unfold conclude.
    rewrite (handle_block_verdict self tmo v in_data w d b (evs' ++ rest))
      by (done || lia).
    destruct (verdict (incr_packets v) (in_data ++ [b])) as [[v2 | t] r].
    + set (w2 := replied self r (received self (in_data ++ [b]) d (evs' ++ rest) w)).
      destruct (IH _ (now w2) evs' w2 m tr' unread fuel Hk Hevs')
        as (evs1 & evs2 & Heq & Hevs2 & Hrun);
        [by unfold w2; rewrite replied_rx | lia | unfold w2; lia | lia
        | eapply takes_line_up; [| done]; by destruct r |].
      exists (mkRx d (RxBytes [b]) :: evs1), evs2.
      split_and!; [by rewrite Heq | done |].
      cbn [fst snd]. fold w2. rewrite read_loop_resume.
      etrans; [exact Hrun |]. unfold w2.
      by rewrite (decoded_cons _ _ _ _ (RxBytes [b])).
    + destruct Hk as (-> & -> & ->). exists [mkRx d (RxBytes [b])], evs'.
      split_and!; [done | done |]. by rewrite (decoded_one _ _ (RxBytes [b])).
Qed.

End Refinement.

Section Read.
Context `{TransportLaws T} `{Checksum} `{Constants}.
Variables (self : T) (tmo : Z).
Hypothesis Hlink : link self = Timed tmo.

(** The outer loop from the initial variables. *)
Lemma read_loop_decodes bs m tr unread evs rest fuel w :
  decode (Collecting initial_vars []) bs = Some (m, tr, unread) →
  delivers tmo evs bs → rx w = evs ++ rest →
  script_time evs ≤ seconds (timeout self) →
  (length evs < fuel)%nat → takes tr w →
  let k := (length bs - length unread)%nat in
  read_loop fuel self initial_vars w =
    Some (Ok m, decoded self (take k evs) (drop k evs ++ rest) tr w).
Proof.
  intros Hdec Hevs Hrx Ht Hf Htr k.
  destruct fuel as [| fuel]; [lia |]. rewrite read_loop_resume.
  destruct (run_config_decode self tmo Hlink rest bs _ (now w) evs w m tr unread
              fuel Hdec Hevs Hrx) as (evs1 & evs2 & -> & Hevs2 & Hrun);
    [lia | lia | lia | done |].
  pose proof (delivers_length _ _ _ Hevs) as Hlen.
  pose proof (delivers_length _ _ _ Hevs2).
  assert (k = length evs1) as -> by (unfold k; rewrite length_app in Hlen; lia).
  by rewrite take_app_length, drop_app_length.
Qed.

(** The message of blocks again: what [read_message] says of [read]
    follows from the refinement and from what [decode] makes of a message
    of blocks. *)
Lemma read_wire timeout_arg junk qs p evs rest fuel w :
  noise junk → Forall clean qs → clean p →
  delivers tmo evs (junk ++ wire qs p) →
  rx w = evs ++ rest →
  script_time evs ≤ seconds (timeout self) →
  (length evs < fuel)%nat →
  qs = [] ∨ line_up w = true →
  read fuel timeout_arg self w =
    Some (Ok (reassemble qs p), finished self evs rest qs p w).
Proof.
  intros Hjunk Hqs Hp Hevs Hrx Ht Hf Hup.
  pose proof (decode_wire junk qs p [] Hjunk Hqs Hp) as Hdec.
  rewrite app_nil_r in Hdec. pose proof (delivers_length _ _ _ Hevs) as Hlen.
  unfold read.
  rewrite (read_loop_decodes _ _ _ _ evs rest fuel w Hdec) by
    first [ done | destruct Hup as [-> | Hup];
                   [by repeat constructor | apply Forall_forall; by right] ].
  simpl length. rewrite Nat.sub_0_r, <- Hlen, firstn_all, drop_all.
  by rewrite decoded_wire.
Qed.

End Read.

(** C2.  [read] implements [decode].  On every stream of bytes on which
    [decode] finds a message, be it noise, blocks that fail their checksum,
    partial blocks, a command message or bytes between the blocks, when the
    bytes arrive one by one within the read timeout and the timeout of the
    transport and the line takes the replies: [read] returns the message of
    [decode], has consumed the bytes [decode] consumed and no more, has
    sent the replies of the judged blocks in their order and nothing else,
    and has logged every block and every reply. *)
Theorem read_decodes `{TransportLaws T} `{Checksum} `{Constants} (self : T)
    tmo timeout_arg bs m tr unread evs rest fuel w :
  link self = Timed tmo →
  decode (Collecting initial_vars []) bs = Some (m, tr, unread) →
  delivers tmo evs bs → rx w = evs ++ rest →
  script_time evs ≤ seconds (timeout self) →
  (length evs < fuel)%nat → takes tr w →
  let k := (length bs - length unread)%nat in
  read fuel timeout_arg self w =
    Some (Ok m, decoded self (take k evs) (drop k evs ++ rest) tr w).
Proof. intros. unfold read. by apply (read_loop_decodes self tmo). Qed.

(** ** A concrete run *)

(** Noise, the block A with a wrong check byte, the block A as a partial
    block, the last block B, and a byte that is left on the line: one NACK,
    one ACK.  (The rejected block was counted, so that the STX of the first
    good block is missing from the message.) *)
Definition noisy_stream : bytes :=
  [9; 2; 65; 3; 0; 2; 65; 4; 71; 2; 66; 3; 67; 100].

Lemma read_decodes_witness :
  read 20 None serial_connected (world_of (bytes_every 3 noisy_stream)) =
    Some (Ok [65; 13; 10; 66; 3; 7],
          mkWorld 39 true (bytes_every 3 [100]) [21; 6] 1
            [LogReceived [2; 65; 3; 0] "SerialTransport";
             LogSent [21] "SerialTransport";
             LogReceived [2; 65; 4; 71] "SerialTransport";
             LogSent [6] "SerialTransport";
             LogReceived [2; 66; 3; 67] "SerialTransport"]).
Proof.
  etrans;
    [apply (read_decodes serial_connected 5000 None noisy_stream
              [65; 13; 10; 66; 3; 7]
              [([2; 65; 3; 0], SendNack); ([2; 65; 4; 71], SendAck);
               ([2; 66; 3; 67], NoReply)] [100]
              (bytes_every 3 noisy_stream) [])
    | by vm_compute]; concrete.
Defined.
