(* ===== verification/Explain.v ===== *)
(** * Every run of [read] is a run of the decoder

    [Decode] shows that [read] computes [decode] when the bytes arrive in
    time.  This file shows the converse for every run, whatever arrives and
    whenever: the locals of [read], what it has sent and what it has logged
    are, at every point of every run, what the decoder makes of the
    results of the receives so far.  The decoder is [drun], the function
    [decode] on the bytes objects the receives returned, one byte or none
    each: a receive that timed out on a serial port returns the empty bytes
    object, which the inner loop passes over and which the block in
    [Checking] takes for its check byte.

    [machine_explained] is the invariant, by induction on the runs of the
    machine of [Machine]; [read_explained] is what it says of the outcome of
    [read].  A message [read] returns is that of [drun] on the receive
    results, which together are the bytes [read] took from the line; the
    replies sent are those of the judged blocks, and no block that failed
    its checksum was acknowledged, no block that passed was rejected.  A
    [read] that raises has sent the replies of the blocks judged until
    then, and has taken from the line the receive results and at most one
    byte more: the result of the receive after which the deadline had
    passed, or the check byte of a block whose reply the line did not
    take. *)

From Stdlib Require Import ZArith Lia.
From stdpp Require Import base tactics option list numbers strings relations.
From S2P Require Import Prelude Checksum World Transport Scan Serial Framing.
From S2P Require Import Messages Safety Machine Decode.

#[local] Open Scope Z_scope.

(** ** The decoder on receive results *)

Section Receives.
Context `{Checksum} `{Constants}.

(** One receive result: the state after it or the message, and the block
    that was judged, if one was. *)
Definition dstep (s : dstate) (b : bytes) : (dstate + bytes) * list judged :=
  match s with
  | Collecting v in_data => (inl (advance v in_data b), [])
  | Checking v in_data =>
    let in_data := in_data ++ b in
    match verdict (incr_packets v) in_data with
    | (Break total_data, r) => (inr total_data, [(in_data, r)])
    | (Continue v, r) => (inl (Collecting v []), [(in_data, r)])
    end
  end.

(** The receive results [bss], one after the other, up to the message:
    where the decoder is or the message, the blocks judged, and the results
    that follow the message. *)
Fixpoint drun (s : dstate) (bss : list bytes)
    : (dstate + bytes) * list judged * list bytes :=
  match bss with
  | [] => (inl s, [], [])
  | b :: bss =>
    match dstep s b with
    | (inl s, tr) => let '(r, tr', rest) := drun s bss in (r, tr ++ tr', rest)
    | (inr total_data, tr) => (inr total_data, tr, bss)
    end
  end.

(** Before the message no result is left over. *)
Lemma drun_inl bss : ∀ s s' tr rest, drun s bss = (inl s', tr, rest) → rest = [].
Proof.
  induction bss as [| b bss IH]; intros s s' tr rest Hrun; simpl in *;
    [by simplify_eq |].
  destruct (dstep s b) as [[s1 | m] tr1]; [| done].
  destruct (drun s1 bss) as [[r tr2] rest2] eqn:Hrun1. simplify_eq.
  by eapply IH.
Qed.

(** One more receive result. *)
Lemma drun_snoc bss b : ∀ s s' tr,
  drun s bss = (inl s', tr, []) →
  drun s (bss ++ [b]) = ((dstep s' b).1, tr ++ (dstep s' b).2, []).
Proof.
  induction bss as [| b0 bss IH]; intros s s' tr Hrun; simpl in *.
  - simplify_eq. destruct (dstep s' b) as [[s1 | m] tr1]; simpl;
      by rewrite ?app_nil_r.
  - destruct (dstep s b0) as [[s1 | m] tr1]; [| done].
    destruct (drun s1 bss) as [[r tr2] rest2] eqn:Hrun1. simplify_eq.
    rewrite (IH _ _ _ Hrun1). by rewrite app_assoc.
Qed.

(** [decode] is [drun] on receives of one byte each. *)
Lemma decode_drun bs : ∀ s m tr unread,
  decode s bs = Some (m, tr, unread) →
  ∃ used, bs = used ++ unread ∧ drun s (map (λ b, [b]) used) = (inr m, tr, []).
Proof.
  induction bs as [| b bs IH]; intros s m tr unread Hdec; [done |].
  destruct s as [v in_data | v in_data].
  - destruct (IH _ _ _ _ Hdec) as (used & -> & Hrun).
    exists (b :: used). split; [done |]. simpl. by rewrite Hrun.
  - simpl in Hdec.
    destruct (verdict (incr_packets v) (in_data ++ [b])) as [[v2 | t] r] eqn:Hv.
    + destruct (decode (Collecting v2 []) bs) as [[[m' tr'] u'] |] eqn:Hdec';
        simplify_eq/=.
      destruct (IH _ _ _ _ Hdec') as (used & -> & Hrun).
      exists (b :: used). split; [done |]. simpl. by rewrite Hv, Hrun.
    + simplify_eq. exists [b]. split; [done |]. simpl. by rewrite Hv.
Qed.

(** And [drun] on receives none of which came back empty is [decode] on
    their bytes. *)
Lemma drun_decode bs unread : ∀ s m tr,
  drun s (map (λ b, [b]) bs) = (inr m, tr, []) →
  decode s (bs ++ unread) = Some (m, tr, unread).
Proof.
  induction bs as [| b bs IH]; intros s m tr Hrun; [done |].
  destruct s as [v in_data | v in_data]; simpl in *.
  - destruct (drun _ _) as [[r tr'] rest] eqn:Hrun'. simplify_eq. by apply IH.
  - destruct (verdict (incr_packets v) (in_data ++ [b])) as [[v2 | t] r].
    + destruct (drun _ _) as [[r' tr'] rest] eqn:Hrun'. simplify_eq.
      by rewrite (IH _ _ _ Hrun').
    + simplify_eq. by destruct bs.
Qed.

(** A reply says what the check of the block said. *)
Definition honest (j : judged) : Prop :=
  match j.2 with
  | SendAck => bcc_valid j.1 = true
  | SendNack => bcc_valid j.1 = false
  | NoReply => True
  end.

Lemma verdict_honest v blk : honest (blk, (verdict v blk).2).
Proof.
  unfold honest, verdict.
  repeat case_decide; by destruct (bcc_valid blk) eqn:Hb.
Qed.

Lemma dstep_honest s b : Forall honest (dstep s b).2.
Proof.
  destruct s as [v in_data | v in_data]; simpl; [done |].
  pose proof (verdict_honest (incr_packets v) (in_data ++ b)) as Hh.
  destruct (verdict _ _) as [[] r]; by repeat constructor.
Qed.

Lemma drun_honest bss : ∀ s, Forall honest (drun s bss).1.2.
Proof.
  induction bss as [| b bss IH]; intros s; simpl; [done |].
  pose proof (dstep_honest s b) as Hh.
  destruct (dstep s b) as [[s1 | m] tr1]; [| done].
  specialize (IH s1). destruct (drun s1 bss) as [[] ?]. by apply Forall_app.
Qed.

End Receives.

(** ** The invariant of the runs *)

Section Explained.
Context `{TransportLaws T} `{Checksum} `{Constants}.
Variable self : T.
Hypothesis Hidle : ∀ x xs, on_timeout ≠ Ok (x :: xs).
Hypothesis Hfail : ∀ x xs, on_error ≠ Ok (x :: xs).
Implicit Types (v : ReadVars) (w : World) (c : config) (s : dstate).

(** The state of the decoder in a configuration of the machine. *)
Definition abstract (p : phase) : option (dstate + bytes) :=
  match p with
  | Receiving _ v in_data => Some (inl (Collecting v in_data))
  | BlockComplete v in_data => Some (inl (Checking v in_data))
  | MessageComplete total_data => Some (inr total_data)
  | Failed _ => None
  end.

(** What a trace of judged blocks has sent and logged since [w]. *)
Definition effects (tr : list judged) w w' : Prop :=
  tx w' = tx w ++ replies_bytes tr.*2 ∧
  log w' = log w ++ concat (map (judged_log (class_name self)) tr).

(** The receive results [bss] explain the configuration [c] of a read that
    began in the world [w]: they are the bytes taken from the line since,
    the decoder is where the machine is, and the blocks it judged say what
    was sent and logged. *)
Definition explains w (bss : list bytes) c : Prop :=
  let '(r, tr, rest) := drun (Collecting initial_vars []) bss in
  abstract c.1 = Some r ∧ rest = [] ∧
  Forall one_or_none bss ∧
  pending (rx w) = concat bss ++ pending (rx c.2) ∧
  effects tr w c.2.

(** The receive results [bss] explain a read that began in [w] and failed
    in [w']: the decoder has not come to a message; the bytes taken from the
    line are those results and [lost], the result of a receive that came
    back too late or before a reply that the line did not take; what was
    written are the replies of the blocks judged. *)
Definition stopped w (bss : list bytes) (lost : bytes) w' : Prop :=
  let '(r, tr, rest) := drun (Collecting initial_vars []) bss in
  (∃ s, r = inl s) ∧ rest = [] ∧
  Forall one_or_none bss ∧ one_or_none lost ∧ Forall honest tr ∧
  pending (rx w) = concat bss ++ lost ++ pending (rx w') ∧
  tx w' = tx w ++ replies_bytes tr.*2.

Definition explained w c : Prop :=
  match c.1 with
  | Failed _ => ∃ bss lost, stopped w bss lost c.2
  | _ => ∃ bss, explains w bss c
  end.

Lemma effects_nil w w1 w2 tr :
  effects tr w w1 → tx w2 = tx w1 → log w2 = log w1 → effects (tr ++ []) w w2.
Proof. unfold effects. rewrite app_nil_r. intros [-> ->] -> ->. done. Qed.

(** The effects of a judged block whose reply went through. *)
Lemma effects_replied w w1 w2 tr blk r :
  effects tr w w1 → tx w2 = tx w1 → log w2 = log w1 →
  effects (tr ++ [(blk, r)]) w
    (replied self r (log_record (LogReceived blk (class_name self)) w2)).
Proof.
  unfold effects, replies_bytes, judged_log. intros [Ht Hl] Ht2 Hl2.
  rewrite fmap_app, !map_app, !concat_app. simpl. rewrite !app_nil_r.
  destruct r; simpl; rewrite ?Ht2, ?Hl2, ?Ht, ?Hl, <- ?app_assoc;
    by rewrite ?app_nil_r.
Qed.

(** One receive more: the decoder takes its result. *)
Lemma explains_recv w bss c s b w1 p' w' :
  explains w bss c → abstract c.1 = Some (inl s) →
  BaseTransport.recv 1 self c.2 = (Ok b, w1) →
  abstract p' = Some (dstep s b).1 → rx w' = rx w1 →
  effects ((drun (Collecting initial_vars []) bss).1.2 ++ (dstep s b).2) w w' →
  explains w (bss ++ [b]) (p', w').
Proof.
  unfold explains. intros Hex Hs Hr Hp' Hrx He'.
  destruct (drun (Collecting initial_vars []) bss) as [[r tr] rest] eqn:Hrun.
  destruct Hex as (Ha & -> & Hb & Hp & He).
  simpl in *. rewrite Hs in Ha. simplify_eq.
  rewrite (drun_snoc _ _ _ _ _ Hrun). simpl. split_and!; [done | done | | | done].
  { apply Forall_app. split; [done |].
    apply Forall_singleton, (recv_ok_length _ _ _ _ _ Hidle Hfail Hr). }
  rewrite concat_app, Hp, (recv_ok_taken _ _ _ _ _ Hidle Hfail Hr), Hrx. simpl.
  by rewrite app_nil_r, app_assoc.
Qed.

(** A pass through the inner loop: the decoder advances as the loop
    decides. *)
Lemma explains_inner w bss st v in_data b w1 w2 :
  explains w bss (Receiving st v in_data, w1) →
  BaseTransport.recv 1 self w1 = (Ok b, w2) →
  explains w (bss ++ [b]) (phase_of st (advance v in_data b), w2).
Proof.
  intros Hex Hr. pose proof (recv_frame _ _ _ _ _ Hr) as (Ht & _ & Hl & _).
  apply (explains_recv w bss _ (Collecting v in_data) b w2 _ w2 Hex);
    [done | done | simpl; by destruct (advance v in_data b) | done |].
  unfold explains in Hex. destruct (drun _ bss) as [[r tr] rest].
  destruct Hex as (_ & _ & _ & _ & He). by apply (effects_nil w w1).
Qed.

(** A read that fails at a receive or after it: the result of the receive,
    if there is one, is lost. *)
Lemma explains_stopped w bss c s r w1 w' :
  explains w bss c → abstract c.1 = Some (inl s) →
  BaseTransport.recv 1 self c.2 = (r, w1) → rx w' = rx w1 → tx w' = tx w1 →
  ∃ lost, stopped w bss lost w'.
Proof.
  unfold explains, stopped. intros Hex Hs Hr Hrx Htx.
  pose proof (drun_honest bss (Collecting initial_vars [])) as Hh.
  destruct (drun _ bss) as [[d tr] rest].
  destruct Hex as (Ha & -> & Hb & Hp & Ht & _). rewrite Hs in Ha.
  pose proof (recv_frame _ _ _ _ _ Hr) as (Ht1 & _).
  exists (match r with Ok b => b | Raise _ => [] end).
  split_and!; [by exists s; simplify_eq | done | done | | done | |
               by rewrite Htx, Ht1, Ht].
  - destruct r as [b | e]; [| unfold one_or_none; simpl; lia].
    apply (recv_ok_length _ _ _ _ _ Hidle Hfail Hr).
  - rewrite Hp, Hrx. f_equal. destruct r as [b | e].
    + apply (recv_ok_taken _ _ _ _ _ Hidle Hfail Hr).
    + symmetry. apply (recv_raise_taken _ _ _ _ _ Hr).
Qed.

(** The configuration after the rest of an iteration. *)
Definition after (k : ctl) w : config :=
  match k with
  | Break total_data => (MessageComplete total_data, w)
  | Continue v => block_start v w
  end.

Lemma after_world k w : after k w = ((after k w).1, w).
Proof. by destruct k. Qed.

(** The rest of an iteration: the decoder judges the block as [verdict]
    does, and the reply it is due was sent and logged. *)
Lemma explains_judged w bss v in_data w1 k w' :
  explains w bss (BlockComplete v in_data, w1) →
  handle_block self v in_data w1 = (Ok k, w') →
  ∃ x, explains w (bss ++ [x]) (after k w').
Proof.
  intros Hex (x & w2 & Hr & Hk & _ & ->)%handle_block_returns.
  pose proof (recv_frame _ _ _ _ _ Hr) as (Ht & _ & Hl & _).
  exists x. rewrite after_world.
  apply (explains_recv w bss (BlockComplete v in_data, w1) (Checking v in_data)
           x w2); [done | done | done | | by rewrite replied_rx |].
  - simpl in *. destruct (verdict _ _) as [[] r]; by simplify_eq/=.
  - unfold explains in Hex. destruct (drun _ bss) as [[r0 tr] rest].
    destruct Hex as (_ & _ & _ & _ & He). simpl in *.
    destruct (verdict _ _) as [[] r]; by apply (effects_replied w w1).
Qed.

(** Every transition keeps the run explained. *)
Lemma step_explained w c c' : step self c c' → explained w c → explained w c'.
Proof.
  destruct 1 as [st v d w1 e w2 Hr | st v d w1 b w2 Hr Hl | st v d w1 b w2 Hr Hl Hv Hb
    | st v d w1 b w2 Hr Hl Hv Hb | st v d w1 b w2 Hr Hl Hv Hb
    | st v d w1 b w2 Hr Hl Hv Hb | v d w1 t w2 Hh | v d w1 v' w2 Hh | v d w1 e w2 Hh];
    unfold explained; simpl; intros [bss Hex].
  1-2: exists bss; by apply (explains_stopped w bss _ _ _ w2 w2 Hex eq_refl Hr).
  1-4: exists (bss ++ [b]); pose proof (explains_inner w bss st v d b w1 w2 Hex Hr)
         as Hex'; unfold advance, block_byte in Hex'; rewrite Hv in Hex';
         simpl in Hex'; by rewrite ?decide_True, ?decide_False in Hex' by done.
  1-2: destruct (explains_judged w bss v d w1 _ w2 Hex Hh) as [x Hex'];
         by exists (bss ++ [x]).
  exists bss. destruct (handle_block_raises _ _ _ _ _ _ Hh)
    as [Hr | (x & w3 & Hr & _ & ->)];
    by apply (explains_stopped w bss _ _ _ _ _ Hex eq_refl Hr).
Qed.

(** Every configuration of every run that has not failed is explained by
    the results of the receives so far. *)
Lemma machine_explained w c : steps self (start w) c → explained w c.
Proof.
  intros Hs.
  apply (rtc_ind_r (R := step self) (explained w) (start w)); [| | done].
  - exists []. unfold explains, effects, replies_bytes. simpl.
    by rewrite !app_nil_r.
  - intros c1 c2 _ Hstep Hex. by eapply step_explained.
Qed.

End Explained.

(** C3.  Every run of [read] is explained by the decoder on the results of
    its receives, whatever arrived on the line and whenever, on every
    transport whose receive returns no bytes but those it took from the
    line.  When [read] returns, its message is that of [drun] on the
    results, one byte or none each and none left over; the results are
    together the bytes [read] consumed, in their order; what [read] sent are
    the replies of the blocks the decoder judged, in their order, what it
    logged are those blocks and replies, and every reply is honest: no
    block that fails its checksum was acknowledged and no block that passes
    was rejected.  When [read] raises, the decoder has found no message in
    the results, what was sent are the honest replies of the blocks judged
    until then, and the bytes consumed are the results and at most one byte
    more, which is lost. *)
Theorem read_explained `{TransportLaws T} `{Checksum} `{Constants} (self : T)
    timeout_arg fuel w r w' :
  (∀ x xs, on_timeout ≠ Ok (x :: xs)) → (∀ x xs, on_error ≠ Ok (x :: xs)) →
  read fuel timeout_arg self w = Some (r, w') →
  match r with
  | Ok m =>
    ∃ bss tr, drun (Collecting initial_vars []) bss = (inr m, tr, []) ∧
      Forall one_or_none bss ∧ Forall honest tr ∧
      pending (rx w) = concat bss ++ pending (rx w') ∧
      effects self tr w w'
  | Raise _ => ∃ bss lost, stopped w bss lost w'
  end.
Proof.
  intros Hidle Hfail Hr%read_loop_steps.
  pose proof (machine_explained self Hidle Hfail w _ Hr) as Hex.
  destruct r as [m | e]; [| done]. destruct Hex as [bss Hex].
  unfold explains in Hex.
  pose proof (drun_honest bss (Collecting initial_vars [])) as Hh.
  destruct (drun (Collecting initial_vars []) bss) as [[r tr] rest] eqn:Hrun.
  destruct Hex as (Ha & -> & Hb & Hp & He).
  exists bss, tr. simpl in *. by simplify_eq.
Qed.

(** ** A concrete run *)

(** The stream of [Decode.noisy_stream] whose first byte comes after the
    timeout of the port: the first receive returns the empty bytes object. *)
Definition slow_start : list RxEvent :=
  mkRx 6000 (RxBytes [9]) :: bytes_every 3 (tail noisy_stream).

(** The world after [read] on [slow_start]. *)
Definition slow_end : World :=
  mkWorld 6036 true (bytes_every 3 [100]) [21; 6] 1
    [LogReceived [2; 65; 3; 0] "SerialTransport";
     LogSent [21] "SerialTransport";
     LogReceived [2; 65; 4; 71] "SerialTransport";
     LogSent [6] "SerialTransport";
     LogReceived [2; 66; 3; 67] "SerialTransport"].

Lemma read_explained_witness :
  ∃ bss tr, drun (Collecting initial_vars []) bss = (inr [65; 13; 10; 66; 3; 7], tr, []) ∧
    Forall one_or_none bss ∧ Forall honest tr ∧
    pending slow_start = concat bss ++ [100] ∧
    effects serial_connected tr (world_of slow_start) slow_end.
Proof.
  apply (read_explained serial_connected None 20 (world_of slow_start)
           (Ok [65; 13; 10; 66; 3; 7]) slow_end); [done | done | by vm_compute].
Defined.
