(* ===== verification/Timeouts.v ===== *)
(** * Deadlines: [read] on a line where nothing arrives

    [read] compares the time since the top of the current iteration of its
    outer loop with [self.timeout] after every receive.  How long a receive
    blocks is the transport's affair: a serial port returns no bytes after its
    own read timeout, a socket raises.  The theorems of this file give the
    result of [read] on a quiet line for both kinds of transport, on a
    connection the peer has closed, and on a block whose checksum byte is
    late. *)

From Stdlib Require Import ZArith Lia.
From stdpp Require Import base tactics option list numbers strings.
From S2P Require Import Prelude Checksum World Transport Scan Serial Tcp Framing.

#[local] Open Scope Z_scope.

(** The receives that return before the deadline of [t] seconds has passed,
    each blocking for [tmo] milliseconds. *)
Definition polls (t tmo : Z) : nat := Z.to_nat (seconds t / tmo).

(** The time [read] spends on a quiet line before it raises: one receive
    more than fits in the timeout. *)
Definition patience (t tmo : Z) : Z := (Z.of_nat (polls t tmo) + 1) * tmo.

Lemma polls_spec t tmo :
  0 ≤ t → 0 < tmo →
  Z.of_nat (polls t tmo) * tmo ≤ seconds t < patience t tmo.
Proof.
  intros Ht Htmo. unfold patience, polls.
  assert (0 ≤ seconds t) by (unfold seconds; lia).
  rewrite Z2Nat.id by (apply Z.div_pos; lia).
  pose proof (Z.mul_div_le (seconds t) tmo Htmo).
  pose proof (Z.mul_succ_div_gt (seconds t) tmo Htmo). lia.
Qed.

Section Timeouts.
Context `{TransportLaws T} `{Checksum} `{Constants}.
Implicit Types (v : ReadVars) (w : World).

Section Link.
Variables (self : T) (tmo : Z).
Hypothesis Hlink : link self = Timed tmo.
Hypothesis Htmo : 0 < tmo.

(** ** A transport that polls: a timed-out receive returns no bytes *)

Section Polling.
Hypothesis Hpoll : on_timeout = Ok [].

(** The outer loop on a quiet line. *)
Lemma read_loop_idle v fuel w :
  0 ≤ timeout self →
  quiet (patience (timeout self) tmo) (rx w) →
  (S (polls (timeout self) tmo) < fuel)%nat →
  read_loop fuel self v w =
    Some (Raise (timed_out self), wait (patience (timeout self) tmo) w).
Proof.
  intros Ht Hq Hf. destruct fuel as [| fuel]; [lia |]. simpl.
  pose proof (polls_spec (timeout self) tmo Ht Htmo). unfold patience in *.
  rewrite read_block_scan.
  by rewrite (scan_idle block_byte self tmo Hlink (now w) (v, [])
                (polls (timeout self) tmo) Hpoll Htmo (block_byte_nil _));
    [| | lia | lia].
Qed.

(** [handle_block] when the checksum byte is not there within the read
    timeout: the verdict is on the block without it. *)
Lemma handle_block_late v in_data w :
  quiet tmo (rx w) →
  handle_block self v in_data w =
    answer self (verdict (incr_packets v) in_data)
      (log_record (LogReceived in_data (class_name self)) (wait tmo w)).
Proof.
  intros Hq.
  rewrite (handle_block_recv self v in_data w [] (wait tmo w))
    by (by rewrite (recv_quiet self tmo), Hpoll).
  by rewrite app_nil_r.
Qed.

End Polling.

(** ** A closed line *)

(** The outer loop on a closed line: every receive returns no bytes at
    once, whether a start character was received or not. *)
Lemma read_loop_hangup v s fuel w :
  0 ≤ timeout self → 0 < s → hung_up s (rx w) →
  (S (polls (timeout self) s) < fuel)%nat →
  read_loop fuel self v w =
    Some (Raise (timed_out self), tick (patience (timeout self) s) w).
Proof.
  intros Ht Hs Hup Hf. destruct fuel as [| fuel]; [lia |]. simpl.
  pose proof (polls_spec (timeout self) s Ht Hs). unfold patience in *.
  rewrite read_block_scan.
  by rewrite (scan_hangup block_byte self tmo Hlink (now w) (v, []) s
                (polls (timeout self) s) Hs (block_byte_nil _));
    [| | lia | lia].
Qed.

(** ** A transport whose receive raises on a timeout *)

Lemma read_loop_raises e v fuel w :
  on_timeout = Raise e → quiet tmo (rx w) → (1 < fuel)%nat →
  read_loop fuel self v w = Some (Raise e, wait tmo w).
Proof.
  intros He Hq Hf. destruct fuel as [| [| fuel]]; [lia | lia |]. simpl.
  by rewrite (recv_quiet self tmo), He.
Qed.

End Link.

(** The world after a block that arrived as [evs] was judged without its
    checksum byte and rejected. *)
Definition judged_late (self : T) (tmo : Z) (blk : bytes)
    (evs rest : list RxEvent) (w : World) : World :=
  replied self SendNack
    (log_record (LogReceived blk (class_name self))
       (wait tmo (with_rx rest (tick (script_time evs) w)))).

(** ** What [read] does *)

(** C8.  On a line where nothing arrives, with a transport whose receive
    returns no bytes after [tmo] milliseconds, [read] raises [TimeoutError]
    after the first receive that ends past the timeout, whatever its
    [timeout] argument, and has sent and logged nothing. *)
Theorem read_silence (self : T) tmo timeout_arg fuel w :
  link self = Timed tmo → on_timeout = Ok [] →
  0 < tmo → 0 ≤ timeout self →
  quiet (patience (timeout self) tmo) (rx w) →
  (S (polls (timeout self) tmo) < fuel)%nat →
  read fuel timeout_arg self w =
    Some (Raise (timed_out self), wait (patience (timeout self) tmo) w).
Proof. intros. unfold read. by apply read_loop_idle. Qed.

(** C28.  A block whose checksum byte is not there within the read timeout
    of a polling transport is judged without it: when the block alone does
    not validate, NACK is sent (the line being up) and the read goes on,
    however good the byte that comes later. *)
Theorem read_late_check (self : T) tmo timeout_arg junk p e evs rest fuel w :
  link self = Timed tmo → on_timeout = Ok [] →
  noise junk → clean p → [e] ∈ end_chars →
  bcc_valid ([2] ++ p ++ [e]) = false →
  delivers tmo evs ((junk ++ [2]) ++ p ++ [e]) →
  rx w = evs ++ rest → quiet tmo rest →
  script_time evs ≤ seconds (timeout self) →
  (length evs ≤ fuel)%nat →
  line_up w = true →
  read (S fuel) timeout_arg self w =
    read_loop fuel self (incr_packets (set_end [e] (set_start [2] initial_vars)))
      (judged_late self tmo ([2] ++ p ++ [e]) evs rest w).
Proof.
  intros Hl Hpoll Hjunk Hp He Hbad Hevs Hrx Hq Ht Hf Hup.
  unfold read, judged_late. simpl.
  pose proof (delivers_nonneg _ _ _ Hevs).
  rewrite (read_block_entry self tmo Hl (now w) initial_vars junk 2 p e fuel evs
             rest w); [| apply entry_initial; auto with iec | done .. | lia | done].
  rewrite (handle_block_late self tmo Hl Hpoll) by done.
  rewrite (verdict_invalid _ _ e) by done.
  unfold answer. by rewrite decide_True by (by right).
Qed.

(** C25.  The peer has closed the line: every receive returns no bytes at
    once, [read] takes them for bytes that are no start and no end character
    and receives again, until the time the program itself takes, [s] for every
    receive, has used up [self.timeout]; then it raises [TimeoutError].  It
    has sent and logged nothing, and the closed line is not reported. *)
Theorem read_hangup (self : T) tmo s timeout_arg fuel w :
  link self = Timed tmo → 0 ≤ timeout self → 0 < s →
  hung_up s (rx w) →
  (S (polls (timeout self) s) < fuel)%nat →
  read fuel timeout_arg self w =
    Some (Raise (timed_out self), tick (patience (timeout self) s) w).
Proof. intros. unfold read. by apply (read_loop_hangup self tmo). Qed.

(** The world after [read] gave up on a byte that came [d] milliseconds
    after the events [evs]: the byte is consumed with them. *)
Definition cut_off (evs : list RxEvent) (d : Z) (rest : list RxEvent) w
    : World :=
  with_rx rest (tick (script_time evs + d) w).

(** C27.  The deadline of [read] is measured from the top of the outer loop,
    not from the beginning of the wait for a byte: when the bytes [bs] arrive
    one by one, each within the read timeout, and none of them ends a block,
    and the next byte, although it comes within the read timeout as well,
    arrives more than [self.timeout] after the call, [read] raises
    [TimeoutError] and what it has collected is lost, whatever that byte is,
    the end character of the block included. *)
Theorem read_overdue (self : T) tmo timeout_arg bs b d evs rest fuel w :
  link self = Timed tmo →
  is_Some (absorb initial_vars [] bs) →
  delivers tmo evs bs → 0 ≤ d ≤ tmo →
  rx w = evs ++ mkRx d (RxBytes [b]) :: rest →
  script_time evs ≤ seconds (timeout self) < script_time evs + d →
  (S (length evs) < fuel)%nat →
  read fuel timeout_arg self w =
    Some (Raise (timed_out self), cut_off evs d rest w).
Proof.
  intros Hl Ha Hevs Hd Hrx Ht Hf. unfold read, cut_off.
  destruct fuel as [| fuel]; [lia |]. simpl. rewrite read_block_scan.
  by rewrite (scan_overdue block_byte self tmo Hl (now w) bs b d _ evs rest
                fuel w) by (done || lia).
Qed.

End Timeouts.

(** ** The two transports *)


(** What [TcpTransport._recv] makes of the timeout of its socket. *)
Definition wrapped_timeout : exn := TransportError EmptyString.

(** C31.  A connected TCP transport on a line where nothing arrives within
    the socket's timeout: [read] raises [TransportError], not
    [TimeoutError], at the end of the first receive. *)
Theorem read_silence_tcp (self : TcpTransport.t) tmo timeout_arg fuel w :
  link self = Timed tmo → quiet tmo (rx w) → (1 < fuel)%nat →
  read fuel timeout_arg self w = Some (Raise wrapped_timeout, wait tmo w).
Proof. intros. unfold read. by apply read_loop_raises. Qed.

(** ** Concrete runs *)

(** The serial transport of [Serial] after [switch_baudrate]: the read
    timeout of its port is the whole timeout. *)
Definition serial_switched : SerialTransport.t :=
  SerialTransport.set_port
    (Some (SerialTransport.settings serial_connected 9600 10000)) serial_connected.

(** After [switch_baudrate] the receives block for the whole timeout, and
    [read] gives up after two of them: twenty seconds. *)
Lemma read_silence_witness :
  read 3 (Some 5) serial_switched (world_of []) =
    Some (Raise (timed_out serial_switched),
          wait (patience (timeout serial_switched) 10000) (world_of [])).
Proof. apply read_silence; concrete. Defined.

(** The block A, whole and valid, whose check byte takes six seconds. *)
Definition late_check : list RxEvent :=
  bytes_every 3 (([] ++ [2]) ++ [65] ++ [3]) ++ [mkRx 6000 (RxBytes [64])].

Lemma read_late_check_witness :
  read (S 3) None serial_connected (world_of late_check) =
    read_loop 3 serial_connected
      (incr_packets (set_end [3] (set_start [2] initial_vars)))
      (judged_late serial_connected 5000 ([2] ++ [65] ++ [3])
         (bytes_every 3 (([] ++ [2]) ++ [65] ++ [3])) [mkRx 6000 (RxBytes [64])]
         (world_of late_check)).
Proof. apply read_late_check with (junk := []); concrete. Defined.


(** The TCP transport of [Tcp] after [connect]. *)
Definition tcp_connected : TcpTransport.t :=
  TcpTransport.set_socket (Some (socket.mkSocket (Some 30000) true)) tcp_fresh.1.

Lemma read_silence_tcp_witness :
  read 2 None tcp_connected (world_of []) =
    Some (Raise wrapped_timeout, wait 30000 (world_of [])).
Proof. apply read_silence_tcp; concrete. Defined.

(** A socket whose peer has closed the connection, and a program that takes a
    quarter of a second for every receive: 121 receives. *)
Lemma read_hangup_witness :
  read 200 None tcp_connected (world_of [mkRx 250 RxHangup]) =
    Some (Raise (TimeoutError "Read in TcpTransport timed out"),
          tick 30250 (world_of [mkRx 250 RxHangup])).
Proof.
  etrans; [apply (read_hangup tcp_connected 30000 250 None 200) | by vm_compute];
    [concrete | concrete | concrete | by exists [] | by vm_compute; lia].
Defined.

(** A block whose bytes come ten seconds apart over a socket with a timeout
    of thirty seconds: every byte is there long before the socket times out,
    and the end character, forty seconds after the call, is answered with
    [TimeoutError]. *)
Definition slow_block : list RxEvent := bytes_every 10000 [2; 65; 66; 3; 2].

Lemma read_overdue_witness :
  read 5 None tcp_connected (world_of slow_block) =
    Some (Raise (TimeoutError "Read in TcpTransport timed out"),
          with_rx (bytes_every 10000 [2]) (tick 40000 (world_of slow_block))).
Proof.
  etrans; [apply (read_overdue tcp_connected 30000 None [2; 65; 66] 3 10000
                    (bytes_every 10000 [2; 65; 66]) (bytes_every 10000 [2]) 5)
          | by vm_compute]; concrete.
Defined.
