(* ===== verification/Writes.v ===== *)
(** * [read] on a line that does not take what is written

    [read] answers every partial block with ACK and every block that fails
    its checksum with NACK.  The send is a call like any other: when the line
    is down (the device has gone, the pipe is broken), [_send] raises inside
    [read].  The block that was to be answered is consumed and logged, what
    was assembled so far is lost, and the exception is the one of the
    library, a [SerialException] or an [OSError]: neither transport wraps
    it.  A message that needs no answer, a single block or a command
    message, is read on such a line as on any other ([read_message],
    [read_command]). *)

From Stdlib Require Import ZArith Lia.
From stdpp Require Import base tactics option list numbers strings.
From S2P Require Import Prelude Checksum World Transport Scan Serial Tcp Framing.
From S2P Require Import Messages Timeouts.

#[local] Open Scope Z_scope.

Section Writes.
Context `{TransportLaws T} `{Checksum} `{Constants}.
Implicit Types (self : T) (v : ReadVars) (w : World).

(** A reply is due for a block that ends in [e]: the block is partial, or it
    fails its checksum. *)
Definition reply_due (e : byte) (blk : bytes) : Prop :=
  e = 4 ∨ bcc_valid blk = false.

#[export] Instance reply_due_dec e blk : Decision (reply_due e blk).
Proof. unfold reply_due. apply _. Defined.

Lemma reply_due_verdict v blk e :
  start_char v = Some [2] → end_char v = Some [e] → [e] ∈ end_chars →
  reply_due e blk → (verdict v blk).2 ≠ NoReply.
Proof.
  intros Hs He Hin Hdue. destruct (bcc_valid blk) eqn:Hb.
  - destruct Hdue as [-> | ?]; [| congruence]. by rewrite verdict_eot.
  - by rewrite (verdict_invalid _ _ e).
Qed.

(** C26.  The line is down and the first block that arrives is due a reply:
    [read] raises the exception of the transport's write at that reply.  The
    block is consumed and logged, nothing is written, and what follows the
    block stays on the line. *)
Theorem read_reply_fails self tmo timeout_arg junk p e c evs rest fuel w :
  link self = Timed tmo → line_up w = false →
  noise junk → clean p → [e] ∈ end_chars →
  reply_due e (([2] ++ p ++ [e]) ++ [c]) →
  delivers tmo evs (((junk ++ [2]) ++ p ++ [e]) ++ [c]) →
  rx w = evs ++ rest →
  script_time evs ≤ seconds (timeout self) →
  (length evs < fuel)%nat →
  read fuel timeout_arg self w =
    Some (Raise on_down,
          received self (([2] ++ p ++ [e]) ++ [c]) (script_time evs) rest w).
Proof.
  intros Hl Hup Hjunk Hp He Hdue Hevs Hrx Ht Hf. unfold read.
  destruct fuel as [| fuel]; [lia |].
  apply (read_loop_down self tmo Hl initial_vars junk 2 p e c fuel evs rest w);
    [apply entry_initial; auto with iec | done .. | lia |].
  intros [Hno | Hup']; [| congruence].
  by apply (reply_due_verdict _ _ e) in Hno.
Qed.

End Writes.

(** ** Concrete runs *)

(** The partial block A, intact, on a socket whose peer is gone: the
    acknowledgement fails with the error of [sendall], which is no
    [TransportError]. *)
Definition pipe_broken : World :=
  mkWorld 0 false (bytes_every 3 [2; 65; 4; 71; 2]) [] 1 [].

Lemma read_reply_fails_witness :
  read 9 None tcp_connected pipe_broken =
    Some (Raise OSError,
          mkWorld 12 false (bytes_every 3 [2]) [] 1
            [LogReceived [2; 65; 4; 71] "TcpTransport"]).
Proof.
  etrans; [apply (read_reply_fails tcp_connected 30000 None [] [65] 4 71
                    (bytes_every 3 [2; 65; 4; 71]) (bytes_every 3 [2]))
          | by vm_compute]; concrete.
Defined.
