(* ===== verification/SimpleRead.v ===== *)
(** * The delimiter reader: [BaseTransport.simple_read]

    [simple_read] (lines 133-173 of transports.py) is one [while True] loop:
    it receives one byte at a time, discards bytes until one equals the start
    delimiter, collects bytes until one equals the end delimiter, and checks
    the elapsed time after every receive.  [simple_read_loop] is the loop and
    [simple_read] the method; [simple_read_loop_scan] shows that the loop is
    the loop [scan] of [Scan] around the decision [delim_byte].  The
    reference function [delimited] says what the method is to return for a
    stream of bytes; the theorems relate the two. *)

From Stdlib Require Import ZArith Lia.
From stdpp Require Import base tactics option list numbers strings.
From S2P Require Import Prelude Checksum World Transport Scan Serial Framing.
From S2P Require Import Safety Termination Timeouts.

#[local] Open Scope Z_scope.

Section SimpleRead.
Context `{Transport T} `{Constants}.

(** The loop (lines 150-170).  [in_data] and [start_char_received] are its
    variables; the delimiters and [start_time] do not change. *)
Fixpoint simple_read_loop (fuel : nat) (self : T) (_start_char _end_char : bytes)
    (start_time : Z) (start_char_received : bool) (in_data : bytes) (w : World)
    : run World bytes :=
  match fuel with
  | O => None
  | S fuel =>
    match BaseTransport.recv 1 self w with
    | (Raise e, w) => Some (Raise e, w)
    | (Ok b, w) =>
      let duration := now w - start_time in
      if decide (seconds (timeout self) < duration) then
        Some (Raise (timed_out self), w)
      else if negb start_char_received then
        if decide (b = _start_char) then
          simple_read_loop fuel self _start_char _end_char start_time true
            (in_data ++ b) w
        else
          simple_read_loop fuel self _start_char _end_char start_time false
            in_data w
      else
        if decide (b = _end_char) then
          Some (Ok (in_data ++ b), w)
        else
          simple_read_loop fuel self _start_char _end_char start_time true
            (in_data ++ b) w
    end
  end.

(** [simple_read] (lines 133-173).  Line 147 rebinds the argument
    [timeout]; nothing reads it afterwards. *)
Definition simple_read (fuel : nat) (start_char end_char : str_or_bytes)
    (timeout_arg : option Z) (self : T) (w : World) : run World bytes :=
  let _start_char := ensure_bytes start_char in
  let _end_char := ensure_bytes end_char in
  let timeout_arg := py_or timeout_arg (timeout self) in
  let start_time := now w in
  match simple_read_loop fuel self _start_char _end_char start_time false [] w with
  | Some (Ok in_data, w) =>
    Some (Ok in_data, log_record (LogReceived in_data (class_name self)) w)
  | r => r
  end.

End SimpleRead.

(** ** The reference *)

(** The bytes of [bs] up to and including the first [e], and the bytes
    after it. *)
Fixpoint through (e : byte) (bs : bytes) : option (bytes * bytes) :=
  match bs with
  | [] => None
  | b :: bs =>
    if decide (b = e) then Some ([b], bs)
    else '(m, r) ← through e bs; Some (b :: m, r)
  end.

(** The message between delimiters in a stream: from the first [s] through
    the first [e] after it; and what follows the message. *)
Fixpoint delimited (s e : byte) (bs : bytes) : option (bytes * bytes) :=
  match bs with
  | [] => None
  | b :: bs =>
    if decide (b = s) then '(m, r) ← through e bs; Some (b :: m, r)
    else delimited s e bs
  end.

Lemma through_inv e bs m r :
  through e bs = Some (m, r) →
  ∃ body, m = body ++ [e] ∧ bs = body ++ [e] ++ r ∧ Forall (λ b, b ≠ e) body.
Proof.
  revert m. induction bs as [| b bs IH]; intros m Hm; simplify_eq/=.
  case_decide; simplify_eq/=; [by exists [] |].
  destruct (through e bs) as [[m' r'] |]; simplify_eq/=.
  destruct (IH _ eq_refl) as (body & -> & -> & Hbody).
  exists (b :: body). split_and!; try done. by constructor.
Qed.

Lemma delimited_inv s e bs m r :
  delimited s e bs = Some (m, r) →
  ∃ junk body, m = [s] ++ body ++ [e] ∧ bs = junk ++ m ++ r ∧
    Forall (λ b, b ≠ s) junk ∧ Forall (λ b, b ≠ e) body.
Proof.
  induction bs as [| b bs IH]; intros Hm; simplify_eq/=.
  case_decide; simplify_eq/=.
  - destruct (through e bs) as [[m' r'] |] eqn:Ht; simplify_eq/=.
    apply through_inv in Ht as (body & -> & -> & Hbody).
    exists [], body. split_and!; try done. simpl. by rewrite <- app_assoc.
  - destruct (IH Hm) as (junk & body & -> & -> & Hjunk & Hbody).
    exists (b :: junk), body. split_and!; try done. by constructor.
Qed.

(** ** The loop is a scan *)

(** What the loop does with a byte received before the deadline (lines
    155-170): it goes on with new locals, or returns. *)
Definition delim_byte (sc ec : bytes) (l : bool * bytes) (b : bytes)
    : bool * bytes + bytes :=
  let '(started, in_data) := l in
  if negb started then
    if decide (b = sc) then inl (true, in_data ++ b) else inl (false, in_data)
  else if decide (b = ec) then inr (in_data ++ b)
  else inl (true, in_data ++ b).

Lemma simple_read_loop_scan `{Transport T} fuel (self : T) sc ec st started
    in_data w :
  simple_read_loop fuel self sc ec st started in_data w =
    scan (delim_byte sc ec) fuel self st (started, in_data) w.
Proof.
  revert started in_data w.
  induction fuel as [| fuel IH]; intros started in_data w; simpl; [done |].
  destruct (BaseTransport.recv 1 self w) as [[b | e] w1]; [| done].
  case_decide; [done |]. by destruct started; simpl; case_decide.
Qed.

(** The locals of the loop: nothing is collected before the start
    delimiter, and what is collected begins with it. *)
Definition delim_ok (sc : bytes) (l : bool * bytes) : Prop :=
  if l.1 then sc `prefix_of` l.2 else l.2 = [].

Lemma delim_byte_ok sc ec l b l' :
  delim_ok sc l → delim_byte sc ec l b = inl l' → delim_ok sc l'.
Proof.
  destruct l as [[] d]; unfold delim_ok; simpl; intros Hl; case_decide;
    intros [= <-]; simpl; subst; try done; by apply prefix_app_r.
Qed.

Lemma delim_byte_leave sc ec l b m :
  delim_ok sc l → delim_byte sc ec l b = inr m →
  ∃ body, m = sc ++ body ++ ec.
Proof.
  destruct l as [[] d]; unfold delim_ok; simpl; intros Hl; case_decide;
    intros [= <-]; subst.
  destruct Hl as [body ->]. exists body. by rewrite <- app_assoc.
Qed.

(** Before the start delimiter a receive without bytes changes nothing,
    unless the delimiter is empty. *)
Lemma delim_byte_nil sc ec in_data :
  sc ≠ [] → delim_byte sc ec (false, in_data) [] = inl (false, in_data).
Proof. intros Hsc. simpl. by rewrite decide_False. Qed.

(** Before the start delimiter: bytes that differ from it are discarded. *)
Lemma feed_skip s ec junk in_data :
  Forall (λ b, b ≠ s) junk →
  feed (delim_byte [s] ec) (false, in_data) (junk ++ [s]) =
    Some (true, in_data ++ [s]).
Proof.
  induction 1 as [| b junk Hb _ IH]; simpl.
  - by rewrite decide_True.
  - by rewrite decide_False by congruence.
Qed.

(** Past the start delimiter: bytes that differ from the end delimiter are
    appended. *)
Lemma feed_collect sc e body :
  Forall (λ b, b ≠ e) body →
  ∀ in_data,
  feed (delim_byte sc [e]) (true, in_data) body = Some (true, in_data ++ body).
Proof.
  induction 1 as [| b body Hb _ IH]; intros in_data; simpl.
  - by rewrite app_nil_r.
  - rewrite decide_False by congruence. by rewrite IH, <- app_assoc.
Qed.

(** The whole loop: junk, the start delimiter, a body, the end delimiter. *)
Lemma simple_read_loop_frame `{TransportLaws T} (self : T) tmo s e junk body
    fuel evs rest w :
  link self = Timed tmo →
  Forall (λ b, b ≠ s) junk → Forall (λ b, b ≠ e) body →
  delivers tmo evs (junk ++ [s] ++ body ++ [e]) →
  rx w = evs ++ rest →
  script_time evs ≤ seconds (timeout self) →
  (length evs ≤ fuel)%nat →
  simple_read_loop fuel self [s] [e] (now w) false [] w =
    Some (Ok ([s] ++ body ++ [e]), with_rx rest (tick (script_time evs) w)).
Proof.
  intros Hl Hjunk Hbody Hevs Hrx Ht Hf. rewrite simple_read_loop_scan.
  rewrite !app_assoc in Hevs.
  apply (scan_through (delim_byte [s] [e]) self tmo Hl (now w)
           ((junk ++ [s]) ++ body) e (false, []) (true, [s] ++ body));
    try done; try lia.
  - rewrite feed_app, feed_skip by done. simpl. by rewrite feed_collect.
  - simpl. by rewrite decide_True.
Qed.

(** ** What [simple_read] does *)

Section Properties.
Context `{TransportLaws T} `{Constants}.
Implicit Types (self : T) (w : World).

(** The world when [simple_read] returns the message [m] after the events
    [evs]. *)
Definition simple_read_done self (m : bytes) (evs rest : list RxEvent) w
    : World :=
  log_record (LogReceived m (class_name self))
    (with_rx rest (tick (script_time evs) w)).

(** Bytes that differ from the start delimiter, the start delimiter,
    bytes that differ from the end delimiter, the end delimiter, all within
    the timeout: [simple_read] returns the message from delimiter to
    delimiter, has consumed exactly that much of the line, has logged the
    message and has sent nothing. *)
Lemma simple_read_frame self tmo start_char end_char timeout_arg s e junk body
    fuel evs rest w :
  link self = Timed tmo →
  ensure_bytes start_char = [s] → ensure_bytes end_char = [e] →
  Forall (λ b, b ≠ s) junk → Forall (λ b, b ≠ e) body →
  delivers tmo evs (junk ++ [s] ++ body ++ [e]) →
  rx w = evs ++ rest →
  script_time evs ≤ seconds (timeout self) →
  (length evs ≤ fuel)%nat →
  simple_read fuel start_char end_char timeout_arg self w =
    Some (Ok ([s] ++ body ++ [e]),
          simple_read_done self ([s] ++ body ++ [e]) evs rest w).
Proof.
  intros Hl Hs He Hjunk Hbody Hevs Hrx Ht Hf. unfold simple_read.
  rewrite Hs, He.
  by rewrite (simple_read_loop_frame self tmo s e junk body fuel evs rest w Hl).
Qed.

(** C11.  [simple_read] implements the reference [delimited]: on a stream in
    which [delimited] finds the message [m] and leaves the bytes [r], it
    returns [m] and leaves the events of [r] on the line. *)
Theorem simple_read_delimited self tmo start_char end_char timeout_arg s e bs m r
    fuel evs rest w :
  link self = Timed tmo →
  ensure_bytes start_char = [s] → ensure_bytes end_char = [e] →
  delimited s e bs = Some (m, r) →
  delivers tmo evs bs →
  rx w = evs ++ rest →
  script_time evs ≤ seconds (timeout self) →
  (length evs ≤ fuel)%nat →
  let n := (length bs - length r)%nat in
  simple_read fuel start_char end_char timeout_arg self w =
    Some (Ok m, simple_read_done self m (take n evs) (drop n evs ++ rest) w).
Proof.
  intros Hl Hs He (junk & body & -> & -> & Hjunk & Hbody)%delimited_inv
    Hevs Hrx Ht Hf n. unfold simple_read. rewrite Hs, He.
  rewrite app_assoc in Hevs.
  apply delivers_app_inv in Hevs as (evs1 & evs2 & -> & Hevs1 & Hevs2).
  pose proof (delivers_nonneg _ _ _ Hevs2).
  pose proof (delivers_length _ _ _ Hevs1) as Hlen.
  assert (n = length evs1) as -> by (unfold n; rewrite !length_app in *; lia).
  rewrite take_app_length, drop_app_length.
  rewrite script_time_app in Ht. rewrite length_app in Hf.
  rewrite <- app_assoc in Hrx.
  by rewrite (simple_read_loop_frame self tmo s e junk body fuel evs1
                (evs2 ++ rest) w Hl) by (done || lia).
Qed.

(** C32.  On a line where nothing arrives, with a transport whose receive
    returns no bytes after [tmo] milliseconds and a start delimiter that is
    not empty, [simple_read] raises [TimeoutError] after the first receive
    that ends past the timeout, whatever its [timeout] argument, and has
    sent and logged nothing. *)
Theorem simple_read_silence self tmo start_char end_char timeout_arg fuel w :
  link self = Timed tmo → on_timeout = Ok [] →
  0 < tmo → 0 ≤ timeout self →
  ensure_bytes start_char ≠ [] →
  quiet (patience (timeout self) tmo) (rx w) →
  (polls (timeout self) tmo < fuel)%nat →
  simple_read fuel start_char end_char timeout_arg self w =
    Some (Raise (timed_out self), wait (patience (timeout self) tmo) w).
Proof.
  intros Hl Hpoll Htmo Ht Hsc Hq Hf. unfold simple_read.
  pose proof (polls_spec (timeout self) tmo Ht Htmo). unfold patience in *.
  rewrite simple_read_loop_scan.
  by rewrite (scan_idle (delim_byte _ _) self tmo Hl (now w) (false, [])
                (polls (timeout self) tmo) Hpoll Htmo (delim_byte_nil _ _ _ Hsc))
    by (done || lia).
Qed.

(** On a connection the peer has closed, every receive returns no bytes
    after the [s] milliseconds the program takes for it: with a start
    delimiter that is not empty [simple_read] receives again and again and
    raises [TimeoutError] when [self.timeout] has passed, as [read] does
    ([read_hangup]). *)
Lemma simple_read_hangup self tmo s start_char end_char timeout_arg fuel w :
  link self = Timed tmo → 0 ≤ timeout self → 0 < s →
  ensure_bytes start_char ≠ [] →
  hung_up s (rx w) →
  (polls (timeout self) s < fuel)%nat →
  simple_read fuel start_char end_char timeout_arg self w =
    Some (Raise (timed_out self), tick (patience (timeout self) s) w).
Proof.
  intros Hl Ht Hs Hsc Hup Hf. unfold simple_read.
  pose proof (polls_spec (timeout self) s Ht Hs). unfold patience in *.
  rewrite simple_read_loop_scan.
  by rewrite (scan_hangup (delim_byte _ _) self tmo Hl (now w) (false, []) s
                (polls (timeout self) s) Hs (delim_byte_nil _ _ _ Hsc))
    by (done || lia).
Qed.

(** The deadline of [simple_read] is that of the message: when bytes that
    do not complete it arrive one by one, each within the read timeout, and
    the next byte arrives more than [self.timeout] after the call,
    [simple_read] raises [TimeoutError] and what it has collected is
    lost. *)
Lemma simple_read_overdue self tmo start_char end_char timeout_arg bs b d evs
    rest fuel w :
  link self = Timed tmo →
  is_Some (feed (delim_byte (ensure_bytes start_char) (ensure_bytes end_char))
             (false, []) bs) →
  delivers tmo evs bs → 0 ≤ d ≤ tmo →
  rx w = evs ++ mkRx d (RxBytes [b]) :: rest →
  script_time evs ≤ seconds (timeout self) < script_time evs + d →
  (length evs < fuel)%nat →
  simple_read fuel start_char end_char timeout_arg self w =
    Some (Raise (timed_out self), with_rx rest (tick (script_time evs + d) w)).
Proof.
  intros Hl Hfeed Hevs Hd Hrx Ht Hf. unfold simple_read.
  rewrite simple_read_loop_scan.
  by rewrite (scan_overdue (delim_byte _ _) self tmo Hl (now w) bs b d
                (false, []) evs rest fuel w) by (done || lia).
Qed.

(** C33.  On a well-formed, paced script (a positive read timeout, a
    positive time for a receive on a closed connection), over a transport
    whose timed-out receive returns no bytes or raises, [simple_read]
    terminates, whatever the delimiters and whatever arrives:
    with one unit of fuel for every event, every byte and every receive that
    fits in the timeout, it returns or raises. *)
Theorem simple_read_terminates self tmo start_char end_char timeout_arg fuel w :
  link self = Timed tmo → paced tmo w →
  (∀ b bs, on_timeout ≠ Ok (b :: bs)) →
  wf_world w → (enough self tmo w ≤ fuel)%nat →
  ∃ r w', simple_read fuel start_char end_char timeout_arg self w = Some (r, w').
Proof.
  intros Hl Hq Hidle Hwf Hf. unfold simple_read, enough in *.
  rewrite simple_read_loop_scan.
  destruct (scan_terminates self tmo Hl Hidle
              (delim_byte (ensure_bytes start_char) (ensure_bytes end_char))
              (now w) fuel (false, [] : bytes) w Hwf Hq) as ([m | e] & w' & -> & _);
    [rewrite slack_start; lia | ..]; eauto.
Qed.

(** C13.  Whatever arrives on the line and whatever the transport: what
    [simple_read] returns begins with the start delimiter and ends with the
    end delimiter; it is logged, and nothing else has happened to the world
    but receiving: nothing was written, no handle opened or closed, and the
    bytes left on the line are a tail of those that were to come. *)
Theorem simple_read_between self start_char end_char timeout_arg fuel w m w' :
  simple_read fuel start_char end_char timeout_arg self w = Some (Ok m, w') →
  ∃ body w1,
    m = ensure_bytes start_char ++ body ++ ensure_bytes end_char ∧
    w' = log_record (LogReceived m (class_name self)) w1 ∧ extends [] w w1.
Proof.
  unfold simple_read. rewrite simple_read_loop_scan.
  destruct (scan _ _ _ _ _ _) as [[[m1 | e] w1] |] eqn:Hs; intros [= <- <-].
  pose proof (scan_extends _ _ _ _ _ _ _ _ Hs) as Hw.
  eapply (scan_ensures _ (delim_ok _) _ (delim_byte_ok _ _) (delim_byte_leave _ _))
    in Hs as [body ->]; [by eauto | done].
Qed.

End Properties.

(** ** Every return is the message of the reference *)

Section Converse.
Variables s e : byte.

(** After the start delimiter: the loop leaves on the first end delimiter,
    with the bytes received until then. *)
Lemma delim_through bss : ∀ d l' b m rest,
  Forall one_or_none bss →
  feeds (delim_byte [s] [e]) (true, d) bss = Some l' →
  delim_byte [s] [e] l' b = inr m →
  ∃ m', m = d ++ m' ∧ through e (concat bss ++ b ++ rest) = Some (m', rest).
Proof.
  induction bss as [| x bss IH]; intros d l' b m rest Hbss Hf Hl; simpl in *.
  - simplify_eq/=. case_decide; simplify_eq/=. exists [e]. by rewrite decide_True.
  - apply Forall_cons in Hbss as [Hx Hbss]. case_decide; [done |].
    destruct (IH _ _ _ _ rest Hbss Hf Hl) as (m' & -> & Ht).
    destruct (one_or_none_inv _ Hx) as [-> | [c ->]].
    + exists m'. by rewrite app_nil_r.
    + exists (c :: m'). rewrite <- app_assoc. split; [done |]. simpl.
      rewrite decide_False by congruence. by rewrite Ht.
Qed.

(** Before it: the loop passes over what is not the start delimiter. *)
Lemma delim_delimited bss : ∀ l' b m rest,
  Forall one_or_none bss →
  feeds (delim_byte [s] [e]) (false, []) bss = Some l' →
  delim_byte [s] [e] l' b = inr m →
  delimited s e (concat bss ++ b ++ rest) = Some (m, rest).
Proof.
  induction bss as [| x bss IH]; intros l' b m rest Hbss Hf Hl; simpl in *.
  - simplify_eq/=. by case_decide.
  - apply Forall_cons in Hbss as [Hx Hbss]. case_decide as Hs.
    + destruct (delim_through _ _ _ _ _ rest Hbss Hf Hl) as (m' & -> & Ht).
      subst x. simpl. rewrite decide_True by done. by rewrite Ht.
    + destruct (one_or_none_inv _ Hx) as [-> | [c ->]]; simpl; [by eapply IH |].
      rewrite decide_False by congruence. by eapply IH.
Qed.

End Converse.

(** C12.  The converse of [simple_read_delimited], for every run: whatever
    arrives on the line and whenever, on every transport whose receive
    returns no bytes but those it took from the line, with delimiters of one
    byte: what [simple_read] returns is the message of the reference
    [delimited] on the bytes that were to come, from the first start
    delimiter through the first end delimiter after it, and the bytes left
    on the line are those that follow the message. *)
Theorem simple_read_explained `{TransportLaws T} `{Constants} (self : T)
    start_char end_char timeout_arg s e fuel w m w' :
  (∀ x xs, on_timeout ≠ Ok (x :: xs)) → (∀ x xs, on_error ≠ Ok (x :: xs)) →
  ensure_bytes start_char = [s] → ensure_bytes end_char = [e] →
  simple_read fuel start_char end_char timeout_arg self w = Some (Ok m, w') →
  delimited s e (pending (rx w)) = Some (m, pending (rx w')).
Proof.
  intros Hidle Hfail Hs He. unfold simple_read.
  rewrite simple_read_loop_scan, Hs, He.
  destruct (scan _ _ _ _ _ _) as [[[m1 | e1] w1] |] eqn:Hscan; intros [= <- <-].
  apply (scan_explained _ self Hidle Hfail) in Hscan
    as (bss & b & l' & Hf & Hl & Hbss & _ & ->).
  by apply (delim_delimited s e bss l').
Qed.

(** ** Concrete runs *)

(** The stream junk/hello!more of the specification, a byte every three
    milliseconds. *)
Definition junk_hello_more : bytes :=
  encode "junk" ++ [47] ++ encode "hello" ++ [33] ++ encode "more".

Lemma simple_read_frame_witness :
  simple_read 20 (Str "/") (Str "!") None serial_connected
      (world_of (bytes_every 3 (encode "junk" ++ [47] ++ encode "hello" ++ [33])
                 ++ bytes_every 3 (encode "more"))) =
    Some (Ok ([47] ++ encode "hello" ++ [33]),
          simple_read_done serial_connected ([47] ++ encode "hello" ++ [33])
            (bytes_every 3 (encode "junk" ++ [47] ++ encode "hello" ++ [33]))
            (bytes_every 3 (encode "more"))
            (world_of
               (bytes_every 3 (encode "junk" ++ [47] ++ encode "hello" ++ [33])
                ++ bytes_every 3 (encode "more")))).
Proof.
  apply simple_read_frame with (tmo := 5000) (junk := encode "junk"); concrete.
Defined.

Lemma simple_read_delimited_witness :
  let n := (length junk_hello_more - length (encode "more"))%nat in
  simple_read 20 (Bytes [47]) (Bytes [33]) (Some 1) serial_connected
      (world_of (bytes_every 3 junk_hello_more ++ [])) =
    Some (Ok (encode "/hello!"),
          simple_read_done serial_connected (encode "/hello!")
            (take n (bytes_every 3 junk_hello_more))
            (drop n (bytes_every 3 junk_hello_more) ++ [])
            (world_of (bytes_every 3 junk_hello_more ++ []))).
Proof.
  apply simple_read_delimited with (tmo := 5000) (s := 47) (e := 33); concrete.
Defined.

Lemma simple_read_silence_witness :
  simple_read 3 (Str "/") (Str "!") (Some 1) serial_connected (world_of []) =
    Some (Raise (timed_out serial_connected),
          wait (patience (timeout serial_connected) 5000) (world_of [])).
Proof. apply simple_read_silence; concrete. Defined.

Lemma simple_read_terminates_witness :
  ∃ r w',
    simple_read (enough serial_connected 5000 (world_of (bytes_every 3 junk_hello_more)))
      (Str "!") (Str "/") None serial_connected
      (world_of (bytes_every 3 junk_hello_more)) = Some (r, w').
Proof.
  apply simple_read_terminates with (tmo := 5000);
    [done | by vm_compute | done | | done].
  by apply (bool_decide_unpack _).
Defined.

Lemma simple_read_between_witness :
  ∃ body w1,
    encode "/hello!" = ensure_bytes (Str "/") ++ body ++ ensure_bytes (Str "!") ∧
    simple_read_done serial_connected (encode "/hello!")
      (bytes_every 3 (encode "junk/hello!")) (bytes_every 3 (encode "more"))
      (world_of (bytes_every 3 junk_hello_more)) =
      log_record (LogReceived (encode "/hello!") (class_name serial_connected)) w1 ∧
    extends [] (world_of (bytes_every 3 junk_hello_more)) w1.
Proof.
  by apply (simple_read_between serial_connected (Str "/") (Str "!") None 20).
Defined.

(** The same stream, the first byte after the read timeout of the port: the
    first receive returns the empty bytes object. *)
Definition slow_hello : World :=
  world_of (mkRx 6000 (RxBytes [106]) :: bytes_every 3 (tail junk_hello_more)).

Definition slow_hello_read : World :=
  log_record (LogReceived (encode "/hello!") "SerialTransport")
    (mkWorld 6030 true (bytes_every 3 (encode "more")) [] 1 []).

Lemma simple_read_explained_witness :
  delimited 47 33 (pending (rx slow_hello)) =
    Some (encode "/hello!", pending (rx slow_hello_read)).
Proof.
  apply (simple_read_explained serial_connected (Str "/") (Str "!") None 47 33 20);
    [done | done | done | done | by vm_compute].
Defined.
