(* ===== verification/Bounds.v ===== *)
(** * The bytes [read] and [simple_read] return

    Both methods return bytes they received, and [read] also bytes it makes:
    the line end it puts in the place of the check byte and the end
    character of a partial block (lines 103-105 of transports.py), and the
    check byte it computes afresh for a message of several blocks (lines
    124-127).  This file shows that neither takes the result out of the kind
    of bytes the line carries: for a property [P] of bytes that the line end
    satisfies and the check byte of such bytes satisfies, a line that
    carries bytes with [P] makes both methods return bytes with [P], whatever
    arrives and however the run goes, and leaves a line that carries bytes
    with [P].  For the width of the line this is [read_width]: on a line of
    [n] bits, four at least, [read] returns bytes of [n] bits, so that a
    message read from a serial port with seven data bits is a message of
    seven-bit characters, its recomputed check byte included.

    The proofs follow the engine: a receive ([recv_within]), the loop
    ([scan_keeps]) around the two decisions, the decision table, the rest of
    an iteration, the outer loop. *)

From Stdlib Require Import ZArith Lia.
From stdpp Require Import base tactics option list numbers strings.
From S2P Require Import Prelude Checksum World Transport Scan Serial Framing.
From S2P Require Import SimpleRead.

#[local] Open Scope Z_scope.

Section Within.
Context `{TransportLaws T} `{Checksum} `{Constants}.
Variable P : byte → Prop.
Hypothesis P_timeout : returns (Forall P) on_timeout.
Hypothesis P_error : returns (Forall P) on_error.
Hypothesis P_line_end : Forall P (encode LINE_END).
Hypothesis P_bcc : ∀ d, Forall P d → P (bcc d).
Implicit Types (self : T) (v : ReadVars) (w : World).

(** The locals of [read] hold bytes with [P]. *)
Definition vars_within v : Prop := Forall P (total_data v).

Definition block_within (l : ReadVars * bytes) : Prop :=
  vars_within l.1 ∧ Forall P l.2.

Definition ctl_within (k : ctl) : Prop :=
  match k with
  | Break total_data => Forall P total_data
  | Continue v => vars_within v
  end.

Lemma recv_line_within self w b w' :
  line_within P w → BaseTransport.recv 1 self w = (b, w') →
  returns (Forall P) b ∧ line_within P w'.
Proof. by apply recv_within. Qed.

(** The decision of the inner loop keeps the locals within [P]. *)
Lemma block_byte_within l b l' :
  block_within l → Forall P b →
  block_byte l b = inl l' ∨ block_byte l b = inr l' → block_within l'.
Proof.
  destruct l as [v d]. unfold block_byte, block_within, vars_within. simpl.
  intros [Hv Hd] Hb.
  destruct (start_char_received v); simpl; case_decide;
    intros [? | ?]; simplify_eq/=; rewrite ?Forall_app; auto.
Qed.

Lemma read_block_within self st fuel v d w r w' :
  vars_within v → Forall P d → line_within P w →
  read_block fuel self st v d w = Some (r, w') →
  returns block_within r ∧ line_within P w'.
Proof.
  intros Hv Hd Hw. rewrite read_block_scan.
  apply (scan_keeps block_byte (line_within P) (Forall P) block_within
           block_within self); eauto using recv_line_within, block_byte_within.
  by split.
Qed.

Lemma strip_stx_within v d : Forall P d → Forall P (strip_stx v d).
Proof. unfold strip_stx. case_decide; [apply Forall_slice_from | done]. Qed.

Lemma add_bcc_within d : Forall P d → Forall P (add_bcc d).
Proof. rewrite add_bcc_snoc, Forall_app, Forall_singleton. auto. Qed.

(** What the decision table makes of a block within [P] is within [P]. *)
Lemma verdict_within v blk :
  vars_within v → Forall P blk → ctl_within (verdict v blk).1.
Proof.
  unfold verdict, vars_within. intros Hv Hb.
  repeat case_decide; try destruct (bcc_valid blk); simpl;
    unfold vars_within; simpl; try done;
    repeat first [ apply add_bcc_within | apply strip_stx_within
                 | apply Forall_slice_to_neg | apply Forall_app; split ];
    done.
Qed.

(** The rest of an iteration of the outer loop. *)
Lemma handle_block_within self v d w r w' :
  vars_within v → Forall P d → line_within P w →
  handle_block self v d w = (r, w') →
  returns ctl_within r ∧ line_within P w'.
Proof.
  intros Hv Hd Hw.
  destruct (BaseTransport.recv 1 self w) as [[x | e] w1] eqn:Hr;
    pose proof (recv_line_within _ _ _ _ Hw Hr) as [Hx Hw1].
  - rewrite (handle_block_recv _ _ _ _ _ _ Hr). unfold answer, line_within.
    case_decide; intros [= <- <-]; rewrite ?replied_rx; [| done].
    split; [| done]. apply verdict_within; [done | by apply Forall_app].
  - unfold handle_block. rewrite (bind_raise _ _ _ _ _ Hr). by intros [= <- <-].
Qed.

(** The outer loop. *)
Lemma read_loop_within self fuel : ∀ v w r w',
  vars_within v → line_within P w →
  read_loop fuel self v w = Some (r, w') →
  returns (Forall P) r ∧ line_within P w'.
Proof.
  induction fuel as [| fuel IH]; intros v w r w' Hv Hw; simpl; [done |].
  destruct (read_block fuel self (now w) v [] w) as [[[[v1 d] | e] w1] |] eqn:Hb;
    [| | done];
    apply read_block_within in Hb as [Hb Hw1]; try done;
    [| by intros [= <- <-]].
  destruct Hb as [Hv1 Hd].
  destruct (handle_block self v1 d w1) as [[[v2 | t] | e] w2] eqn:Hh;
    apply handle_block_within in Hh as [Hk Hw2]; try done;
    [by apply IH | by intros [= <- <-] ..].
Qed.

(** The decision of [simple_read] keeps what was collected within [P]. *)
Lemma delim_byte_within sc ec (l l' : bool * bytes) b in_data :
  Forall P l.2 → Forall P b →
  (delim_byte sc ec l b = inl l' → Forall P l'.2) ∧
  (delim_byte sc ec l b = inr in_data → Forall P in_data).
Proof.
  destruct l as [started d]. unfold delim_byte. simpl. intros Hd Hb.
  destruct started; simpl; case_decide; split; intros ?; simplify_eq/=;
    rewrite ?Forall_app; auto.
Qed.

Lemma simple_read_within self fuel sc ec timeout_arg w r w' :
  line_within P w →
  simple_read fuel sc ec timeout_arg self w = Some (r, w') →
  returns (Forall P) r ∧ line_within P w'.
Proof.
  intros Hw. unfold simple_read. rewrite simple_read_loop_scan.
  destruct (scan _ _ _ _ _ _) as [[r1 w1] |] eqn:Hs; [| done].
  apply (scan_keeps _ (line_within P) (Forall P) (λ l, Forall P l.2) (Forall P))
    in Hs as [Hr Hw1]; [by destruct r1; intros [= <- <-] | ..];
    eauto using recv_line_within.
  - intros l b l' Hl Hb. by apply (delim_byte_within _ _ l l' b []).
  - intros l b x Hl Hb. by apply (delim_byte_within _ _ l l b x).
Qed.

End Within.

(** ** The width of the line *)

(** A result of bytes of [n] bits, when it is a value. *)
Definition width (n : Z) (r : result bytes) : Prop :=
  returns (Forall (fits n)) r.

Lemma fits_line_end n : 4 ≤ n → Forall (fits n) (encode LINE_END).
Proof.
  intros Hn. pose proof (Z.pow_le_mono_r 2 4 n ltac:(lia) Hn).
  change (Forall (fits n) [13; 10]). unfold fits.
  repeat (apply Forall_cons; split; [lia |]). done.
Qed.

(** C19.  [read] keeps the width of the line.  On a line whose bytes have
    [n] bits, four at least, over a transport that makes such bytes of a
    timeout and of an error, whatever arrives and whether [read] returns or
    raises: the message [read] returns has bytes of [n] bits, the line ends
    it inserted and the check byte it computed afresh included, and the
    bytes left on the line are those that were there.  With seven bits this
    is the serial port of [connect]: what [read] returns from it is a
    message of seven-bit characters. *)
Theorem read_width `{TransportLaws T} (self : T) n timeout_arg fuel w r w' :
  4 ≤ n → width n on_timeout → width n on_error →
  line_within (fits n) w →
  read fuel timeout_arg self w = Some (r, w') →
  width n r ∧ line_within (fits n) w'.
Proof.
  intros Hn Hto Herr Hw. unfold read, width in *.
  apply (read_loop_within (fits n)); try done;
    [by apply fits_line_end | intros d; apply calculate_bcc_fits; lia | by constructor].
Qed.

(** ** A concrete run *)

(** A partial block and a last block on a line of seven bits: the message
    has the line end in the place of 4 and 71, and the check byte 5. *)
Lemma read_width_witness :
  Forall (fits 7) [2; 65; 13; 10; 66; 3; 5] ∧
  line_within (fits 7)
    (mkWorld 24 true (bytes_every 3 [100]) [6] 1
       [LogReceived [2; 65; 4; 71] "SerialTransport";
        LogSent [6] "SerialTransport";
        LogReceived [2; 66; 3; 67] "SerialTransport"]).
Proof.
  apply (read_width serial_connected 7 None 20
           (world_of (bytes_every 3 [2; 65; 4; 71; 2; 66; 3; 67; 100]))
           (Ok [2; 65; 13; 10; 66; 3; 5]));
    [lia | by constructor | done | by apply (bool_decide_unpack _)
    | by vm_compute].
Defined.
