(* ===== verification/Congruence.v ===== *)
(** * What [read] and [simple_read] cannot observe

    The engine meets the world through four operations only: a receive of one
    byte, a send, a log record and the clock.  An equivalence of worlds that
    these operations respect is therefore respected by the whole of [read] and
    of [simple_read]: on equivalent worlds they return the same value or raise
    the same exception, with the same fuel, and leave equivalent worlds.

    [WorldCongruence] is the interface: an equivalence of worlds that the
    primitives of the line respect.  The engine is shown to respect every
    congruence, as [Proper] instances, for every transport that satisfies
    [TransportLaws].  The file [Chunks] provides the two congruences of
    interest: the same bytes cut into events differently, and the same world
    with another log. *)

From Stdlib Require Import ZArith Lia.
From stdpp Require Import base tactics option list numbers strings.
From S2P Require Import Prelude Checksum World Transport Scan Framing SimpleRead.

#[local] Open Scope Z_scope.

(** ** Relations *)

(** The kernel of a function: two values are related when the function
    cannot tell them apart. *)
Definition same {A B} (f : A → B) : relation A := λ x y, f x = f y.

#[export] Instance same_equivalence {A B} (f : A → B) : Equivalence (same f).
Proof.
  unfold same. split; [by intros x | by intros x y | by intros x y z -> ].
Qed.

(** Two outcomes of a computation: the same value or exception, in related
    worlds. *)
Definition outcome_rel {X} (R : relation World) : relation (X * World) :=
  λ x y, x.1 = y.1 ∧ R x.2 y.2.

(** Two runs with fuel: both out of fuel, or related outcomes. *)
Definition run_rel {A} (R : relation World) : relation (run World A) :=
  option_Forall2 (@outcome_rel (result A) R).

#[export] Instance outcome_rel_equivalence {X} (R : relation World) :
  Equivalence R → Equivalence (@outcome_rel X R).
Proof.
  intros HR. unfold outcome_rel. split.
  - by intros x.
  - by intros x y [-> ?].
  - intros x y z [-> ?] [-> ?]. split; [done | by etrans].
Qed.

(** A run related to one that ended has ended likewise. *)
Lemma run_rel_some {A} (R : relation World) (x : run World A) r w :
  run_rel R x (Some (r, w)) → ∃ w', x = Some (r, w') ∧ R w' w.
Proof.
  inversion 1 as [[r' w'] ? [Hr Hw] |]. simpl in *. subst. by exists w'.
Qed.

(** An operation that commutes with [f] respects the kernel of [f]. *)
Lemma same_proper {X} (f : World → World) (m : World → X * World) :
  (∀ w, m (f w) = prod_map id f (m w)) →
  Proper (same f ==> outcome_rel (same f)) m.
Proof.
  intros Hm w1 w2 Hw. unfold same, outcome_rel in *.
  pose proof (Hm w1) as H1. rewrite Hw, Hm in H1.
  destruct (m w1), (m w2). simpl in *. by simplify_eq.
Qed.

(** ** The interface *)

(** An equivalence of worlds that the clock, the state of the line, a read
    of one byte, a write and a log record respect. *)
Class WorldCongruence (R : relation World) : Prop := {
  #[global] cong_equivalence :: Equivalence R;
  #[global] cong_now :: Proper (R ==> (=)) now;
  #[global] cong_up :: Proper (R ==> (=)) line_up;
  #[global] cong_read tmo :: Proper (R ==> outcome_rel R) (line_read 1 tmo);
  #[global] cong_read_blocking ::
    Proper (R ==> outcome_rel R) (line_read_blocking 1);
  #[global] cong_write data :: Proper (R ==> R) (line_write data);
  #[global] cong_log r :: Proper (R ==> R) (log_record r);
}.

(** ** Computations that respect a congruence *)

Section Monad.
Context (R : relation World).

Lemma ret_proper {A} (a : A) :
  Proper (R ==> outcome_rel R) (mret a : M World A).
Proof. by intros w1 w2 Hw. Qed.

Lemma raise_proper {A} e : Proper (R ==> outcome_rel R) (@raise World A e).
Proof. by intros w1 w2 Hw. Qed.

Lemma bind_proper {A B} (m : M World A) (f : A → M World B) :
  Proper (R ==> outcome_rel R) m →
  (∀ a, Proper (R ==> outcome_rel R) (f a)) →
  Proper (R ==> outcome_rel R) (m ≫= f).
Proof.
  intros Hm Hf w1 w2 Hw. unfold mbind, M_bind.
  destruct (Hm w1 w2 Hw) as [Hr Hw'].
  destruct (m w1) as [[a |e] w1'], (m w2) as [[a2 | e2] w2']; simplify_eq/=;
    [by apply Hf | done].
Qed.

End Monad.

Section Engine.
Context `{WorldCongruence R} `{TransportLaws T} `{Checksum} `{Constants}.
Implicit Types (self : T) (v : ReadVars) (w : World).

(** The line's answer in the hands of a transport. *)
Lemma deliver_proper (rd : World → ReadOutcome * World) :
  Proper (R ==> outcome_rel R) rd →
  Proper (R ==> outcome_rel R)
    (λ w, (deliver on_timeout on_error (rd w).1, (rd w).2)).
Proof.
  intros Hrd w1 w2 Hw. destruct (Hrd w1 w2 Hw) as [Ho Hw'].
  by split; [simpl; rewrite Ho |].
Qed.

#[export] Instance logger_proper r : Proper (R ==> outcome_rel R) (logger r).
Proof. intros w1 w2 Hw. split; [done | by apply cong_log]. Qed.

(** A receive of one byte. *)
#[export] Instance recv_proper self :
  Proper (R ==> outcome_rel R) (BaseTransport.recv 1 self).
Proof.
  intros w1 w2 Hw. unfold BaseTransport.recv.
  destruct (link self) as [| tmo |] eqn:Hl.
  - destruct (recv_nolink self 1 Hl) as [e He]. by rewrite !He.
  - rewrite !(recv_link _ _ _ _ Hl).
    by apply (deliver_proper (line_read 1 tmo)); [apply cong_read |].
  - rewrite !(recv_blocking _ _ _ Hl).
    by apply (deliver_proper (line_read_blocking 1)); [apply cong_read_blocking |].
Qed.

(** A send. *)
#[export] Instance send_proper data self :
  Proper (R ==> outcome_rel R) (BaseTransport.send data self).
Proof.
  intros w1 w2 Hw. destruct (decide (link self = Closed)) as [Hl | Hl].
  - destruct (send_closed self data Hl) as [e He]. by rewrite !He.
  - pose proof (cong_up _ _ Hw) as Hup. destruct (line_up w2) eqn:Hup2.
    + rewrite !send_ok by done. split; [done |]. by apply cong_log, cong_write.
    + by rewrite !send_down.
Qed.

(** The loop [scan], whatever it decides. *)
#[export] Instance scan_proper {L X} (on_byte : L → bytes → L + X) fuel self st l :
  Proper (R ==> run_rel R) (scan on_byte fuel self st l).
Proof.
  revert l.
  induction fuel as [| fuel IH]; intros l w1 w2 Hw; simpl; [constructor |].
  destruct (recv_proper self w1 w2 Hw) as [Hr Hw'].
  destruct (BaseTransport.recv 1 self w1) as [[b | e] w1'],
    (BaseTransport.recv 1 self w2) as [[b2 | e2] w2']; simplify_eq/=;
    [| by constructor].
  rewrite (cong_now _ _ Hw').
  repeat case_match; first [by apply IH | by constructor].
Qed.

(** The inner loop of [read]. *)
#[export] Instance read_block_proper fuel self st v in_data :
  Proper (R ==> run_rel R) (read_block fuel self st v in_data).
Proof. intros w1 w2 Hw. rewrite !read_block_scan. by apply scan_proper. Qed.

(** The rest of an iteration of the outer loop. *)
#[export] Instance handle_block_proper self v in_data :
  Proper (R ==> outcome_rel R) (handle_block self v in_data).
Proof.
  unfold handle_block.
  apply bind_proper; [apply recv_proper | intros c].
  apply bind_proper; [apply logger_proper | intros _].
  repeat case_match;
    repeat first [ apply ret_proper | apply send_proper
                 | apply bind_proper; [| intros _] ].
Qed.

(** The outer loop. *)
#[export] Instance read_loop_proper fuel self v :
  Proper (R ==> run_rel R) (read_loop fuel self v).
Proof.
  revert v. induction fuel as [| fuel IH]; intros v w1 w2 Hw; simpl; [constructor |].
  rewrite (cong_now _ _ Hw).
  destruct (read_block_proper fuel self (now w2) v [] w1 w2 Hw)
    as [[r1 w1'] [r2 w2'] [Hr Hw'] |]; simplify_eq/=; [| constructor].
  destruct r2 as [[v' d] | e]; [| by constructor].
  destruct (handle_block_proper self v' d w1' w2' Hw') as [Hr Hw''].
  destruct (handle_block self v' d w1') as [[[] | ] w1''],
    (handle_block self v' d w2') as [[[] | ] w2'']; simplify_eq/=;
    first [by apply IH | by constructor].
Qed.

#[export] Instance read_proper fuel timeout_arg self :
  Proper (R ==> run_rel R) (read fuel timeout_arg self).
Proof. unfold read. apply read_loop_proper. Qed.

(** The loop of [simple_read]. *)
#[export] Instance simple_read_loop_proper fuel self s e st started in_data :
  Proper (R ==> run_rel R) (simple_read_loop fuel self s e st started in_data).
Proof. intros w1 w2 Hw. rewrite !simple_read_loop_scan. by apply scan_proper. Qed.

#[export] Instance simple_read_proper fuel start_char end_char timeout_arg self :
  Proper (R ==> run_rel R) (simple_read fuel start_char end_char timeout_arg self).
Proof.
  intros w1 w2 Hw. unfold simple_read. rewrite (cong_now _ _ Hw).
  destruct (simple_read_loop_proper fuel self (ensure_bytes start_char)
              (ensure_bytes end_char) (now w2) false [] w1 w2 Hw)
    as [[r1 w1'] [r2 w2'] [Hr Hw'] |]; simplify_eq/=; [| constructor].
  destruct r2; constructor; split; simpl; try done. by apply cong_log.
Qed.

End Engine.
