(* ===== verification/Chunks.v ===== *)
(** * Chunks of bytes, and the log

    Two congruences of worlds ([WorldCongruence], file [Congruence]).

    - [bytewise]: a serial port or a socket hands over what has arrived, one
      byte or a whole segment.  The engine asks for one byte at a time, so it
      cannot tell an event that carries several bytes from the same bytes as
      events of their own, the first after the delay of the chunk and the
      others at once.  [unchunk] cuts a script into such events.  With it the
      theorems of [Messages], stated for bytes that arrive one per event,
      hold however the line cuts the bytes.
    - [clear_log]: the engine writes the log and never reads it. *)

From Stdlib Require Import ZArith Lia.
From stdpp Require Import base tactics option list numbers strings.
From S2P Require Import Prelude Checksum World Transport Serial Tcp Framing.
From S2P Require Import Messages Decode Timeouts SimpleRead Congruence.

#[local] Open Scope Z_scope.

(** ** Cutting a script into events of one byte *)

(** An event that carries several bytes, as events of one byte: the first
    after the delay of the event, the others at once. *)
Definition split_event (ev : RxEvent) : list RxEvent :=
  match rx_data ev with
  | RxBytes (b :: bs) => mkRx (rx_delay ev) (RxBytes [b]) :: bytes_every 0 bs
  | _ => [ev]
  end.

Definition unchunk (r : list RxEvent) : list RxEvent := r ≫= split_event.

(** The world with its script cut into events of one byte. *)
Definition bytewise (w : World) : World := with_rx (unchunk (rx w)) w.

(** The world without its log. *)
Definition clear_log (w : World) : World :=
  mkWorld (now w) (line_up w) (rx w) (tx w) (handles w) [].

(** An event that [split_event] leaves as it is. *)
Definition single (ev : RxEvent) : Prop := split_event ev = [ev].

Section Unchunk.
Implicit Types (r rest : list RxEvent) (w : World) (bs : bytes).

Lemma unchunk_cons ev rest : unchunk (ev :: rest) = split_event ev ++ unchunk rest.
Proof. done. Qed.

Lemma unchunk_every d bs : unchunk (bytes_every d bs) = bytes_every d bs.
Proof.
  induction bs as [| b bs IH]; [done |].
  change (bytes_every d (b :: bs)) with (mkRx d (RxBytes [b]) :: bytes_every d bs).
  by rewrite unchunk_cons, IH.
Qed.

Lemma unchunk_app r1 r2 : unchunk (r1 ++ r2) = unchunk r1 ++ unchunk r2.
Proof. apply bind_app. Qed.

Lemma unchunk_push_back bs rest :
  unchunk (push_back bs rest) = bytes_every 0 bs ++ unchunk rest.
Proof. by destruct bs. Qed.

Lemma split_event_single ev : Forall single (split_event ev).
Proof.
  destruct ev as [d [[| b bs] | |]]; unfold split_event; simpl;
    repeat constructor.
  induction bs; by constructor.
Qed.

Lemma unchunk_single r : Forall single (unchunk r).
Proof.
  induction r as [| ev r IH]; [constructor |].
  rewrite unchunk_cons. apply Forall_app. split; [apply split_event_single | done].
Qed.

Lemma unchunk_id r : Forall single r → unchunk r = r.
Proof.
  induction 1 as [| ev r Hev _ IH]; [done |].
  by rewrite unchunk_cons, Hev, IH.
Qed.

(** Cutting twice is cutting once. *)
Lemma unchunk_idemp r : unchunk (unchunk r) = unchunk r.
Proof. apply unchunk_id, unchunk_single. Qed.

Lemma bytewise_idemp w : bytewise (bytewise w) = bytewise w.
Proof. unfold bytewise. simpl. by rewrite unchunk_idemp. Qed.

(** Cutting changes neither the bytes to come nor the time they take. *)
Lemma unchunk_pending r : pending (unchunk r) = pending r.
Proof.
  induction r as [| [d [[| b bs] | |]] r IH]; try done;
    rewrite unchunk_cons; unfold pending in *; simpl; rewrite ?IH; try done.
  rewrite map_app, concat_app, IH. f_equal. f_equal.
  induction bs as [| b' bs IHbs]; [done |]. simpl. by rewrite IHbs.
Qed.

Lemma unchunk_time r : script_time (unchunk r) = script_time r.
Proof.
  induction r as [| [d [[| b bs] | |]] r IH]; try done;
    rewrite unchunk_cons; simpl; rewrite ?IH; try done.
  rewrite script_time_app, bytes_every_time, IH. lia.
Qed.

(** A read of one byte commutes with the cutting. *)
Lemma line_read_bytewise tmo w :
  line_read 1 tmo (bytewise w) = prod_map id bytewise (line_read 1 tmo w).
Proof.
  destruct w as [t u [| [d [[| b bs] | |]] rest] x h l];
    unfold line_read, later, bytewise; simpl; try done;
    case_decide; simpl; try done.
  unfold with_rx, tick. simpl. by rewrite unchunk_push_back.
Qed.

Lemma line_read_blocking_bytewise w :
  line_read_blocking 1 (bytewise w) =
    prod_map id bytewise (line_read_blocking 1 w).
Proof.
  unfold line_read_blocking.
  destruct (rx w) as [| ev rest] eqn:Hrx.
  - unfold bytewise. simpl. rewrite Hrx. simpl. rewrite <- Hrx.
    by rewrite with_rx_id.
  - replace (rx (bytewise w)) with (split_event ev ++ unchunk rest)
      by (unfold bytewise; simpl; by rewrite Hrx).
    rewrite <- line_read_bytewise.
    by destruct ev as [d [[| b bs] | |]].
Qed.

End Unchunk.

(** ** The two congruences *)

#[export] Instance bytewise_congruence : WorldCongruence (same bytewise).
Proof.
  split; try apply _.
  - by intros w1 w2 [=].
  - by intros w1 w2 [=].
  - intros tmo. apply same_proper, line_read_bytewise.
  - apply same_proper, line_read_blocking_bytewise.
  - intros data w1 w2 [=]. unfold same, bytewise, line_write, with_rx. simpl.
    congruence.
  - intros r w1 w2 [=]. unfold same, bytewise, log_record, with_rx. simpl.
    congruence.
Qed.

Lemma line_read_clear_log n tmo w :
  line_read n tmo (clear_log w) = prod_map id clear_log (line_read n tmo w).
Proof.
  destruct w as [t u [| [d [bs | |]] rest] x h l]; unfold line_read, later;
    simpl; try done; by case_decide.
Qed.

#[export] Instance clear_log_congruence : WorldCongruence (same clear_log).
Proof.
  split; try apply _.
  - by intros w1 w2 [=].
  - by intros w1 w2 [=].
  - intros tmo. apply same_proper, line_read_clear_log.
  - apply same_proper. intros w. unfold line_read_blocking.
    change (rx (clear_log w)) with (rx w).
    destruct (rx w); [done | apply line_read_clear_log].
  - intros data w1 w2 [=]. unfold same, clear_log, line_write. simpl. congruence.
  - intros r w1 w2 [=]. unfold same, clear_log, log_record. simpl. congruence.
Qed.

(** ** The engine on chunks and on logs *)

Section Claims.
Context `{TransportLaws T} `{Checksum} `{Constants}.
Implicit Types (self : T) (w : World).

(** C20.  [read] and [simple_read] cannot tell how the line cut the bytes
    into events: on two worlds that differ only in that, with the same fuel,
    both run out of fuel, or both return the same bytes or raise the same
    exception and leave worlds that again differ only in the cutting. *)
Theorem read_chunking self fuel timeout_arg s e w1 w2 :
  same bytewise w1 w2 →
  run_rel (same bytewise) (read fuel timeout_arg self w1)
    (read fuel timeout_arg self w2) ∧
  run_rel (same bytewise) (simple_read fuel s e timeout_arg self w1)
    (simple_read fuel s e timeout_arg self w2).
Proof. intros Hw. split; [by apply read_proper | by apply simple_read_proper]. Qed.

(** C6.  A message that arrives in chunks of any size, the first byte of
    each chunk within the read timeout of the byte before, on a line that
    takes the acknowledgements: [read] returns the reference message
    [reassemble qs p], and the world it leaves is, byte for byte, the world
    [finished] of the message that arrives one byte per event. *)
Theorem read_message_chunked self tmo timeout_arg junk qs p evs rest fuel w :
  link self = Timed tmo →
  noise junk → Forall clean qs → clean p →
  delivers tmo evs (junk ++ wire qs p) →
  unchunk (rx w) = evs ++ rest →
  script_time evs ≤ seconds (timeout self) →
  (length evs < fuel)%nat →
  qs = [] ∨ line_up w = true →
  ∃ w', read fuel timeout_arg self w = Some (Ok (reassemble qs p), w') ∧
    bytewise w' = finished self evs rest qs p w.
Proof.
  intros Hl Hjunk Hqs Hp Hevs Hrx Ht Hf Hup.
  assert (unchunk rest = rest) as Hrest.
  { apply unchunk_id. pose proof (unchunk_single (rx w)) as Hs.
    rewrite Hrx in Hs. by apply Forall_app in Hs as [_ ?]. }
  pose proof (read_proper (R := same bytewise) fuel timeout_arg self w (bytewise w))
    as Hrun.
  unfold read in Hrun |- *.
  rewrite (read_loop_message self tmo Hl junk qs p evs rest fuel (bytewise w))
    in Hrun by done.
  destruct (run_rel_some _ _ _ _ (Hrun (eq_sym (bytewise_idemp w))))
    as (w' & -> & Hw').
  exists w'. split; [done |]. rewrite Hw'.
  unfold bytewise, finished, with_rx. simpl. by rewrite Hrest.
Qed.

(** The refinement of [Decode] likewise: on every stream of bytes, in
    chunks of any size, [read] returns the message of [decode] and leaves,
    byte for byte, the world [decoded]. *)
Lemma read_decodes_chunked self tmo timeout_arg bs m tr unread evs rest fuel w :
  link self = Timed tmo →
  decode (Collecting initial_vars []) bs = Some (m, tr, unread) →
  delivers tmo evs bs → unchunk (rx w) = evs ++ rest →
  script_time evs ≤ seconds (timeout self) →
  (length evs < fuel)%nat → takes tr w →
  let k := (length bs - length unread)%nat in
  ∃ w', read fuel timeout_arg self w = Some (Ok m, w') ∧
    bytewise w' = decoded self (take k evs) (drop k evs ++ rest) tr w.
Proof.
  intros Hl Hdec Hevs Hrx Ht Hf Htr k.
  assert (∀ n, unchunk (drop n evs ++ rest) = drop n evs ++ rest) as Hrest.
  { intros n. apply unchunk_id. pose proof (unchunk_single (rx w)) as Hs.
    rewrite Hrx in Hs. apply Forall_app in Hs as [Hs ?].
    apply Forall_app. split; [by apply Forall_drop | done]. }
  pose proof (read_proper (R := same bytewise) fuel timeout_arg self w (bytewise w))
    as Hrun.
  unfold read in Hrun |- *.
  rewrite (read_loop_decodes self tmo Hl bs m tr unread evs rest fuel (bytewise w))
    in Hrun by done.
  destruct (run_rel_some _ _ _ _ (Hrun (eq_sym (bytewise_idemp w))))
    as (w' & -> & Hw').
  exists w'. split; [done |]. rewrite Hw'.
  unfold bytewise, decoded, with_rx. simpl. by rewrite Hrest.
Qed.

(** The log is written and never read: on two worlds that differ only
    in their logs, [read] and [simple_read] return the same bytes or raise the
    same exception and leave worlds that differ only in their logs. *)
Lemma read_ignores_log self fuel timeout_arg s e w1 w2 :
  same clear_log w1 w2 →
  run_rel (same clear_log) (read fuel timeout_arg self w1)
    (read fuel timeout_arg self w2) ∧
  run_rel (same clear_log) (simple_read fuel s e timeout_arg self w1)
    (simple_read fuel s e timeout_arg self w2).
Proof. intros Hw. split; [by apply read_proper | by apply simple_read_proper]. Qed.

End Claims.

(** ** Concrete runs *)

(** The block A in one piece, and byte by byte. *)
Lemma read_chunking_witness :
  run_rel (same bytewise)
    (read 9 None serial_connected (world_of [mkRx 9 (RxBytes [2; 65; 3; 64])]))
    (read 9 None serial_connected
       (world_of (mkRx 9 (RxBytes [2]) :: bytes_every 0 [65; 3; 64]))) ∧
  run_rel (same bytewise)
    (simple_read 9 (Str "/") (Str "!") None serial_connected
       (world_of [mkRx 9 (RxBytes [2; 65; 3; 64])]))
    (simple_read 9 (Str "/") (Str "!") None serial_connected
       (world_of (mkRx 9 (RxBytes [2]) :: bytes_every 0 [65; 3; 64]))).
Proof. apply read_chunking. reflexivity. Defined.

(** One segment on a socket that holds two bytes of noise, the blocks AB
    (partial) and C (last), and a byte that is not part of the message. *)
Definition one_segment : list RxEvent :=
  [mkRx 40 (RxBytes (([10; 13] ++ wire [[65; 66]] [67]) ++ [7]))].

Lemma read_message_chunked_witness :
  ∃ w', read 20 None tcp_connected (world_of one_segment) =
          Some (Ok (reassemble [[65; 66]] [67]), w') ∧
    bytewise w' =
      finished tcp_connected
        (mkRx 40 (RxBytes [10]) :: bytes_every 0 ([13] ++ wire [[65; 66]] [67]))
        (bytes_every 0 [7]) [[65; 66]] [67] (world_of one_segment).
Proof.
  apply read_message_chunked with (tmo := 30000) (junk := [10; 13]); concrete.
Defined.

Lemma read_ignores_log_witness :
  run_rel (same clear_log)
    (read 9 None serial_connected (world_of (bytes_every 3 [2; 65; 3; 64])))
    (read 9 None serial_connected
       (log_record (LogSwitching 9600) (world_of (bytes_every 3 [2; 65; 3; 64])))) ∧
  run_rel (same clear_log)
    (simple_read 9 (Str "/") (Str "!") None serial_connected
       (world_of (bytes_every 3 [2; 65; 3; 64])))
    (simple_read 9 (Str "/") (Str "!") None serial_connected
       (log_record (LogSwitching 9600) (world_of (bytes_every 3 [2; 65; 3; 64])))).
Proof. apply read_ignores_log. reflexivity. Defined.
