(* ===== verification/Session.v ===== *)
(** * A readout session: connect, send, read, disconnect

    The components together, in the order the specification gives for a
    caller: the transport is connected, a request is sent, [read] assembles
    the answer and acknowledges its blocks, and the transport is
    disconnected.  Exceptions propagate: a step that raises ends the
    session, with the transport as that step left it.

    [Lifecycle] is the interface of a transport that can be connected and
    released; both transports implement it.  [session_message] and
    [session_outcome] are proved once against the interface. *)

From Stdlib Require Import ZArith Lia.
From stdpp Require Import base tactics option list numbers strings.
From S2P Require Import Prelude Checksum World Transport Serial Tcp Framing.
From S2P Require Import Messages Safety Machine.

#[local] Open Scope Z_scope.

(** ** The session *)

Section Session.
Context `{Transport T} `{Checksum} `{Constants}.

Definition session (fuel : nat) (request : bytes) (s : T * World)
    : run (T * World) bytes :=
  match connect s with
  | (Raise e, s) => Some (Raise e, s)
  | (Ok _, (self, w)) =>
    match BaseTransport.send request self w with
    | (Raise e, w) => Some (Raise e, (self, w))
    | (Ok _, w) =>
      match read fuel None self w with
      | None => None
      | Some (Raise e, w) => Some (Raise e, (self, w))
      | Some (Ok data, w) =>
        match disconnect (self, w) with
        | (Raise e, s) => Some (Raise e, s)
        | (Ok _, s) => Some (Ok data, s)
        end
      end
    end
  end.

End Session.

(** ** The interface *)

(** The world after a [connect] that opened [k] handles and logged
    [recs]. *)
Definition after_connect (k : nat) (recs : list LogRecord) (w : World) : World :=
  mkWorld (now w) (line_up w) (rx w) (tx w) (k + handles w) (log w ++ recs).

(** A transport that can be connected and released: [connect] on a ready
    transport and a line that is up gives a timed link and changes nothing
    of the line; [disconnect] of a linked transport closes one handle and
    leaves the transport without a link. *)
Class Lifecycle (T : Type) `{TransportLaws T} : Type := {
  ready : T → Prop;
  connected : T → T;
  released : T → T;
  opens : T → nat;
  connect_log : T → list LogRecord;
  link_timeout : T → Z;
  connect_ok : ∀ self w,
    ready self → line_up w = true →
    connect (self, w) =
      (Ok tt, (connected self, after_connect (opens self) (connect_log self) w));
  connected_link : ∀ self, ready self → link (connected self) = Timed (link_timeout self);
  connected_name : ∀ self, class_name (connected self) = class_name self;
  connected_timeout : ∀ self, timeout (connected self) = timeout self;
  disconnect_ok : ∀ self w,
    link self ≠ Closed →
    disconnect (self, w) = (Ok tt, (released self, close_handle w));
  released_link : ∀ self, link (released self) = Closed;
}.
Arguments Lifecycle T {_ _}.

(** A serial transport can always be connected; [connect] opens a port. *)
#[export, refine] Instance SerialTransport_Lifecycle : Lifecycle SerialTransport.t := {|
  ready := λ _, True;
  connected := λ self,
    SerialTransport.set_port
      (Some (SerialTransport.settings self SerialTransport.default_baudrate
               (500 * SerialTransport.timeout self))) self;
  released := SerialTransport.set_port None;
  opens := λ _, 1%nat;
  connect_log := λ _, [];
  link_timeout := λ self, 500 * SerialTransport.timeout self;
|}.
Proof.
  - intros self w _ Hup. simpl. rewrite serial_connect_ok by done.
    do 2 f_equal. unfold after_connect, open_handle. by rewrite app_nil_r.
  - done.
  - done.
  - done.
  - intros self w Hl. simpl in *.
    destruct (SerialTransport.port self) as [p |] eqn:Hp; [| done].
    by apply serial_disconnect_open with (p := p).
  - done.
Defined.

(** A TCP transport can be connected when it has no socket, or a socket of
    its own that is not connected; [connect] opens a socket in the first
    case only. *)
Definition tcp_ready (self : TcpTransport.t) : Prop :=
  match TcpTransport.socket self with
  | None => True
  | Some s =>
    socket.connected s = false ∧
    socket.timeout s = Some (seconds (TcpTransport.timeout self))
  end.

#[export, refine] Instance TcpTransport_Lifecycle : Lifecycle TcpTransport.t := {|
  ready := tcp_ready;
  connected := λ self,
    TcpTransport.set_socket
      (Some (socket.mkSocket (Some (seconds (TcpTransport.timeout self))) true)) self;
  released := TcpTransport.set_socket None;
  opens := λ self, if TcpTransport.socket self is None then 1%nat else 0%nat;
  connect_log := λ self,
    [LogConnecting (TcpTransport.address self).1 (TcpTransport.address self).2];
  link_timeout := λ self, seconds (TcpTransport.timeout self);
|}.
Proof.
  - intros self w Hr Hup. unfold tcp_ready in Hr. simpl.
    destruct (TcpTransport.socket self) as [s |] eqn:Hs.
    + destruct Hr as [Hc Ht]. rewrite (tcp_connect_ok self s) by done.
      by rewrite Ht.
    + by rewrite tcp_connect_fresh.
  - done.
  - done.
  - done.
  - intros self w Hl. simpl in *.
    destruct (TcpTransport.socket self) as [s |] eqn:Hs; [| done].
    by apply tcp_disconnect_open with (s := s).
  - done.
Defined.

(** ** A session that reads a message *)

Section Theorems.
Context `{Lifecycle T} `{Checksum} `{Constants}.
Implicit Types (self : T) (w : World).

(** The world after the request was sent and logged. *)
Definition requested self (request : bytes) w : World :=
  log_record (LogSent request (class_name self))
    (line_write request (after_connect (opens self) (connect_log self) w)).

(** C21.  A session on a line that is up, with a ready transport, on which
    the meter answers the request with a message of blocks that arrives in
    time: the session returns the reassembled message; the request and one
    ACK for every partial block were written; the handle that [connect]
    opened is closed again, and the transport is left without a link. *)
Theorem session_message self request junk qs p evs rest fuel w :
  ready self → line_up w = true →
  noise junk → Forall clean qs → clean p →
  delivers (link_timeout self) evs (junk ++ wire qs p) →
  rx w = evs ++ rest →
  script_time evs ≤ seconds (timeout self) →
  (length evs < fuel)%nat →
  session fuel request (self, w) =
    Some (Ok (reassemble qs p),
          (released (connected self),
           close_handle
             (finished (connected self) evs rest qs p (requested self request w)))).
Proof.
  intros Hr Hup Hjunk Hqs Hp Hevs Hrx Ht Hf. unfold session, read.
  rewrite connect_ok by done.
  pose proof (connected_link self Hr) as Hl.
  rewrite send_ok by (by rewrite ?Hl).
  rewrite (read_loop_message (connected self) _ Hl junk qs p evs rest);
    [| done | done | done | done | done | by rewrite connected_timeout | done
     | by right].
  rewrite disconnect_ok by (by rewrite Hl).
  unfold requested. by rewrite connected_name.
Qed.

(** What a session leaves behind.  All that it wrote to the line is the
    request and replies of [read].  When it returns, the message is checked,
    the transport is released and of the handles [connect] opened one is
    closed again; when it raises, the transport is still connected and
    every handle [connect] opened is still open: nothing on the way out
    releases them. *)
Definition settled self (request : bytes) w (r : result bytes) (s : T * World)
    : Prop :=
  (∃ reps, tx s.2 = tx w ++ request ++ replies_bytes reps) ∧
  match r with
  | Ok m =>
    checked m ∧ s.1 = released (connected self) ∧
    handles s.2 = pred (opens self + handles w)
  | Raise _ =>
    s.1 = connected self ∧ handles s.2 = (opens self + handles w)%nat
  end.

(** The world of [read] in a session, from the world the session began in. *)
Lemma session_read_extends self request v fuel w r w' :
  read_loop fuel (connected self) v (requested self request w) = Some (r, w') →
  (∃ reps, tx w' = tx w ++ request ++ replies_bytes reps) ∧
  handles w' = (opens self + handles w)%nat.
Proof.
  intros (reps & Ht & Hh & _)%read_loop_extends. split; [| by rewrite Hh].
  exists reps. rewrite Ht. simpl. by rewrite <- app_assoc.
Qed.

(** C22.  A session with a ready transport on a line that is up, whatever
    the meter answers and whenever: all that the session writes is the
    request followed by ACK and NACK replies; a session that returns,
    returns a message that is a command message or validates under its
    checksum, and has released the transport and closed the handle; a
    session that raises does so out of [read], and leaves the transport
    connected and the handle open. *)
Theorem session_outcome self request fuel w r s :
  ready self → line_up w = true →
  session fuel request (self, w) = Some (r, s) → settled self request w r s.
Proof.
  intros Hr Hup. unfold session, read.
  rewrite connect_ok by done.
  pose proof (connected_link self Hr) as Hl.
  rewrite send_ok by (by rewrite ?Hl). rewrite connected_name.
  fold (requested self request w).
  destruct (read_loop _ _ _ _) as [[[m | e] w1] |] eqn:Hrun; [| | done].
  - rewrite disconnect_ok by (by rewrite Hl). intros [= <- <-].
    destruct (session_read_extends _ _ _ _ _ _ _ Hrun) as [Ht Hh].
    split; [done |]. simpl. rewrite Hh. split_and!; [| done..].
    by apply read_loop_steps, machine_reachable_ok in Hrun.
  - intros [= <- <-]. by destruct (session_read_extends _ _ _ _ _ _ _ Hrun).
Qed.

End Theorems.

(** ** Concrete runs *)

(** A serial transport just made, and the request for a readout. *)
Lemma session_message_witness :
  session 20 [47; 63; 33; 13; 10]
    (SerialTransport.__init__ "/dev/ttyUSB0" 10,
     mkWorld 0 true (bytes_every 3 (wire [[65; 66]] [67])) [] 0 []) =
  Some (Ok (reassemble [[65; 66]] [67]),
        (SerialTransport.__init__ "/dev/ttyUSB0" 10,
         mkWorld 27 true [] ([47; 63; 33; 13; 10] ++ acks [[65; 66]]) 0
           ([LogSent [47; 63; 33; 13; 10] "SerialTransport"] ++
            read_log "SerialTransport" [[65; 66]] [67]))).
Proof.
  etrans;
    [apply (session_message (SerialTransport.__init__ "/dev/ttyUSB0" 10)
              [47; 63; 33; 13; 10] [] [[65; 66]] [67]
              (bytes_every 3 (wire [[65; 66]] [67])) []); concrete
    | reflexivity].
Defined.

(** A meter that stays silent: the session raises out of [read], and the
    port it opened stays open. *)
Lemma session_outcome_witness :
  settled (SerialTransport.__init__ "/dev/ttyUSB0" 10) [47; 63; 33; 13; 10]
    (mkWorld 0 true [] [] 0 [])
    (Raise (TimeoutError "Read in SerialTransport timed out"))
    (connected (SerialTransport.__init__ "/dev/ttyUSB0" 10),
     mkWorld 15000 true [] [47; 63; 33; 13; 10] 1
       [LogSent [47; 63; 33; 13; 10] "SerialTransport"]).
Proof.
  apply (session_outcome (SerialTransport.__init__ "/dev/ttyUSB0" 10)
           [47; 63; 33; 13; 10] 20); concrete.
Defined.

(** A TCP transport as its constructor leaves it: the same session. *)
Lemma tcp_session :
  session 20 [47; 63; 33; 13; 10]
    (tcp_fresh.1, with_rx (bytes_every 3 (wire [[65; 66]] [67])) tcp_fresh.2) =
  Some (Ok (reassemble [[65; 66]] [67]),
        (TcpTransport.set_socket None tcp_fresh.1,
         mkWorld 27 true [] ([47; 63; 33; 13; 10] ++ acks [[65; 66]]) 0
           ([LogConnecting "192.0.2.1" 8000;
             LogSent [47; 63; 33; 13; 10] "TcpTransport"] ++
            read_log "TcpTransport" [[65; 66]] [67]))).
Proof. reflexivity. Qed.
