(* ===== verification/Base.v ===== *)
(** * The base class on its own

    [BaseTransport] leaves [connect], [disconnect], [_send], [_recv] and
    [switch_baudrate] to its subclasses.  An object of the base class itself
    has the definitions of lines 26-30 and 184-215, and every method that
    reaches one of them raises. *)

From Stdlib Require Import ZArith Lia.
From stdpp Require Import base tactics option list numbers strings.
From S2P Require Import Prelude Checksum World Transport Framing SimpleRead.

#[local] Open Scope Z_scope.

(** What evaluating [NotImplemented(...)] raises. *)
Definition not_callable : exn :=
  TypeError "'NotImplementedType' object is not callable".

(** C36.  On an object of the base class every abstract method raises
    [TypeError], because [NotImplemented] is called, and so do [send], [read]
    and [simple_read], which reach [_send] and [_recv]; nothing changes. *)
Theorem base_raises_type_error `{Checksum} `{Constants}
    (self : BaseTransport.t) w fuel timeout_arg start_char end_char baud data :
  (1 < fuel)%nat →
  BaseTransport.connect (self, w) = (Raise not_callable, (self, w)) ∧
  BaseTransport.disconnect (self, w) = (Raise not_callable, (self, w)) ∧
  BaseTransport.switch_baudrate baud (self, w) = (Raise not_callable, (self, w)) ∧
  BaseTransport.send data self w = (Raise not_callable, w) ∧
  read fuel timeout_arg self w = Some (Raise not_callable, w) ∧
  simple_read fuel start_char end_char timeout_arg self w
    = Some (Raise not_callable, w).
Proof.
  intros Hf. destruct fuel as [| [| fuel]]; [lia | lia |]. by split_and!.
Qed.

Lemma base_raises_type_error_witness :
  let self := BaseTransport.__init__ BaseTransport.default_timeout in
  let w := world_of (bytes_every 3 [2; 65; 3; 64]) in
  BaseTransport.connect (self, w) = (Raise not_callable, (self, w)) ∧
  BaseTransport.disconnect (self, w) = (Raise not_callable, (self, w)) ∧
  BaseTransport.switch_baudrate 9600 (self, w) = (Raise not_callable, (self, w)) ∧
  BaseTransport.send [6] self w = (Raise not_callable, w) ∧
  read 5 None self w = Some (Raise not_callable, w) ∧
  simple_read 5 (Str "/") (Str "!") None self w = Some (Raise not_callable, w).
Proof. apply base_raises_type_error. lia. Defined.
